(** * Learning-to-rank helpers: rank judgments, DCG / NDCG, query escaping

    A shallow embedding of [azs_helpers/l2r_helper.py] and the proofs of the
    properties its specification states.

    Conventions of the embedding.
    - Python integers are [Z]; sequence slicing follows Python (negative
      bounds count from the end, bounds are clamped, slicing never raises).
    - float64 values that only get compared, sorted or cast (scores and
      labels of the judgment converter) are rationals [Q]: every finite
      float is one, and these operations are exact on them.
    - float64 values that go through [log2], division and summation (the
      gain functions) are idealised as real numbers [R]; rounding is not
      modelled.  The special values a division by zero on numpy scalars
      yields are kept ([f64]).
    - Python's builtin [float] and numpy's [float64] scalars are told apart
      ([number]): they differ on division by zero.
    - Exceptions are the [Raise] branch of [result]. *)

From Stdlib Require Import Reals Lra Lia ZArith QArith Bool.
From Stdlib Require Import List Permutation Sorted String Ascii.
From Bignums Require Import BigZ.BigZ.
Import ListNotations.

(** ** Python values and control *)

Module Py.

Inductive exn : Type :=
| ValueError
| ZeroDivisionError
| IndexError
| KeyError.

Inductive result (A : Type) : Type :=
| Ok (a : A)
| Raise (e : exn).

Arguments Ok {A} a.
Arguments Raise {A} e.

Definition bind {A B : Type} (c : result A) (f : A -> result B) : result B :=
  match c with
  | Ok a => f a
  | Raise e => Raise e
  end.

Notation "x <- c ;; k" := (bind c (fun x => k))
  (at level 61, c at next level, right associativity).

(** [norm_index n i]: the position a slice bound [i] denotes in a sequence
    of length [n]. *)
Definition norm_index (n : nat) (i : Z) : nat :=
  let len := Z.of_nat n in
  let j := if (i <? 0)%Z then Z.max 0 (i + len) else Z.min i len in
  Z.to_nat j.

(** [slice l start stop] is [l[start:stop]]; [None] is an omitted bound. *)
Definition slice {A : Type} (l : list A) (start stop : option Z) : list A :=
  let n := List.length l in
  let a := match start with Some i => norm_index n i | None => 0%nat end in
  let b := match stop with Some i => norm_index n i | None => n end in
  firstn (b - a) (skipn a l).

(** [range(a, b)], also the values of [np.arange(a, b)]. *)
Definition range (a b : Z) : list Z :=
  map (fun i => (a + Z.of_nat i)%Z) (seq 0 (Z.to_nat (b - a))).

(** [for x in xs: body] over a state that may raise. *)
Fixpoint for_each {A S : Type} (xs : list A) (body : A -> S -> result S)
    (s : S) : result S :=
  match xs with
  | [] => Ok s
  | x :: xs' => s' <- body x s ;; for_each xs' body s'
  end.

(** Results in order, up to the first exception. *)
Fixpoint collect {A : Type} (cs : list (result A)) : result (list A) :=
  match cs with
  | [] => Ok []
  | c :: cs' => a <- c ;; l <- collect cs' ;; Ok (a :: l)
  end.

End Py.

Import Py.

(** ** Numbers: builtin [int] and [float], numpy [float64] *)

Module Num.

Local Open Scope R_scope.

(** A numpy float64 scalar: a finite value or one of the special values. *)
Inductive f64 : Type :=
| Finite (x : R)
| NaN
| Inf (negative : bool).

Inductive number : Type :=
| PyInt (z : Z)
| PyFloat (x : R)
| NpFloat64 (v : f64).

Definition is_zero (x : R) : bool :=
  if Req_dec_T x 0 then true else false.

Definition is_neg (x : R) : bool :=
  if Rlt_dec x 0 then true else false.

Definition f64_add (a b : f64) : f64 :=
  match a, b with
  | Finite x, Finite y => Finite (x + y)
  | NaN, _ | _, NaN => NaN
  | Inf s, Inf s' => if Bool.eqb s s' then Inf s else NaN
  | Inf s, Finite _ | Finite _, Inf s => Inf s
  end.

(** numpy's scalar division: a zero divisor gives nan or an infinity (and
    a warning), never an exception. *)
Definition f64_div (a b : f64) : f64 :=
  match a, b with
  | Finite x, Finite y =>
      if is_zero y then (if is_zero x then NaN else Inf (is_neg x))
      else Finite (x / y)
  | NaN, _ | _, NaN => NaN
  | Inf _, Inf _ => NaN
  | Inf s, Finite y => Inf (xorb s (is_neg y))
  | Finite _, Inf _ => Finite 0
  end.

(** The float64 a number converts to when it meets a numpy scalar. *)
Definition as_f64 (a : number) : f64 :=
  match a with
  | PyInt z => Finite (IZR z)
  | PyFloat x => Finite x
  | NpFloat64 v => v
  end.

Definition py_real (a : number) : R :=
  match a with
  | PyInt z => IZR z
  | PyFloat x => x
  | NpFloat64 (Finite x) => x
  | NpFloat64 _ => 0
  end.

(** [a + b]: numpy arithmetic as soon as one operand is a numpy scalar. *)
Definition add (a b : number) : number :=
  match a, b with
  | PyInt x, PyInt y => PyInt (x + y)
  | NpFloat64 _, _ | _, NpFloat64 _ => NpFloat64 (f64_add (as_f64 a) (as_f64 b))
  | _, _ => PyFloat (py_real a + py_real b)
  end.

(** [a / b]: Python raises on a zero divisor, numpy does not. *)
Definition truediv (a b : number) : result number :=
  match a, b with
  | NpFloat64 _, _ | _, NpFloat64 _ => Ok (NpFloat64 (f64_div (as_f64 a) (as_f64 b)))
  | _, _ =>
      if is_zero (py_real b) then Raise ZeroDivisionError
      else Ok (PyFloat (py_real a / py_real b))
  end.

(** [bool(a)]: zero is false, everything else (nan included) is true. *)
Definition truth (a : number) : bool :=
  match as_f64 a with
  | Finite x => negb (is_zero x)
  | _ => true
  end.

(** [a != 0]. *)
Definition ne_zero (a : number) : bool := truth a.

(** Whether a number is a numpy scalar. *)
Definition is_numpy (a : number) : bool :=
  match a with
  | NpFloat64 _ => true
  | _ => false
  end.

(** The finite real a number stands for, if it is one. *)
Definition real_of (a : number) : option R :=
  match as_f64 a with
  | Finite x => Some x
  | _ => None
  end.

Definition value (c : result number) : option R :=
  match c with
  | Ok a => real_of a
  | Raise _ => None
  end.

End Num.

Import Num.

(** ** Gain functions *)

Module Gain.

Local Open Scope R_scope.

Definition log2 (x : R) : R := ln x / ln 2.

(** Arrays of float64 are lists of reals. *)
Definition asfarray (r : list R) : list R := r.

Definition size {A : Type} (a : list A) : Z := Z.of_nat (List.length a).

Definition np_log2 (a : list Z) : list R := map (fun i => log2 (IZR i)) a.

(** Elementwise [a / b] on arrays of one shape. *)
Fixpoint np_divide (a b : list R) : list R :=
  match a, b with
  | x :: a', y :: b' => (x / y) :: np_divide a' b'
  | _, _ => []
  end.

Definition np_sum (a : list R) : R := fold_right Rplus 0 a.

Definition dcg_at_k (r : list R) (k : Z) (method : Z) : result number :=
  let r := slice (asfarray r) None (Some k) in
  if negb (size r =? 0)%Z then
    if (method =? 0)%Z then
      Ok (NpFloat64 (Finite
            (nth 0 r 0
             + np_sum (np_divide (slice r (Some 1%Z) None)
                                 (np_log2 (range 2 (size r + 1)))))))
    else if (method =? 1)%Z then
      Ok (NpFloat64 (Finite
            (np_sum (np_divide r (np_log2 (range 2 (size r + 2)))))))
    else Raise ValueError
  else Ok (PyFloat 0).

(** What [dcg_at_k] computes once the slice [t = r[:k]] is taken. *)
Definition dcg_of_slice (t : list R) (method : Z) : result number :=
  match t with
  | [] => Ok (PyFloat 0)
  | x :: t' =>
      if (method =? 0)%Z then
        Ok (NpFloat64 (Finite
              (x + np_sum (np_divide t' (map (fun i => log2 (INR i))
                                             (seq 2 (List.length t')))))))
      else if (method =? 1)%Z then
        Ok (NpFloat64 (Finite
              (np_sum (np_divide t (map (fun i => log2 (INR i))
                                        (seq 2 (List.length t)))))))
      else Raise ValueError
  end.

(** [sorted(r, reverse=True)]: a stable sort into descending order, here by
    insertion from the right (an element goes in front of the ones it
    equals, which came after it). *)
Fixpoint insert_desc (x : R) (l : list R) : list R :=
  match l with
  | [] => [x]
  | y :: l' => if Rlt_dec x y then y :: insert_desc x l' else x :: l
  end.

Definition sorted_reverse (r : list R) : list R :=
  fold_right insert_desc [] r.

Definition ndcg_at_k (r : list R) (k : Z) (method : Z) : result number :=
  dcg_max <- dcg_at_k (sorted_reverse r) k method ;;
  if negb (truth dcg_max) then Ok (PyFloat 0)
  else
    dcg <- dcg_at_k r k method ;;
    truediv dcg dcg_max.

(** One turn of the inner loop of [get_range_ndcg]; the state is
    [(count, ndcg_sum)]. *)
Definition accumulate (k : Z) (ndcg_input : list R) (st : Z * number)
    : result (Z * number) :=
  let '(count, ndcg_sum) := st in
  current_ndcg <- ndcg_at_k ndcg_input k 0 ;;
  let ndcg_sum := add ndcg_sum current_ndcg in
  let count := if ne_zero current_ndcg then (count + 1)%Z else count in
  Ok (count, ndcg_sum).

Definition get_range_ndcg (ndcgs : list (list R)) (k_start k_end : Z)
    : result (list number) :=
  for_each (range k_start k_end)
    (fun k results =>
       st <- for_each ndcgs (accumulate k) (0%Z, PyInt 0) ;;
       let '(count, ndcg_sum) := st in
       mean <- truediv ndcg_sum (PyInt count) ;;
       Ok (results ++ [mean]))
    [].

(** What the outer loop of [get_range_ndcg] computes for one cutoff. *)
Definition mean_at (ndcgs : list (list R)) (k : Z) : result number :=
  st <- for_each ndcgs (accumulate k) (0%Z, PyInt 0) ;;
  let '(count, ndcg_sum) := st in
  truediv ndcg_sum (PyInt count).

(** The relevance list of the docstring examples. *)
Definition handout_r : list R := [3; 2; 3; 0; 0; 1; 2; 2; 3; 0].

End Gain.

Import Gain.

(** ** The gain functions as the specification words them *)

Module Reference.

Local Open Scope R_scope.

(** The sum of [f i] over the positions [i = lo .. hi]. *)
Definition sum_positions (lo hi : nat) (f : nat -> R) : R :=
  fold_right Rplus 0 (map f (seq lo (S hi - lo))).

(** DCG of the first [k] entries [t] of [r], positions counted from 1:
    method 0 adds [t[0]] and [t[i-1] / log2 i] for [i = 2 .. |t|];
    method 1 adds [t[i-1] / log2 (i+1)] for [i = 1 .. |t|]. *)
Definition dcg (r : list R) (k : Z) (method : Z) : R :=
  let t := firstn (Z.to_nat k) r in
  let entry (i : nat) := nth (i - 1) t 0 in
  match t with
  | [] => 0
  | _ :: _ =>
      if (method =? 0)%Z then
        entry 1%nat
        + sum_positions 2 (List.length t) (fun i => entry i / log2 (INR i))
      else
        sum_positions 1 (List.length t) (fun i => entry i / log2 (INR (i + 1)))
  end.

(** [s] is [r] sorted into descending order. *)
Definition sorted_descending (r s : list R) : Prop :=
  Permutation r s /\ Sorted Rge s.

(** The NDCG of one sequence at cutoff [k], with the default method. *)
Definition ndcg_value (r : list R) (k : Z) : R :=
  match value (ndcg_at_k r k 0) with
  | Some x => x
  | None => 0
  end.

(** Its ideal DCG: the DCG of the sequence in descending order. *)
Definition ideal_dcg (r : list R) (k : Z) : R :=
  match value (dcg_at_k (sorted_reverse r) k 0) with
  | Some x => x
  | None => 0
  end.

(** The sum of the NDCG values of the sequences. *)
Definition ndcg_total (ndcgs : list (list R)) (k : Z) : R :=
  fold_right Rplus 0 (map (fun r => ndcg_value r k) ndcgs).

(** How many sequences have a non-zero NDCG. *)
Definition nonzero_count (ndcgs : list (list R)) (k : Z) : Z :=
  Z.of_nat
    (List.length (filter (fun r => negb (is_zero (ndcg_value r k))) ndcgs)).

(** The mean NDCG at cutoff [k] over the sequences that count, and what
    becomes of it when none does: an exception when the running sum is
    still a Python number (no sequence with a non-zero ideal DCG), nan
    when it has become a numpy scalar. *)
Definition mean (ndcgs : list (list R)) (k : Z) : result number :=
  if (nonzero_count ndcgs k =? 0)%Z then
    if forallb (fun r => is_zero (ideal_dcg r k)) ndcgs
    then Raise ZeroDivisionError
    else Ok (NpFloat64 NaN)
  else
    Ok (NpFloat64
          (Finite (ndcg_total ndcgs k / IZR (nonzero_count ndcgs k)))).

End Reference.

(** ** The rank-judgment converter *)

Module Judgments.

Definition int64_min : Z := (- 2 ^ 63)%Z.
Definition int64_max : Z := (2 ^ 63 - 1)%Z.

Definition in_int64 (z : Z) : bool :=
  (int64_min <=? z)%Z && (z <=? int64_max)%Z.

(** The cast numpy applies when a float64 is stored into an int64 array:
    truncation toward zero.  Outside the int64 range C leaves the result
    undefined; x86-64 gives the smallest int64. *)
Definition to_int64 (q : Q) : Z :=
  let t := Z.quot (Qnum q) (Z.pos (Qden q)) in
  if in_int64 t then t else int64_min.

(** The two sorting routines the converter calls, [argsort] (numpy's, and
    pandas' on a column) and [Series.sort_values].  Both default to an
    unstable quicksort: what they return on ties is theirs to choose. *)
Record Sorter : Type := {
  argsort : list Q -> list nat;
  sort_values : list Q -> list Q
}.

(** [p] lists the positions of [a] in an ascending order of the values. *)
Definition is_argsort (a : list Q) (p : list nat) : Prop :=
  Permutation p (seq 0 (List.length a))
  /\ Sorted Qle (map (fun i => nth i a 0%Q) p).

(** [s] is [a] in ascending order. *)
Definition is_sorted_values (a s : list Q) : Prop :=
  Permutation a s /\ Sorted Qle s.

Definition sound (S : Sorter) : Prop :=
  (forall a, is_argsort a (argsort S a))
  /\ (forall a, is_sorted_values a (sort_values S a)).

(** Insertion sort by key, from the right; [before a b] decides whether a
    key [a] goes in front of a key [b].  With [<=] the sort is stable, with
    [<] equal keys come out in reverse: two sorters among the sound ones. *)
Fixpoint insert_by {A : Type} (before : Q -> Q -> bool) (key : A -> Q)
    (x : A) (l : list A) : list A :=
  match l with
  | [] => [x]
  | y :: l' =>
      if before (key x) (key y) then x :: l
      else y :: insert_by before key x l'
  end.

Definition sort_by {A : Type} (before : Q -> Q -> bool) (key : A -> Q)
    (l : list A) : list A :=
  fold_right (insert_by before key) [] l.

Definition insertion_with (before : Q -> Q -> bool) : Sorter := {|
  argsort := fun a =>
    map fst (sort_by before snd (combine (seq 0 (List.length a)) a));
  sort_values := fun a => sort_by before (fun x => x) a
|}.

Definition insertion : Sorter := insertion_with Qle_bool.

Definition insertion_ties_reversed : Sorter :=
  insertion_with (fun a b => negb (Qle_bool b a)).

(** A pandas table: named columns. *)
Definition DataFrame : Type := list (string * list Q).

Fixpoint column (df : DataFrame) (name : string) : result (list Q) :=
  match df with
  | [] => Raise KeyError
  | (n, c) :: df' => if String.eqb n name then Ok c else column df' name
  end.

Fixpoint set_nth {A : Type} (i : nat) (v : A) (l : list A) : list A :=
  match l, i with
  | [], _ => []
  | _ :: l', O => v :: l'
  | x :: l', S i' => x :: set_nth i' v l'
  end.

(** The writes of [arr[idxs] = vals], in order. *)
Fixpoint scatter {A : Type} (arr : list A) (idxs : list nat) (vals : list A)
    : list A :=
  match idxs, vals with
  | i :: idxs', v :: vals' => scatter (set_nth i v arr) idxs' vals'
  | _, _ => arr
  end.

(** [arr[idxs] = vals] on an int64 array: the positions must exist, the
    values must be as many as the positions or a single one (broadcast),
    and each is cast on the way in. *)
Definition assign_at (arr : list Z) (idxs : list nat) (vals : list Q)
    : result (list Z) :=
  if negb (forallb (fun i => (i <? List.length arr)%nat) idxs) then
    Raise IndexError
  else if (List.length vals =? List.length idxs)%nat then
    Ok (scatter arr idxs (map to_int64 vals))
  else
    match vals with
    | [v] => Ok (scatter arr idxs (repeat (to_int64 v) (List.length idxs)))
    | _ => Raise ValueError
    end.

Section Converter.

Variable S : Sorter.

(** What an uninitialised int64 array holds at each position. *)
Variable junk : nat -> Z.

(** [np.empty_like(idxs)]: the shape and the element type of [idxs], the
    contents whatever the memory held. *)
Definition empty_like (idxs : list nat) : list Z :=
  map junk (seq 0 (List.length idxs)).

(** The loop state: [start], [end] and the three lists built so far.  The
    [verbose] printing reads the state and changes nothing; it is left
    out. *)
Definition state : Type :=
  Z * Z * list (list Z) * list (list Z) * list (list Q).

Definition query_step (predictions : list Q) (X_test : DataFrame)
    (y_test : list Q) (query_doc_count : Z) (st : state) : result state :=
  let '(start, end_, model_judgments, azs_judgments, baseline) := st in
  let start := end_ in
  let end_ := (end_ + query_doc_count)%Z in
  let relevance_scores := slice predictions (Some start) (Some end_) in
  let sorted_idxs := argsort S relevance_scores in
  let judgments := empty_like sorted_idxs in
  judgments <-
    assign_at judgments sorted_idxs
      (sort_values S (slice y_test (Some start) (Some end_))) ;;
  let model_judgments := model_judgments ++ [judgments] in
  search_score <- column X_test "@search.score"%string ;;
  let azs_scores := slice search_score (Some start) (Some end_) in
  let sorted_azs_idxs := argsort S azs_scores in
  let azs_judgments_for_query := empty_like sorted_azs_idxs in
  azs_judgments_for_query <-
    assign_at azs_judgments_for_query sorted_azs_idxs
      (sort_values S (slice y_test (Some start) (Some end_))) ;;
  let azs_judgments := azs_judgments ++ [azs_judgments_for_query] in
  let baseline := baseline ++ [slice y_test (Some start) (Some end_)] in
  Ok (start, end_, model_judgments, azs_judgments, baseline).

(** The three results are the per-query arrays in query order: [np.array]
    over arrays of unequal lengths keeps them as an array of arrays (as
    numpy did up to 1.23; the code predates the releases that refuse
    ragged input). *)
Definition compute_judgments_after_training (predictions : list Q)
    (query_doc_counts : list Z) (X_test : DataFrame) (y_test : list Q)
    : result (list (list Z) * list (list Z) * list (list Q)) :=
  st <- for_each query_doc_counts (query_step predictions X_test y_test)
          (0%Z, 0%Z, [], [], []) ;;
  let '(_, _, model_judgments, azs_judgments, baseline) := st in
  Ok (model_judgments, azs_judgments, baseline).

(** The judgments one scorer gives one query: the sorted labels written at
    the positions its ascending order lists. *)
Definition judgments_of (scores labels : list Q) : result (list Z) :=
  assign_at (empty_like (argsort S scores)) (argsort S scores)
    (sort_values S labels).

(** The array those writes leave, when they are allowed. *)
Definition ranked_labels (scores labels : list Q) : list Z :=
  scatter (empty_like (argsort S scores)) (argsort S scores)
    (map to_int64 (sort_values S labels)).

End Converter.

(** The slices of [l] the boundary list [counts] cuts, in order. *)
Fixpoint query_slices {A : Type} (l : list A) (counts : list Z)
    : list (list A) :=
  match counts with
  | [] => []
  | c :: counts' =>
      firstn (Z.to_nat c) l :: query_slices (skipn (Z.to_nat c) l) counts'
  end.

Definition total (counts : list Z) : Z := fold_right Z.add 0%Z counts.

(** The judgments of one scorer, query by query. *)
Definition ranked_queries (S : Sorter) (junk : nat -> Z)
    (scores labels : list Q) (counts : list Z) : list (list Z) :=
  map (fun p => ranked_labels S junk (fst p) (snd p))
      (combine (query_slices scores counts) (query_slices labels counts)).

End Judgments.

Import Judgments.

(** ** Query escaping *)

Module Query.

Local Open Scope char_scope.

(** [s.replace(old, new)] for a one-character [old]. *)
Fixpoint replace (s : string) (old : ascii) (new : string) : string :=
  match s with
  | EmptyString => EmptyString
  | String c s' =>
      if Ascii.eqb c old then String.append new (replace s' old new)
      else String c (replace s' old new)
  end.

(** The reserved characters, in the order they are handled; ["034"] is the
    double quote. *)
Definition characters : list ascii :=
  ["\"; "+"; "-"; "&"; "|"; "!"; "("; ")"; "{"; "}"; "["; "]"; "^"; "034";
   "~"; "*"; "?"; ":"; "/"].

(** ["\\{0}".format(character)]: a backslash, then the character. *)
Definition escaped_char (character : ascii) : string :=
  String "\" (String character EmptyString).

Definition escape_query (query : string) : string :=
  fold_left (fun query character =>
               replace query character (escaped_char character))
            characters query.

(** The same loop over any list of characters. *)
Definition escape_with (cs : list ascii) (query : string) : string :=
  fold_left (fun query character =>
               replace query character (escaped_char character))
            cs query.

(** Membership in a list of characters. *)
Definition among (cs : list ascii) (c : ascii) : bool :=
  existsb (Ascii.eqb c) cs.

(** The string with a backslash in front of each character of [cs]. *)
Fixpoint prefixed (cs : list ascii) (s : string) : string :=
  match s with
  | EmptyString => EmptyString
  | String c s' =>
      if among cs c then String "\" (String c (prefixed cs s'))
      else String c (prefixed cs s')
  end.

(** The escaping as the specification words it: a single backslash in
    front of each occurrence of a reserved character, all else as it is. *)
Definition reserved (c : ascii) : bool := among characters c.

Definition escaped (query : string) : string := prefixed characters query.

End Query.

Import Query.

(** ** Dictionaries and the table of NDCG values *)

Module Evaluate.

(** [d[key] = v] on a dictionary kept as its items in insertion order: a
    key that is there keeps its place and takes the new value, a new key
    goes to the end. *)
Fixpoint dict_set {V : Type} (key : string) (v : V) (d : list (string * V))
    : list (string * V) :=
  match d with
  | [] => [(key, v)]
  | (key', v') :: d' =>
      if String.eqb key' key then (key', v) :: d'
      else (key', v') :: dict_set key v d'
  end.

(** A pandas table of numbers: the row labels and the named columns. *)
Record frame : Type := {
  index : list Z;
  columns : list (string * list number)
}.

(** [pd.DataFrame(data=d)] for a dictionary of lists: the columns must be
    of one length, the rows are numbered from 0; no column, no row. *)
Definition pd_DataFrame (data : list (string * list number)) : result frame :=
  match data with
  | [] => Ok {| index := []; columns := [] |}
  | (_, c) :: rest =>
      if forallb (fun kc => (List.length (snd kc) =? List.length c)%nat) rest
      then Ok {| index := range 0 (Z.of_nat (List.length c));
                 columns := data |}
      else Raise ValueError
  end.

(** [df.set_axis(labels, axis=0, inplace=True)]: new row labels, as many
    as there are rows; a table without columns takes labels of any number
    (pandas checks the length against the columns' data only). *)
Definition set_axis (labels : list Z) (df : frame) : result frame :=
  match columns df with
  | [] => Ok {| index := labels; columns := [] |}
  | _ :: _ =>
      if (List.length labels =? List.length (index df))%nat
      then Ok {| index := labels; columns := columns df |}
      else Raise ValueError
  end.

(** [ranking_results] are the keyword arguments, in the order given.  What
    [plot] and [show_lift] add is drawn, not returned. *)
Definition evaluate_ndcg (k_start k_end : Z) (plot show_lift : bool)
    (ranking_results : list (string * list (list R))) : result frame :=
  d <- for_each ranking_results
         (fun item d =>
            let '(key, value) := item in
            ndcgs <- get_range_ndcg value k_start (k_end + 1) ;;
            Ok (dict_set key ndcgs d))
         [] ;;
  df <- pd_DataFrame d ;;
  set_axis (range k_start (k_end + 1)) df.

(** The column [evaluate_ndcg] gives a series when all goes well. *)
Definition mean_column (k_start k_end : Z) (item : string * list (list R))
    : string * list number :=
  (fst item,
   map (fun k =>
          NpFloat64
            (Finite (Reference.ndcg_total (snd item) k
                     / IZR (Reference.nonzero_count (snd item) k))))
       (range k_start (k_end + 1))).

End Evaluate.

Import Evaluate.

(** ** Labels an int64 can hold *)

Module Labels.

(** The integer part of the label is in the int64 range. *)
Definition fits_int64 (q : Q) : Prop :=
  in_int64 (Z.quot (Qnum q) (Z.pos (Qden q))) = true.

(** Within a query, a document scored below another is not judged above
    it. *)
Definition follows_scores (judgments : list Z) (scores : list Q) : Prop :=
  forall a b : nat,
    (a < List.length scores)%nat -> (b < List.length scores)%nat ->
    (nth a scores 0 < nth b scores 0)%Q ->
    (nth a judgments 0 <= nth b judgments 0)%Z.

(** [z] is [q] without its fractional part: the integer next to [q] on
    the side of zero. *)
Definition integer_part (q : Q) (z : Z) : Prop :=
  ((0 <= q)%Q -> (inject_Z z <= q)%Q /\ (q < inject_Z z + 1)%Q)
  /\ ((q <= 0)%Q -> (inject_Z z - 1 < q)%Q /\ (q <= inject_Z z)%Q).

End Labels.

Import Labels.

(** ** Nested dictionaries *)

Module Flatten.

(** What a dictionary holds under a key: another mapping, or anything
    else. *)
#[warnings="-register-all"] Inductive nested (A : Type) : Type :=
| Leaf (a : A)
| Mapping (d : list (string * nested A)).

Arguments Leaf {A} a.
Arguments Mapping {A} d.

(** [dict(items)]: the pairs set one after the other. *)
Definition dict {V : Type} (items : list (string * V)) : list (string * V) :=
  fold_left (fun d kv => dict_set (fst kv) (snd kv) d) items [].

(** [parent_key + sep + k if parent_key else k]; an empty string counts as
    false. *)
Definition new_key (parent_key sep k : string) : string :=
  match parent_key with
  | EmptyString => k
  | _ => ((parent_key ++ sep) ++ k)%string
  end.

(** What one pass of the loop adds to [items] for an entry [v] met under
    [new_key]: the items of the flattened mapping, or the one pair. *)
Fixpoint extend_items {A : Type} (v : nested A) (new_key_ sep : string)
    : list (string * A) :=
  match v with
  | Leaf a => [(new_key_, a)]
  | Mapping d =>
      dict (flat_map (fun kv => let '(k, v') := kv in
                                extend_items v' (new_key new_key_ sep k) sep)
              d)
  end.

Definition flatten {A : Type} (d : list (string * nested A))
    (parent_key sep : string) : list (string * A) :=
  dict (flat_map (fun kv => let '(k, v) := kv in
                            extend_items v (new_key parent_key sep k) sep)
          d).

(** The leaves under [v] with their joined keys, in the order of the
    traversal, every one of them kept. *)
Fixpoint leaves {A : Type} (v : nested A) (new_key_ sep : string)
    : list (string * A) :=
  match v with
  | Leaf a => [(new_key_, a)]
  | Mapping d =>
      flat_map (fun kv => let '(k, v') := kv in
                          leaves v' (new_key new_key_ sep k) sep)
        d
  end.

(** A flat dictionary as [flatten] takes it. *)
Definition flat {A : Type} (d : list (string * A)) : list (string * nested A) :=
  map (fun kv => (fst kv, Leaf (snd kv))) d.

End Flatten.

Import Flatten.

(** ** Fixed-length groups *)

Module Grouper.

(** What [zip_longest] holds in a position: [grouper] hands it [n] times
    the one iterator over the iterable, and [zip_longest] puts
    [repeat(fillvalue)] in the place of an iterator it found exhausted. *)
Inductive iterator : Type :=
| Shared
| Fill.

Section ZipLongest.

Context {A : Type}.
Variable fillvalue : A.

(** One round of [zip_longest]: the loop over the iterators.  [rest] is
    what the shared iterator has still to give; [None] is the [return] in
    the middle of a round, which drops the values gathered so far. *)
Fixpoint round (iterators : list iterator) (rest : list A) (num_active : Z)
    : option (list iterator * list A * Z * list A) :=
  match iterators with
  | [] => Some ([], rest, num_active, [])
  | Shared :: iterators' =>
      match rest with
      | value :: rest' =>
          match round iterators' rest' num_active with
          | Some (its, r, na, values) =>
              Some (Shared :: its, r, na, value :: values)
          | None => None
          end
      | [] =>
          let num_active := (num_active - 1)%Z in
          if (num_active =? 0)%Z then None
          else
            match round iterators' [] num_active with
            | Some (its, r, na, values) =>
                Some (Fill :: its, r, na, fillvalue :: values)
            | None => None
            end
      end
  | Fill :: iterators' =>
      match round iterators' rest num_active with
      | Some (its, r, na, values) =>
          Some (Fill :: its, r, na, fillvalue :: values)
      | None => None
      end
  end.

(** The [while True] loop, the tuples it yields in order.  [None]: more
    rounds than [fuel]. *)
Fixpoint rounds (fuel : nat) (iterators : list iterator) (rest : list A)
    (num_active : Z) : option (list (list A)) :=
  match fuel with
  | O => None
  | S fuel' =>
      match round iterators rest num_active with
      | None => Some []
      | Some (its, r, na, values) =>
          match rounds fuel' its r na with
          | Some tuples => Some (values :: tuples)
          | None => None
          end
      end
  end.

(** [zip_longest] over [args] that share the iterator over [iterable]. *)
Definition zip_longest (fuel : nat) (args : list iterator) (iterable : list A)
    : option (list (list A)) :=
  let num_active := Z.of_nat (List.length args) in
  if (num_active =? 0)%Z then Some []
  else rounds fuel args iterable num_active.

End ZipLongest.

(** [[iter(iterable)] * n] has no element when [n] is not positive.  Each
    round but the last two takes an element, so [len(iterable) + 2] rounds
    are enough. *)
Definition grouper {A : Type} (iterable : list A) (n : Z) (fillvalue : A)
    : option (list (list A)) :=
  let args := repeat Shared (Z.to_nat n) in
  zip_longest fillvalue (2 + List.length iterable) args iterable.

(** How many fill values the last group takes. *)
Definition padding (len n : nat) : nat := ((n - len mod n) mod n)%nat.

End Grouper.

Import Grouper.

(** ** The gain functions in float64 arithmetic *)

(** [Gain] takes float64 for the real numbers, which is what a claim that
    equates a gain with a formula needs.  Here the same two functions are
    written over float64 values that can be infinite or nan, with the
    arithmetic of the platform as a parameter. *)
Module Float64.

Local Open Scope R_scope.

(** The float64 operations [dcg_at_k] and [ndcg_at_k] call, as the platform
    carries them out: numpy's addition, division, [log2] of an entry of
    [np.arange] and [sum].  Each may round, and overflow to an infinity. *)
Record arith : Type := {
  f_add : f64 -> f64 -> f64;
  f_divide : f64 -> f64 -> f64;
  f_log2 : Z -> f64;
  f_sum : list f64 -> f64
}.

(** What IEEE 754 fixes of a value divided by itself: 1 for a finite value
    other than zero, nan for an infinity, nan for nan. *)
Definition ieee (F : arith) : Prop :=
  (forall x : R, x <> 0 -> f_divide F (Finite x) (Finite x) = Finite 1)
  /\ (forall s s' : bool, f_divide F (Inf s) (Inf s') = NaN)
  /\ (forall v : f64, f_divide F NaN v = NaN).

Section Gains.

Variable F : arith.

(** The relevances are finite float64 values. *)
Definition asfarray (r : list R) : list f64 := map Finite r.

Fixpoint np_divide (a b : list f64) : list f64 :=
  match a, b with
  | x :: a', y :: b' => f_divide F x y :: np_divide a' b'
  | _, _ => []
  end.

Definition np_log2 (a : list Z) : list f64 := map (f_log2 F) a.

Definition dcg_at_k (r : list R) (k : Z) (method : Z) : result number :=
  let r := slice (asfarray r) None (Some k) in
  if negb (size r =? 0)%Z then
    if (method =? 0)%Z then
      Ok (NpFloat64
            (f_add F (nth 0 r (Finite 0))
               (f_sum F (np_divide (slice r (Some 1%Z) None)
                                   (np_log2 (range 2 (size r + 1)))))))
    else if (method =? 1)%Z then
      Ok (NpFloat64
            (f_sum F (np_divide r (np_log2 (range 2 (size r + 2))))))
    else Raise ValueError
  else Ok (PyFloat 0).

(** [a / b]: numpy's division as soon as one operand is a numpy scalar. *)
Definition truediv (a b : number) : result number :=
  match a, b with
  | NpFloat64 _, _ | _, NpFloat64 _ =>
      Ok (NpFloat64 (f_divide F (as_f64 a) (as_f64 b)))
  | _, _ => Num.truediv a b
  end.

Definition ndcg_at_k (r : list R) (k : Z) (method : Z) : result number :=
  dcg_max <- dcg_at_k (sorted_reverse r) k method ;;
  if negb (truth dcg_max) then Ok (PyFloat 0)
  else
    dcg <- dcg_at_k r k method ;;
    truediv dcg dcg_max.

End Gains.

(** Arithmetic without rounding and without bounds: the real numbers. *)
Definition exact : arith := {|
  f_add := f64_add;
  f_divide := f64_div;
  f_log2 := fun i => Finite (log2 (IZR i));
  f_sum := fun a => fold_right f64_add (Finite 0) a
|}.

(** The largest float64 is [2^1024 - 2^971]; a result of magnitude
    [2^1024 - 2^970] or more is rounded to an infinity. *)
Definition overflow : R := IZR (2 ^ 1024 - 2 ^ 970).

Definition clip (v : f64) : f64 :=
  match v with
  | Finite x => if Rle_dec overflow (Rabs x) then Inf (is_neg x) else Finite x
  | _ => v
  end.

(** Arithmetic that is exact within the range of float64 and overflows
    beyond it; [sum] adds from the left. *)
Definition overflowing : arith := {|
  f_add := fun a b => clip (f64_add a b);
  f_divide := fun a b => clip (f64_div a b);
  f_log2 := fun i => clip (Finite (log2 (IZR i)));
  f_sum := fun a => fold_left (fun acc v => clip (f64_add acc v)) a (Finite 0)
|}.

(** [2^1023], half of the first value out of range. *)
Definition huge : R := IZR (2 ^ 1023).

End Float64.

(** * Properties *)

(** ** Slices and ranges *)

Section Slicing.

Context {A : Type}.

Lemma norm_index_nonneg (n : nat) (i : Z) :
  (0 <= i)%Z -> norm_index n i = Nat.min (Z.to_nat i) n.
Proof.
  intros Hi. unfold norm_index.
  destruct (Z.ltb_spec i 0); [lia|].
  destruct (Z.min_spec i (Z.of_nat n)) as [[? ->]|[? ->]]; lia.
Qed.

Lemma slice_prefix (l : list A) (k : Z) :
  (0 <= k)%Z -> slice l None (Some k) = firstn (Z.to_nat k) l.
Proof.
  intros Hk. unfold slice. rewrite norm_index_nonneg by assumption.
  rewrite Nat.sub_0_r. cbn [skipn].
  destruct (Nat.le_ge_cases (Z.to_nat k) (List.length l)) as [Hle|Hge].
  - now rewrite Nat.min_l.
  - rewrite Nat.min_r by assumption.
    now rewrite !firstn_all2 by lia.
Qed.

Lemma slice_suffix (l : list A) (a : Z) :
  (0 <= a)%Z -> slice l (Some a) None = skipn (Z.to_nat a) l.
Proof.
  intros Ha. unfold slice. rewrite norm_index_nonneg by assumption.
  destruct (Nat.le_ge_cases (Z.to_nat a) (List.length l)) as [Hle|Hge].
  - rewrite Nat.min_l by assumption.
    apply firstn_all2. rewrite length_skipn. lia.
  - rewrite Nat.min_r by assumption.
    rewrite Nat.sub_diag. cbn [firstn].
    symmetry. now apply skipn_all2.
Qed.

Lemma slice_length_le (l : list A) (start stop : option Z) :
  (List.length (slice l start stop) <= List.length l)%nat.
Proof.
  unfold slice. rewrite length_firstn, length_skipn. lia.
Qed.

End Slicing.

Lemma seq_from (a n : nat) : seq a n = map (fun i => (a + i)%nat) (seq 0 n).
Proof.
  revert a. induction n as [|n IH]; intros a; [reflexivity|].
  cbn [seq map]. rewrite Nat.add_0_r. f_equal.
  rewrite <- (seq_shift n 0), map_map, (IH (S a)).
  apply map_ext. intros i. lia.
Qed.

Lemma range_seq (a n : nat) :
  range (Z.of_nat a) (Z.of_nat a + Z.of_nat n) = map Z.of_nat (seq a n).
Proof.
  unfold range.
  replace (Z.to_nat (Z.of_nat a + Z.of_nat n - Z.of_nat a)) with n by lia.
  rewrite (seq_from a n), map_map.
  apply map_ext. intros i. lia.
Qed.

Lemma range_length (a b : Z) : List.length (range a b) = Z.to_nat (b - a).
Proof. unfold range. now rewrite length_map, length_seq. Qed.

Lemma range_In (a b k : Z) : In k (range a b) <-> (a <= k < b)%Z.
Proof.
  unfold range. rewrite in_map_iff. split.
  - intros (i & <- & Hi). apply in_seq in Hi. lia.
  - intros Hk. exists (Z.to_nat (k - a)). split; [lia|].
    apply in_seq. lia.
Qed.

(** ** DCG against its reference definition *)

Section DcgReference.

Local Open Scope R_scope.

Lemma np_sum_divide_positions (l : list R) (a : nat) (g : nat -> R) :
  np_sum (np_divide l (map g (seq a (List.length l)))) =
  fold_right Rplus 0
    (map (fun i => nth (i - a) l 0 / g i) (seq a (List.length l))).
Proof.
  revert a. induction l as [|x l IH]; intros a; [reflexivity|].
  cbn [List.length seq map np_divide np_sum fold_right].
  rewrite Nat.sub_diag. cbn [nth]. f_equal.
  fold (np_sum (np_divide l (map g (seq (S a) (List.length l))))).
  rewrite (IH (S a)). f_equal.
  apply map_ext_in. intros i Hi. apply in_seq in Hi.
  replace (i - a)%nat with (S (i - S a)) by lia. reflexivity.
Qed.

Lemma np_log2_range (a n : nat) :
  np_log2 (range (Z.of_nat a) (Z.of_nat a + Z.of_nat n)) =
  map (fun i => log2 (INR i)) (seq a n).
Proof.
  rewrite range_seq. unfold np_log2. rewrite map_map.
  apply map_ext. intros i. now rewrite INR_IZR_INZ.
Qed.

Lemma dcg_at_k_unfold (r : list R) (k method : Z) :
  dcg_at_k r k method = dcg_of_slice (slice r None (Some k)) method.
Proof.
  unfold dcg_at_k, asfarray, size.
  destruct (slice r None (Some k)) as [|x t'] eqn:Ht; [reflexivity|].
  cbn [dcg_of_slice List.length].
  destruct (Z.eqb_spec (Z.of_nat (S (List.length t'))) 0); [lia|].
  cbn [negb nth].
  rewrite slice_suffix by lia.
  change (skipn (Z.to_nat 1) (x :: t')) with t'.
  replace (Z.of_nat (S (List.length t')) + 1)%Z
    with (Z.of_nat 2 + Z.of_nat (List.length t'))%Z by lia.
  replace (Z.of_nat (S (List.length t')) + 2)%Z
    with (Z.of_nat 2 + Z.of_nat (S (List.length t')))%Z by lia.
  change 2%Z with (Z.of_nat 2).
  rewrite !np_log2_range. reflexivity.
Qed.

End DcgReference.

(** ** The binary logarithm *)

Section Log2.

Local Open Scope R_scope.

Lemma ln2_pos : 0 < ln 2.
Proof. rewrite <- ln_1. apply ln_increasing; lra. Qed.

Lemma log2_pow2 (n : nat) : log2 (2 ^ n) = INR n.
Proof.
  unfold log2. rewrite ln_pow by lra. field. apply Rgt_not_eq, ln2_pos.
Qed.

Lemma log2_2 : log2 2 = 1.
Proof. replace 2 with (2 ^ 1) at 1 by lra. now rewrite log2_pow2. Qed.

Lemma log2_4 : log2 4 = 2.
Proof. replace 4 with (2 ^ 2) by lra. rewrite log2_pow2. simpl. lra. Qed.

Lemma log2_8 : log2 8 = 3.
Proof. replace 8 with (2 ^ 3) by lra. rewrite log2_pow2. simpl. lra. Qed.

Lemma log2_mult (x y : R) : 0 < x -> 0 < y -> log2 (x * y) = log2 x + log2 y.
Proof.
  intros Hx Hy. unfold log2. rewrite ln_mult by assumption.
  field. apply Rgt_not_eq, ln2_pos.
Qed.

Lemma log2_increasing (x y : R) : 0 < x -> x < y -> log2 x < log2 y.
Proof.
  intros Hx Hxy. unfold log2, Rdiv.
  apply Rmult_lt_compat_r; [apply Rinv_0_lt_compat, ln2_pos|].
  now apply ln_increasing.
Qed.

(** From the second position on the discounts divide by at least 1. *)
Lemma log2_ge_1 (x : R) : 2 <= x -> 1 <= log2 x.
Proof.
  intros [Hx | <-]; [|rewrite log2_2; lra].
  rewrite <- log2_2. left. apply log2_increasing; lra.
Qed.

Lemma ln_IZR_pow (x n : Z) :
  (0 < x)%Z -> (0 <= n)%Z -> ln (IZR (x ^ n)) = IZR n * ln (IZR x).
Proof.
  intros Hx Hn.
  rewrite <- (Z2Nat.id n) at 1 by assumption.
  rewrite <- pow_IZR, ln_pow by now apply IZR_lt.
  now rewrite INR_IZR_INZ, Z2Nat.id.
Qed.

(** Rational bounds on [log2 x] from comparisons of integer powers. *)
Lemma log2_above (x p q : Z) :
  (0 < x)%Z -> (0 <= p)%Z -> (0 < q)%Z ->
  (2 ^ p < x ^ q)%Z -> IZR p / IZR q < log2 (IZR x).
Proof.
  intros Hx Hp Hq Hpow.
  assert (Hln : IZR p * ln 2 < IZR q * ln (IZR x)).
  { rewrite <- (ln_IZR_pow 2 p), <- (ln_IZR_pow x q) by lia.
    apply ln_increasing; [|now apply IZR_lt].
    apply IZR_lt. apply Z.pow_pos_nonneg; lia. }
  pose proof ln2_pos as H2. apply IZR_lt in Hq.
  unfold log2.
  apply Rmult_lt_reg_r with (IZR q * ln 2); [nra|].
  replace (IZR p / IZR q * (IZR q * ln 2)) with (IZR p * ln 2) by (field; lra).
  replace (ln (IZR x) / ln 2 * (IZR q * ln 2)) with (IZR q * ln (IZR x))
    by (field; lra).
  exact Hln.
Qed.

Lemma log2_below (x p q : Z) :
  (0 < x)%Z -> (0 <= p)%Z -> (0 < q)%Z ->
  (x ^ q < 2 ^ p)%Z -> log2 (IZR x) < IZR p / IZR q.
Proof.
  intros Hx Hp Hq Hpow.
  assert (Hln : IZR q * ln (IZR x) < IZR p * ln 2).
  { rewrite <- (ln_IZR_pow 2 p), <- (ln_IZR_pow x q) by lia.
    apply ln_increasing; [|now apply IZR_lt].
    apply IZR_lt. apply Z.pow_pos_nonneg; lia. }
  pose proof ln2_pos as H2. apply IZR_lt in Hq.
  unfold log2.
  apply Rmult_lt_reg_r with (IZR q * ln 2); [nra|].
  replace (IZR p / IZR q * (IZR q * ln 2)) with (IZR p * ln 2) by (field; lra).
  replace (ln (IZR x) / ln 2 * (IZR q * ln 2)) with (IZR q * ln (IZR x))
    by (field; lra).
  exact Hln.
Qed.

(** Integer powers compared on machine-word big integers. *)
Lemma Zpow_lt_bigZ (a p b q : Z) :
  BigZ.ltb (BigZ.pow (BigZ.of_Z a) (BigZ.of_Z p))
           (BigZ.pow (BigZ.of_Z b) (BigZ.of_Z q)) = true ->
  (a ^ p < b ^ q)%Z.
Proof.
  rewrite BigZ.spec_ltb, !BigZ.spec_pow, !BigZ.spec_of_Z.
  apply Z.ltb_lt.
Qed.

Lemma log2_3_above : 50508 / 31867 < log2 3.
Proof.
  apply (log2_above 3 50508 31867); [lia | lia | lia |].
  apply Zpow_lt_bigZ. vm_compute. reflexivity.
Qed.

Lemma log2_3_below : log2 3 < 24727 / 15601.
Proof.
  apply (log2_below 3 24727 15601); [lia | lia | lia |].
  apply Zpow_lt_bigZ. vm_compute. reflexivity.
Qed.

Lemma log2_7_above : 248027 / 88349 < log2 7.
Proof.
  apply (log2_above 7 248027 88349); [lia | lia | lia |].
  apply Zpow_lt_bigZ. vm_compute. reflexivity.
Qed.

Lemma log2_7_below : log2 7 < 8321 / 2964.
Proof.
  apply (log2_below 7 8321 2964); [lia | lia | lia |].
  apply Zpow_lt_bigZ. vm_compute. reflexivity.
Qed.

End Log2.

(** ** Values of the docstring examples *)

Section Handout.

Local Open Scope R_scope.

Lemma log2_6 : log2 6 = 1 + log2 3.
Proof.
  replace 6 with (2 * 3) by lra.
  rewrite log2_mult, log2_2 by lra. reflexivity.
Qed.

Lemma log2_9 : log2 9 = 2 * log2 3.
Proof. replace 9 with (3 * 3) by lra. rewrite log2_mult by lra. lra. Qed.

Lemma inv_between (x lo hi : R) :
  0 < lo -> lo < x -> x < hi -> / hi < / x < / lo.
Proof.
  intros Hlo Hl Hh. split; apply Rinv_lt_contravar; try assumption; nra.
Qed.

Lemma inv_log2_3 : 15601 / 24727 < / log2 3 < 31867 / 50508.
Proof.
  pose proof log2_3_above as Ha. pose proof log2_3_below as Hb.
  destruct (inv_between (log2 3) (50508 / 31867) (24727 / 15601)) as [H1 H2];
    [lra | assumption | assumption |].
  replace (15601 / 24727) with (/ (24727 / 15601)) by (field; lra).
  replace (31867 / 50508) with (/ (50508 / 31867)) by (field; lra).
  now split.
Qed.

Lemma inv_log2_7 : 2964 / 8321 < / log2 7 < 88349 / 248027.
Proof.
  pose proof log2_7_above as Ha. pose proof log2_7_below as Hb.
  destruct (inv_between (log2 7) (248027 / 88349) (8321 / 2964)) as [H1 H2];
    [lra | assumption | assumption |].
  replace (2964 / 8321) with (/ (8321 / 2964)) by (field; lra).
  replace (88349 / 248027) with (/ (248027 / 88349)) by (field; lra).
  now split.
Qed.

Lemma inv_log2_6 : 15601 / 40328 < / log2 6 < 31867 / 82375.
Proof.
  rewrite log2_6.
  pose proof log2_3_above as Ha. pose proof log2_3_below as Hb.
  destruct (inv_between (1 + log2 3) (82375 / 31867) (40328 / 15601))
    as [H1 H2]; [lra | lra | lra |].
  replace (15601 / 40328) with (/ (40328 / 15601)) by (field; lra).
  replace (31867 / 82375) with (/ (82375 / 31867)) by (field; lra).
  now split.
Qed.

Lemma inv_log2_9 : / log2 9 = / log2 3 / 2.
Proof.
  rewrite log2_9. field.
  pose proof log2_3_above. lra.
Qed.

End Handout.

(** [INR] of a numeral as the numeral. *)
Ltac numerals :=
  rewrite ?INR_IZR_INZ;
  cbn [Z.of_nat Pos.of_succ_nat Pos.succ].

(** Evaluate [dcg_at_k] on a closed list whose slice is [t]. *)
Ltac dcg_eval r k t :=
  rewrite (dcg_at_k_unfold r k);
  change (slice r None (Some k)) with t;
  cbn [dcg_of_slice Z.eqb Pos.eqb List.length seq map np_divide np_sum
       fold_right value real_of as_f64];
  numerals.

Section DcgClaims.

Local Open Scope R_scope.

Lemma dcg_at_k_empty (r : list R) (k method : Z) :
  slice r None (Some k) = [] -> dcg_at_k r k method = Ok (PyFloat 0).
Proof. intros H. now rewrite dcg_at_k_unfold, H. Qed.

Lemma dcg_of_slice_reference (t : list R) (method : Z) :
  method = 0%Z \/ method = 1%Z ->
  value (dcg_of_slice t method) =
  Some (Reference.dcg t (Z.of_nat (List.length t)) method).
Proof.
  intros Hm. unfold Reference.dcg.
  rewrite Nat2Z.id, firstn_all.
  destruct t as [|x t']; [reflexivity|].
  unfold Reference.sum_positions. cbn [dcg_of_slice List.length].
  destruct Hm as [-> | ->]; cbn [Z.eqb Pos.eqb value real_of as_f64]; f_equal.
  - cbn [Nat.sub nth]. f_equal.
    rewrite (np_sum_divide_positions t' 2), Nat.sub_0_r. f_equal.
    apply map_ext_in. intros i Hi. apply in_seq in Hi.
    replace (i - 1)%nat with (S (i - 2)) by lia. reflexivity.
  - rewrite (np_sum_divide_positions (x :: t') 2).
    cbn [List.length Nat.sub].
    rewrite <- (seq_shift (S (List.length t')) 1), map_map. f_equal.
    apply map_ext_in. intros i Hi. apply in_seq in Hi.
    rewrite Nat.add_1_r.
    replace (S i - 2)%nat with (i - 1)%nat by lia. reflexivity.
Qed.

Lemma reference_dcg_firstn (r : list R) (k method : Z) :
  (0 <= k)%Z ->
  Reference.dcg (firstn (Z.to_nat k) r)
    (Z.of_nat (List.length (firstn (Z.to_nat k) r))) method =
  Reference.dcg r k method.
Proof.
  intros Hk. unfold Reference.dcg.
  now rewrite Nat2Z.id, firstn_all.
Qed.

(** C1. [dcg_at_k r k method], for a cutoff [k >= 0] and [method] 0 or 1, is
    the reference DCG of the first [k] entries of [r] (all of [r] when it is
    shorter): exactly 0.0 when there are none, [t[0]] plus the sum of
    [t[i-1] / log2 i] over [i = 2..|t|] for method 0, the sum of
    [t[i-1] / log2 (i+1)] over [i = 1..|t|] for method 1.  On the handout
    list the values at [k = 1] and [k = 2] are 3 and 5, the value at
    [k = 10] is 9.60511773 up to 1e-8, and [k = 11] gives what [k = 10]
    gives. *)
Theorem dcg_at_k_meets_reference :
  (forall (r : list R) (k method : Z),
      (0 <= k)%Z -> method = 0%Z \/ method = 1%Z ->
      value (dcg_at_k r k method) = Some (Reference.dcg r k method)
      /\ (firstn (Z.to_nat k) r = [] ->
          dcg_at_k r k method = Ok (PyFloat 0)))
  /\ value (dcg_at_k handout_r 1 0) = Some 3
  /\ value (dcg_at_k handout_r 2 0) = Some 5
  /\ (exists x : R,
         value (dcg_at_k handout_r 10 0) = Some x
         /\ Rabs (x - 960511773 / 100000000) < / 100000000)
  /\ dcg_at_k handout_r 11 0 = dcg_at_k handout_r 10 0.
Proof.
  split; [|split; [|split; [|split]]].
  - intros r k method Hk Hm. split.
    + rewrite dcg_at_k_unfold, slice_prefix by assumption.
      rewrite dcg_of_slice_reference by assumption.
      now rewrite reference_dcg_firstn.
    + intros Hnil. apply dcg_at_k_empty.
      now rewrite slice_prefix.
  - dcg_eval handout_r 1%Z [3]. f_equal. lra.
  - dcg_eval handout_r 2%Z [3; 2]. rewrite log2_2. f_equal. lra.
  - dcg_eval handout_r 10%Z handout_r. unfold handout_r.
    cbn [dcg_of_slice Z.eqb List.length seq map np_divide np_sum fold_right
         value real_of as_f64].
    numerals.
    eexists. split; [reflexivity|].
    rewrite log2_2, log2_8. unfold Rdiv at 1 2 3 4 5 6 7 8 9 10.
    rewrite inv_log2_9.
    pose proof inv_log2_3. pose proof inv_log2_6. pose proof inv_log2_7.
    apply Rabs_def1; lra.
  - rewrite (dcg_at_k_unfold handout_r 11), (dcg_at_k_unfold handout_r 10).
    reflexivity.
Qed.

(** The reference at a concrete input: the first two of three entries. *)
Lemma dcg_at_k_meets_reference_witness :
  value (dcg_at_k [2; 1; 2] 2 1) = Some (Reference.dcg [2; 1; 2] 2 1).
Proof.
  apply (proj1 dcg_at_k_meets_reference [2; 1; 2] 2%Z 1%Z); [lia | now right].
Defined.

(** Outside C1: a negative [k] is no cutoff.  Python counts it from the
    end, so [r[:-1]] is [r] without its last entry. *)
Lemma dcg_at_k_negative_cutoff : value (dcg_at_k [3; 2] (-1) 0) = Some 3.
Proof. dcg_eval [3; 2] (-1)%Z [3]. f_equal. lra. Qed.

End DcgClaims.

(** ** The descending sort *)

Section SortedReverse.

Local Open Scope R_scope.

Lemma insert_desc_perm (x : R) (l : list R) :
  Permutation (x :: l) (insert_desc x l).
Proof.
  induction l as [|y l IH]; [reflexivity|].
  cbn [insert_desc]. destruct (Rlt_dec x y); [|reflexivity].
  rewrite perm_swap. now apply perm_skip.
Qed.

Lemma sorted_reverse_perm (r : list R) : Permutation r (sorted_reverse r).
Proof.
  induction r as [|x r IH]; [reflexivity|].
  cbn [sorted_reverse fold_right]. fold (sorted_reverse r).
  rewrite <- insert_desc_perm. now apply perm_skip.
Qed.

Lemma insert_desc_sorted (x : R) (l : list R) :
  Sorted Rge l -> Sorted Rge (insert_desc x l).
Proof.
  induction 1 as [|y l Hs IH Hhd]; cbn [insert_desc].
  - repeat constructor.
  - destruct (Rlt_dec x y) as [Hlt|Hge].
    + constructor; [assumption|].
      destruct l as [|z l]; cbn [insert_desc] in *.
      * constructor. lra.
      * destruct (Rlt_dec x z); constructor; [|lra].
        now inversion Hhd.
    + constructor; [now constructor|]. constructor. lra.
Qed.

Lemma sorted_reverse_sorted (r : list R) : Sorted Rge (sorted_reverse r).
Proof.
  induction r as [|x r IH]; [constructor|].
  cbn [sorted_reverse fold_right]. now apply insert_desc_sorted.
Qed.

Lemma Rge_transitive : Relations_1.Transitive Rge.
Proof. intros x y z. apply Rge_trans. Qed.

(** A list has one descending arrangement. *)
Lemma descending_unique (s1 s2 : list R) :
  Permutation s1 s2 -> Sorted Rge s1 -> Sorted Rge s2 -> s1 = s2.
Proof.
  revert s2. induction s1 as [|x s1 IH]; intros s2 Hp H1 H2.
  - now apply Permutation_nil in Hp.
  - destruct s2 as [|y s2].
    { symmetry in Hp. now apply Permutation_nil in Hp. }
    apply Sorted_StronglySorted in H1, H2; try apply Rge_transitive.
    inversion H1 as [|? ? Hs1 Hx]; inversion H2 as [|? ? Hs2 Hy]; subst.
    assert (Hxy : x = y).
    { assert (Hin1 : In x (y :: s2)).
      { apply (Permutation_in _ Hp). now left. }
      assert (Hin2 : In y (x :: s1)).
      { apply (Permutation_in _ (Permutation_sym Hp)). now left. }
      rewrite Forall_forall in Hx, Hy.
      destruct Hin1 as [->|Hin1]; [reflexivity|].
      destruct Hin2 as [->|Hin2]; [reflexivity|].
      specialize (Hx _ Hin2). specialize (Hy _ Hin1). lra. }
    subst y. f_equal. apply IH.
    + now apply Permutation_cons_inv in Hp.
    + now apply StronglySorted_Sorted.
    + now apply StronglySorted_Sorted.
Qed.

Lemma sorted_reverse_reference (r s : list R) :
  Reference.sorted_descending r s -> sorted_reverse r = s.
Proof.
  intros [Hp Hs]. apply descending_unique.
  - now rewrite <- sorted_reverse_perm.
  - apply sorted_reverse_sorted.
  - assumption.
Qed.

Lemma sorted_reverse_fixed (r : list R) : Sorted Rge r -> sorted_reverse r = r.
Proof. intros Hs. apply sorted_reverse_reference. now split. Qed.

End SortedReverse.

Ltac sort_eval :=
  unfold sorted_reverse; cbn [fold_right insert_desc];
  repeat (match goal with
          | |- context [Rlt_dec ?a ?b] =>
              destruct (Rlt_dec a b); [try (exfalso; lra) | try (exfalso; lra)]
          end; cbn [insert_desc]).


(** ** NDCG *)

Section NdcgClaims.

Local Open Scope R_scope.

Lemma dcg_of_slice_cases (t : list R) (method : Z) :
  method = 0%Z \/ method = 1%Z ->
  (t = [] /\ dcg_of_slice t method = Ok (PyFloat 0))
  \/ (t <> [] /\ exists x, dcg_of_slice t method = Ok (NpFloat64 (Finite x))).
Proof.
  intros Hm. destruct t as [|x t']; [now left|]. right.
  split; [discriminate|].
  destruct Hm as [-> | ->]; cbn; eexists; reflexivity.
Qed.

Lemma dcg_at_k_value (r : list R) (k method : Z) :
  method = 0%Z \/ method = 1%Z ->
  exists a x, dcg_at_k r k method = Ok a /\ as_f64 a = Finite x.
Proof.
  intros Hm. rewrite dcg_at_k_unfold.
  destruct (dcg_of_slice_cases (slice r None (Some k)) method Hm)
    as [[_ ->] | [_ [x ->]]]; eexists _, _; split; reflexivity.
Qed.

Lemma is_zero_true (x : R) : is_zero x = true <-> x = 0.
Proof. unfold is_zero. destruct (Req_dec_T x 0); split; congruence. Qed.

Lemma is_zero_false (x : R) : is_zero x = false <-> x <> 0.
Proof. unfold is_zero. destruct (Req_dec_T x 0); split; congruence. Qed.

(** [ndcg_at_k] in terms of the two DCG values. *)
Lemma ndcg_at_k_cases (r : list R) (k method : Z) (a amax : number) (d dmax : R) :
  dcg_at_k r k method = Ok a -> as_f64 a = Finite d ->
  dcg_at_k (sorted_reverse r) k method = Ok amax -> as_f64 amax = Finite dmax ->
  (dmax = 0 -> ndcg_at_k r k method = Ok (PyFloat 0))
  /\ (dmax <> 0 -> value (ndcg_at_k r k method) = Some (d / dmax)).
Proof.
  intros Ha Hd Hamax Hdmax. unfold ndcg_at_k.
  rewrite Hamax. cbn [bind]. unfold truth. rewrite Hdmax.
  split; intros Hz.
  - apply is_zero_true in Hz. now rewrite Hz.
  - apply is_zero_false in Hz. rewrite Hz. cbn [negb].
    rewrite Ha. cbn [bind]. unfold truediv.
    destruct a as [z|x|v], amax as [z'|x'|v']; cbn in Hd, Hdmax |- *;
      try (injection Hd as ->); try (injection Hdmax as ->);
      try subst v; try subst v';
      cbn [f64_div py_real as_f64 value real_of];
      rewrite ?Hz; reflexivity.
Qed.

Lemma np_sum_divide_zeros (t l : list R) :
  Forall (fun x => x = 0) t -> np_sum (np_divide t l) = 0.
Proof.
  intros Hz. revert l.
  induction Hz as [|x t Hx _ IH]; intros [|y l]; try reflexivity.
  cbn [np_divide np_sum fold_right]. fold (np_sum (np_divide t l)).
  rewrite IH, Hx. unfold Rdiv. lra.
Qed.

Lemma dcg_of_slice_zeros (t : list R) (method : Z) :
  method = 0%Z \/ method = 1%Z ->
  Forall (fun x => x = 0) t ->
  exists a, dcg_of_slice t method = Ok a /\ as_f64 a = Finite 0.
Proof.
  intros Hm Hz. destruct t as [|x t']; [now eexists|].
  destruct Hm as [-> | ->]; cbn [dcg_of_slice Z.eqb Pos.eqb];
    eexists; (split; [reflexivity|]); cbn [as_f64]; f_equal.
  - inversion Hz as [|? ? Hx Ht]; subst.
    rewrite np_sum_divide_zeros by assumption. lra.
  - now apply np_sum_divide_zeros.
Qed.

End NdcgClaims.

Section NdcgTheorems.

Local Open Scope R_scope.

Lemma sorted_handout :
  sorted_reverse handout_r = [3; 3; 3; 2; 2; 2; 1; 0; 0; 0].
Proof. unfold handout_r. sort_eval. reflexivity. Qed.

Lemma sorted_2120 : sorted_reverse [2; 1; 2; 0] = [2; 2; 1; 0].
Proof. sort_eval. reflexivity. Qed.

Lemma quotient_near (d dmax c e : R) :
  0 < dmax -> (c - e) * dmax < d -> d < (c + e) * dmax ->
  Rabs (d / dmax - c) < e.
Proof.
  intros Hpos Hlo Hhi.
  apply Rabs_def1; apply Rmult_lt_reg_r with dmax; try assumption.
  - replace ((d / dmax - c) * dmax) with (d - c * dmax) by (field; lra). lra.
  - replace ((d / dmax - c) * dmax) with (d - c * dmax) by (field; lra). lra.
Qed.

Lemma ndcg_general (r s : list R) (k method : Z) :
  method = 0%Z \/ method = 1%Z ->
  Reference.sorted_descending r s ->
  exists d dmax : R,
    value (dcg_at_k r k method) = Some d
    /\ value (dcg_at_k s k method) = Some dmax
    /\ (dmax <> 0 -> value (ndcg_at_k r k method) = Some (d / dmax))
    /\ (dmax = 0 -> ndcg_at_k r k method = Ok (PyFloat 0)).
Proof.
  intros Hm Hs. apply sorted_reverse_reference in Hs. subst s.
  destruct (dcg_at_k_value r k method Hm) as (a & d & Ha & Hd).
  destruct (dcg_at_k_value (sorted_reverse r) k method Hm)
    as (amax & dmax & Hamax & Hdmax).
  exists d, dmax.
  destruct (ndcg_at_k_cases r k method a amax d dmax Ha Hd Hamax Hdmax)
    as [Hzero Hdiv].
  rewrite Ha, Hamax. unfold value, real_of. rewrite Hd, Hdmax.
  repeat split; assumption.
Qed.

Lemma ndcg_zero_gain (r s : list R) (k method : Z) :
  method = 0%Z \/ method = 1%Z ->
  Reference.sorted_descending r s ->
  Forall (fun x => x = 0) (slice s None (Some k)) ->
  ndcg_at_k r k method = Ok (PyFloat 0).
Proof.
  intros Hm Hs Hz. apply sorted_reverse_reference in Hs. subst s.
  destruct (dcg_at_k_value r k method Hm) as (a & d & Ha & Hd).
  destruct (dcg_of_slice_zeros _ method Hm Hz) as (amax & Hamax & Hdmax).
  rewrite <- dcg_at_k_unfold in Hamax.
  now apply (ndcg_at_k_cases r k method a amax d 0 Ha Hd Hamax Hdmax).
Qed.

(** Evaluate [ndcg_at_k] through the two DCG values. *)
Lemma ndcg_from_values (r : list R) (k method : Z) (d dmax : R) :
  method = 0%Z \/ method = 1%Z ->
  value (dcg_at_k r k method) = Some d ->
  value (dcg_at_k (sorted_reverse r) k method) = Some dmax ->
  dmax <> 0 ->
  value (ndcg_at_k r k method) = Some (d / dmax).
Proof.
  intros Hm Hd Hdmax Hnz.
  destruct (ndcg_general r (sorted_reverse r) k method Hm)
    as (d' & dmax' & Hd' & Hdmax' & Hdiv & _).
  { split; [apply sorted_reverse_perm | apply sorted_reverse_sorted]. }
  rewrite Hd in Hd'. rewrite Hdmax in Hdmax'.
  injection Hd' as <-. injection Hdmax' as <-. now apply Hdiv.
Qed.

(** C2. For [method] 0 or 1, [ndcg_at_k r k method] is
    [dcg_at_k r k method] divided by the DCG of [r] sorted into descending
    order; when that ideal DCG is exactly zero the result is exactly 0.0 and
    nothing is divided, which is the case whenever the truncated sorted
    sequence holds only zeros or is empty.  The docstring values: 1 for the
    handout list at [k = 1], 0.9203032 and 0.9651955 (up to 1e-7) for
    [[2, 1, 2, 0]] at [k = 4] with methods 0 and 1, 0.0 for [[0]] at
    [k = 1], and 1 for [[1]] at [k = 2]. *)
Theorem ndcg_at_k_normalises_dcg :
  (forall (r s : list R) (k method : Z),
      method = 0%Z \/ method = 1%Z ->
      Reference.sorted_descending r s ->
      exists d dmax : R,
        value (dcg_at_k r k method) = Some d
        /\ value (dcg_at_k s k method) = Some dmax
        /\ (dmax <> 0 -> value (ndcg_at_k r k method) = Some (d / dmax))
        /\ (dmax = 0 -> ndcg_at_k r k method = Ok (PyFloat 0)))
  /\ (forall (r s : list R) (k method : Z),
         method = 0%Z \/ method = 1%Z ->
         Reference.sorted_descending r s ->
         Forall (fun x => x = 0) (slice s None (Some k)) ->
         ndcg_at_k r k method = Ok (PyFloat 0))
  /\ value (ndcg_at_k handout_r 1 0) = Some 1
  /\ (exists x : R,
         value (ndcg_at_k [2; 1; 2; 0] 4 0) = Some x
         /\ Rabs (x - 9203032 / 10000000) < / 10000000)
  /\ (exists x : R,
         value (ndcg_at_k [2; 1; 2; 0] 4 1) = Some x
         /\ Rabs (x - 9651955 / 10000000) < / 10000000)
  /\ ndcg_at_k [0] 1 0 = Ok (PyFloat 0)
  /\ value (ndcg_at_k [1] 2 0) = Some 1.
Proof.
  split; [exact ndcg_general|].
  split; [exact ndcg_zero_gain|].
  pose proof inv_log2_3 as H3.
  repeat split.
  - rewrite (ndcg_from_values handout_r 1 0 3 3); [f_equal; field | now left | | | lra].
    + dcg_eval handout_r 1%Z [3]. f_equal. lra.
    + rewrite sorted_handout.
      dcg_eval [3; 3; 3; 2; 2; 2; 1; 0; 0; 0] 1%Z [3]. f_equal. lra.
  - eexists. split.
    + apply (ndcg_from_values [2; 1; 2; 0] 4 0 (3 + 2 * / log2 3) (4 + / log2 3));
        [now left | | | lra].
      * dcg_eval [2; 1; 2; 0] 4%Z [2; 1; 2; 0]. rewrite log2_2. f_equal. lra.
      * rewrite sorted_2120.
        dcg_eval [2; 2; 1; 0] 4%Z [2; 2; 1; 0]. rewrite log2_2. f_equal. lra.
    + apply quotient_near; lra.
  - eexists. split.
    + apply (ndcg_from_values [2; 1; 2; 0] 4 1 (3 + / log2 3) (5 / 2 + 2 * / log2 3));
        [now right | | | lra].
      * dcg_eval [2; 1; 2; 0] 4%Z [2; 1; 2; 0]. rewrite log2_2, log2_4. f_equal. lra.
      * rewrite sorted_2120.
        dcg_eval [2; 2; 1; 0] 4%Z [2; 2; 1; 0]. rewrite log2_2, log2_4. f_equal. lra.
    + apply quotient_near; lra.
  - apply (ndcg_zero_gain [0] [0] 1 0); [now left | | ].
    + split; [reflexivity | repeat constructor].
    + repeat constructor.
  - rewrite (ndcg_from_values [1] 2 0 1 1); [f_equal; field | now left | | | lra].
    + dcg_eval [1] 2%Z [1]. f_equal. lra.
    + change (sorted_reverse [1]) with [1].
      dcg_eval [1] 2%Z [1]. f_equal. lra.
Qed.

(** The quotient at a concrete input: [[1, 2]] at [k = 2], method 0. *)
Lemma ndcg_at_k_normalises_dcg_witness :
  exists d dmax : R,
    value (dcg_at_k [1; 2] 2 0) = Some d
    /\ value (dcg_at_k [2; 1] 2 0) = Some dmax
    /\ (dmax <> 0 -> value (ndcg_at_k [1; 2] 2 0) = Some (d / dmax))
    /\ (dmax = 0 -> ndcg_at_k [1; 2] 2 0 = Ok (PyFloat 0)).
Proof.
  apply (proj1 ndcg_at_k_normalises_dcg [1; 2] [2; 1] 2%Z 0%Z).
  - now left.
  - split.
    + apply perm_swap.
    + repeat constructor; lra.
Defined.

(** C5, as the code has it.  A [method] other than 0 and 1 raises
    [ValueError] exactly when the truncated sequence [r[:k]] is not empty;
    on an empty one [dcg_at_k] returns 0.0 whatever [method] is. *)
Theorem dcg_at_k_other_method (r : list R) (k method : Z) :
  method <> 0%Z -> method <> 1%Z ->
  (slice r None (Some k) <> [] -> dcg_at_k r k method = Raise ValueError)
  /\ (slice r None (Some k) = [] -> dcg_at_k r k method = Ok (PyFloat 0)).
Proof.
  intros H0 H1. rewrite dcg_at_k_unfold.
  destruct (slice r None (Some k)) as [|x t]; split.
  - intros Hne. now contradiction Hne.
  - reflexivity.
  - intros _. cbn [dcg_of_slice].
    destruct (Z.eqb_spec method 0); [contradiction|].
    destruct (Z.eqb_spec method 1); [contradiction|].
    reflexivity.
  - discriminate.
Qed.

Lemma dcg_at_k_other_method_witness :
  (slice [3; 2] None (Some 1%Z) <> [] -> dcg_at_k [3; 2] 1 2 = Raise ValueError)
  /\ (slice [3; 2] None (Some 1%Z) = [] -> dcg_at_k [3; 2] 1 2 = Ok (PyFloat 0)).
Proof.
  apply (dcg_at_k_other_method [3; 2] 1%Z 2%Z); discriminate.
Defined.

(** C5 as stated fails: with nothing to sum, an unsupported [method] is
    not looked at and 0.0 comes back. *)
Lemma dcg_at_k_other_method_not_always_raised :
  ~ (forall (r : list R) (k method : Z),
        method <> 0%Z -> method <> 1%Z ->
        dcg_at_k r k method = Raise ValueError).
Proof.
  intros H. specialize (H [] 5%Z 2%Z).
  discriminate H; discriminate.
Qed.

End NdcgTheorems.

(** ** NDCG of a sequence in descending order, in float64 arithmetic *)

Section Float64Gains.

Local Open Scope R_scope.

Lemma overflow_above_one : 1 < Float64.overflow.
Proof. unfold Float64.overflow. apply IZR_lt. reflexivity. Qed.

Lemma huge_bounds :
  0 < Float64.huge < Float64.overflow
  /\ Float64.overflow <= Float64.huge + Float64.huge.
Proof.
  unfold Float64.huge, Float64.overflow. repeat split.
  - apply IZR_lt. reflexivity.
  - apply IZR_lt. reflexivity.
  - rewrite <- plus_IZR. apply IZR_le. discriminate.
Qed.

Lemma clip_within (x : R) :
  Rabs x < Float64.overflow -> Float64.clip (Finite x) = Finite x.
Proof.
  intros Hx. cbn [Float64.clip].
  destruct (Rle_dec Float64.overflow (Rabs x)); [lra | reflexivity].
Qed.

Lemma clip_beyond (x : R) :
  Float64.overflow <= x -> Float64.clip (Finite x) = Inf false.
Proof.
  intros Hx. pose proof overflow_above_one as H1. cbn [Float64.clip].
  assert (Habs : Rabs x = x) by (apply Rabs_right; lra).
  destruct (Rle_dec Float64.overflow (Rabs x)) as [_ | Hn]; [|lra].
  unfold is_neg. destruct (Rlt_dec x 0); [lra | reflexivity].
Qed.

Lemma overflowing_ieee : Float64.ieee Float64.overflowing.
Proof.
  split; [|split].
  - intros x Hx. cbn [Float64.f_divide Float64.overflowing f64_div].
    rewrite (proj2 (is_zero_false x) Hx).
    replace (x / x) with 1 by now field.
    apply clip_within. rewrite Rabs_R1. apply overflow_above_one.
  - reflexivity.
  - reflexivity.
Qed.

Lemma exact_ieee : Float64.ieee Float64.exact.
Proof.
  split; [|split].
  - intros x Hx. cbn [Float64.f_divide Float64.exact f64_div].
    rewrite (proj2 (is_zero_false x) Hx). f_equal. now field.
  - reflexivity.
  - reflexivity.
Qed.

(** The DCG is the Python 0.0 of the empty case or a numpy scalar. *)
Lemma float64_dcg_at_k_cases (F : Float64.arith) (r : list R) (k method : Z)
    (d : number) :
  Float64.dcg_at_k F r k method = Ok d ->
  d = PyFloat 0 \/ exists v : f64, d = NpFloat64 v.
Proof.
  unfold Float64.dcg_at_k. cbv zeta.
  destruct (negb _); [|intros [= <-]; now left].
  destruct (method =? 0)%Z; [intros [= <-]; right; eauto|].
  destruct (method =? 1)%Z; [intros [= <-]; right; eauto | discriminate].
Qed.

Lemma float64_ndcg_at_k_same (F : Float64.arith) (r : list R) (k method : Z)
    (d : number) :
  sorted_reverse r = r ->
  Float64.dcg_at_k F r k method = Ok d ->
  Float64.ndcg_at_k F r k method =
  if negb (truth d) then Ok (PyFloat 0) else Float64.truediv F d d.
Proof.
  intros Hr Hd. unfold Float64.ndcg_at_k. rewrite Hr, Hd. cbn [bind].
  now destruct (negb (truth d)).
Qed.

Lemma float64_dcg_at_k_pair (F : Float64.arith) (a b : R) :
  Float64.dcg_at_k F [a; b] 2 0 =
  Ok (NpFloat64
        (Float64.f_add F (Finite a)
           (Float64.f_sum F
              [Float64.f_divide F (Finite b) (Float64.f_log2 F 2)]))).
Proof. reflexivity. Qed.

(** Two entries at [k = 2], method 0, in arithmetic that overflows: the
    second entry is divided by [log2 2 = 1]. *)
Lemma overflowing_dcg_pair (a b : R) :
  0 <= b < Float64.overflow ->
  Float64.dcg_at_k Float64.overflowing [a; b] 2 0 =
  Ok (NpFloat64 (Float64.clip (Finite (a + b)))).
Proof.
  intros Hb. pose proof overflow_above_one as H1.
  rewrite float64_dcg_at_k_pair.
  cbn [Float64.f_add Float64.f_sum Float64.f_divide Float64.f_log2
         Float64.overflowing fold_left].
  rewrite log2_2.
  rewrite (clip_within 1) by (rewrite Rabs_R1; lra).
  cbn [f64_div]. rewrite (proj2 (is_zero_false 1)) by lra.
  replace (b / 1) with b by field.
  rewrite (clip_within b) by (rewrite Rabs_right; lra).
  cbn [f64_add]. replace (0 + b) with b by lra.
  rewrite (clip_within b) by (rewrite Rabs_right; lra).
  reflexivity.
Qed.

Lemma slice_map {A B : Type} (f : A -> B) (l : list A) (start stop : option Z) :
  slice (map f l) start stop = map f (slice l start stop).
Proof. unfold slice. now rewrite length_map, skipn_map, firstn_map. Qed.

Lemma exact_np_divide (xs : list R) (zs : list Z) :
  Forall (fun i => (2 <= i)%Z) zs ->
  Float64.np_divide Float64.exact (map Finite xs)
    (Float64.np_log2 Float64.exact zs) =
  map Finite (np_divide xs (np_log2 zs)).
Proof.
  intros Hzs. revert xs. induction Hzs as [|i zs Hi _ IH]; intros [|x xs];
    try reflexivity.
  cbn [map Float64.np_log2 np_log2 Float64.np_divide np_divide].
  fold (Float64.np_log2 Float64.exact zs). fold (np_log2 zs). rewrite IH.
  cbn [Float64.f_divide Float64.f_log2 Float64.exact f64_div].
  assert (Hlog : 1 <= log2 (IZR i)) by (apply log2_ge_1, IZR_le; lia).
  rewrite (proj2 (is_zero_false (log2 (IZR i)))) by lra.
  reflexivity.
Qed.

Lemma exact_sum (xs : list R) :
  Float64.f_sum Float64.exact (map Finite xs) = Finite (np_sum xs).
Proof.
  cbn [Float64.f_sum Float64.exact].
  induction xs as [|x xs IH]; [reflexivity|].
  cbn [map fold_right np_sum]. fold (np_sum xs). now rewrite IH.
Qed.

Lemma range_from (a b : Z) : Forall (fun i => (a <= i)%Z) (range a b).
Proof. apply Forall_forall. intros i Hi. apply range_In in Hi. lia. Qed.

(** The gain functions over the real numbers are these ones at the
    arithmetic without rounding and bounds. *)
Lemma float64_dcg_at_k_exact (r : list R) (k method : Z) :
  Float64.dcg_at_k Float64.exact r k method = dcg_at_k r k method.
Proof.
  unfold Float64.dcg_at_k, dcg_at_k, Float64.asfarray, asfarray. cbv zeta.
  rewrite !slice_map. unfold size. rewrite !length_map.
  destruct (negb _); [|reflexivity].
  destruct (method =? 0)%Z.
  - rewrite ?slice_map, exact_np_divide by apply range_from.
    rewrite exact_sum.
    change (Finite 0) with (Finite (IZR 0)).
    rewrite (map_nth Finite). reflexivity.
  - destruct (method =? 1)%Z; [|reflexivity].
    rewrite exact_np_divide by apply range_from.
    now rewrite exact_sum.
Qed.

Lemma float64_ndcg_at_k_exact (r : list R) (k method : Z) :
  Float64.ndcg_at_k Float64.exact r k method = ndcg_at_k r k method.
Proof.
  unfold Float64.ndcg_at_k, ndcg_at_k. rewrite !float64_dcg_at_k_exact.
  destruct (dcg_at_k (sorted_reverse r) k method) as [dmax|e]; cbn [bind];
    [|reflexivity].
  destruct (negb (truth dmax)); [reflexivity|].
  destruct (dcg_at_k r k method) as [d|e]; cbn [bind]; [|reflexivity].
  now destruct d, dmax.
Qed.

End Float64Gains.

(** C10, as the code has it.  When [r] is already in descending order,
    [ndcg_at_k r k method] divides the DCG of [r] by itself, in float64:
    the result is exactly 1 when that DCG is finite and not zero, nan
    when it has overflowed to an infinity (or is nan), and the Python 0.0
    when it is zero; whatever the rounding of the platform's float64
    operations. *)
Theorem ndcg_at_k_of_descending (F : Float64.arith) (r s : list R)
    (k method : Z) (dmax : number) :
  Float64.ieee F ->
  method = 0%Z \/ method = 1%Z ->
  Sorted Rge r ->
  Reference.sorted_descending r s ->
  Float64.dcg_at_k F s k method = Ok dmax ->
  s = r
  /\ (forall x : R, as_f64 dmax = Finite x -> x <> 0%R ->
      Float64.ndcg_at_k F r k method = Ok (NpFloat64 (Finite 1)))
  /\ ((exists sign : bool, as_f64 dmax = Inf sign) \/ as_f64 dmax = NaN ->
      Float64.ndcg_at_k F r k method = Ok (NpFloat64 NaN))
  /\ (as_f64 dmax = Finite 0 ->
      Float64.ndcg_at_k F r k method = Ok (PyFloat 0)).
Proof.
  intros (Hsame & Hinf & Hnan) Hm Hr Hs Hmax.
  assert (Hfix : sorted_reverse r = r) by now apply sorted_reverse_fixed.
  assert (Hsr : s = r) by now rewrite <- (sorted_reverse_reference r s Hs).
  split; [assumption|]. subst s.
  rewrite (float64_ndcg_at_k_same F r k method dmax Hfix Hmax).
  destruct (float64_dcg_at_k_cases F r k method dmax Hmax) as [-> | [v ->]];
    cbn [as_f64].
  - unfold truth. cbn [as_f64].
    rewrite (proj2 (is_zero_true 0) eq_refl). cbn [negb].
    repeat split.
    + intros x [= <-] Hx. now contradiction Hx.
    + intros [[sign Hv] | Hv]; discriminate.
  - split; [|split].
    + intros x -> Hx. unfold truth. cbn [as_f64].
      rewrite (proj2 (is_zero_false x) Hx). cbn [negb].
      cbn [Float64.truediv as_f64]. now rewrite Hsame.
    + intros [[sign ->] | ->]; unfold truth;
        cbn [as_f64 negb Float64.truediv].
      * now rewrite Hinf.
      * now rewrite Hnan.
    + intros ->. unfold truth. cbn [as_f64].
      now rewrite (proj2 (is_zero_true 0) eq_refl).
Qed.

(** [[2, 1]] at [k = 2], method 0, in arithmetic that overflows: the DCG
    is 3. *)
Lemma ndcg_at_k_of_descending_witness :
  [2; 1]%R = [2; 1]%R
  /\ (forall x : R, as_f64 (NpFloat64 (Finite 3)) = Finite x -> x <> 0%R ->
      Float64.ndcg_at_k Float64.overflowing [2; 1]%R 2 0 =
      Ok (NpFloat64 (Finite 1)))
  /\ ((exists sign : bool, as_f64 (NpFloat64 (Finite 3)) = Inf sign)
      \/ as_f64 (NpFloat64 (Finite 3)) = NaN ->
      Float64.ndcg_at_k Float64.overflowing [2; 1]%R 2 0 =
      Ok (NpFloat64 NaN))
  /\ (as_f64 (NpFloat64 (Finite 3)) = Finite 0 ->
      Float64.ndcg_at_k Float64.overflowing [2; 1]%R 2 0 = Ok (PyFloat 0)).
Proof.
  apply (ndcg_at_k_of_descending Float64.overflowing [2; 1]%R [2; 1]%R 2%Z 0%Z
           (NpFloat64 (Finite 3))).
  - exact overflowing_ieee.
  - now left.
  - repeat constructor; lra.
  - split; [reflexivity | repeat constructor; lra].
  - rewrite overflowing_dcg_pair by (pose proof overflow_above_one; lra).
    replace (2 + 1)%R with 3%R by lra.
    rewrite clip_within; [reflexivity|].
    rewrite Rabs_right by lra. unfold Float64.overflow. apply IZR_lt.
    reflexivity.
Defined.

(** C10 as stated fails: [[2^1023, 2^1023]] is in descending order and its
    DCG at [k = 2], method 0, is [2^1023 + 2^1023 / log2 2], which
    overflows to infinity (no operation on the way rounds); infinity is not
    zero, and the quotient of infinity by itself is nan, not 1. *)
Lemma ndcg_at_k_of_descending_overflow :
  Sorted Rge [Float64.huge; Float64.huge]
  /\ Float64.dcg_at_k Float64.overflowing
       (sorted_reverse [Float64.huge; Float64.huge]) 2 0 =
     Ok (NpFloat64 (Inf false))
  /\ truth (NpFloat64 (Inf false)) = true
  /\ Float64.ndcg_at_k Float64.overflowing [Float64.huge; Float64.huge] 2 0 =
     Ok (NpFloat64 NaN).
Proof.
  destruct huge_bounds as [[Hpos Hlt] Hsum].
  assert (Hsorted : Sorted Rge [Float64.huge; Float64.huge])
    by (repeat constructor; lra).
  assert (Hdcg : Float64.dcg_at_k Float64.overflowing
                   [Float64.huge; Float64.huge] 2 0 =
                 Ok (NpFloat64 (Inf false))).
  { rewrite overflowing_dcg_pair by lra. now rewrite clip_beyond. }
  split; [assumption|].
  rewrite (sorted_reverse_fixed _ Hsorted).
  split; [assumption|]. split; [reflexivity|].
  rewrite (float64_ndcg_at_k_same _ _ _ _ _
             (sorted_reverse_fixed _ Hsorted) Hdcg).
  reflexivity.
Qed.

(** ** Averages over a range of cutoffs *)

Section RangeNdcg.

Local Open Scope R_scope.

Lemma add_finite (s cur : number) (x y : R) :
  as_f64 s = Finite x -> as_f64 cur = Finite y ->
  as_f64 (add s cur) = Finite (x + y)
  /\ is_numpy (add s cur) = is_numpy s || is_numpy cur.
Proof.
  intros Hs Hc.
  destruct s as [z|u|v], cur as [z'|u'|v']; cbn in Hs, Hc |- *;
    try (injection Hs as <-); try (injection Hc as <-);
    try subst v; try subst v'; cbn; rewrite ?plus_IZR; auto.
Qed.

Lemma truediv_python (s : number) (c : Z) :
  is_numpy s = false ->
  truediv s (PyInt c) =
  if is_zero (IZR c) then Raise ZeroDivisionError
  else Ok (PyFloat (py_real s / IZR c)).
Proof. destruct s; cbn; intros H; try discriminate; reflexivity. Qed.

Lemma truediv_numpy (s : number) (c : Z) :
  is_numpy s = true ->
  truediv s (PyInt c) = Ok (NpFloat64 (f64_div (as_f64 s) (Finite (IZR c)))).
Proof. destruct s; cbn; intros H; try discriminate; reflexivity. Qed.

(** What [ndcg_at_k] returns with the default method. *)
Lemma ndcg_at_k_default (r : list R) (k : Z) :
  (Reference.ideal_dcg r k = 0
   /\ ndcg_at_k r k 0 = Ok (PyFloat 0)
   /\ Reference.ndcg_value r k = 0)
  \/ (Reference.ideal_dcg r k <> 0
      /\ ndcg_at_k r k 0 = Ok (NpFloat64 (Finite (Reference.ndcg_value r k)))).
Proof.
  assert (Hm : 0%Z = 0%Z \/ 0%Z = 1%Z) by now left.
  unfold Reference.ideal_dcg, Reference.ndcg_value, ndcg_at_k.
  rewrite (dcg_at_k_unfold (sorted_reverse r)).
  destruct (dcg_of_slice_cases (slice (sorted_reverse r) None (Some k)) 0 Hm)
    as [[_ ->] | [_ [x ->]]]; cbn [bind value real_of as_f64 truth].
  - left. rewrite (proj2 (is_zero_true 0) eq_refl). cbn. auto.
  - destruct (Req_dec_T x 0) as [-> | Hx].
    + left. rewrite (proj2 (is_zero_true 0) eq_refl). cbn. auto.
    + right. rewrite (proj2 (is_zero_false x) Hx). cbn [negb].
      split; [assumption|].
      destruct (dcg_at_k_value r k 0 Hm) as (a & d & -> & Hd).
      cbn [bind]. unfold truediv.
      destruct a; cbn in Hd |- *; try (injection Hd as <-); try subst v;
        cbn [f64_div]; rewrite (proj2 (is_zero_false x) Hx); reflexivity.
Qed.

Lemma nonzero_count_cons (r : list R) (rs : list (list R)) (k : Z) :
  Reference.nonzero_count (r :: rs) k =
  ((if negb (is_zero (Reference.ndcg_value r k)) then 1 else 0)
   + Reference.nonzero_count rs k)%Z.
Proof.
  unfold Reference.nonzero_count. cbn [filter].
  destruct (negb (is_zero (Reference.ndcg_value r k))); cbn [List.length]; lia.
Qed.

Lemma nonzero_count_nonneg (rs : list (list R)) (k : Z) :
  (0 <= Reference.nonzero_count rs k)%Z.
Proof. unfold Reference.nonzero_count. lia. Qed.

Lemma accumulate_step (k : Z) (r : list R) (c : Z) (s : number) (x : R) :
  as_f64 s = Finite x ->
  exists s',
    accumulate k r (c, s) =
      Ok ((c + (if negb (is_zero (Reference.ndcg_value r k)) then 1 else 0))%Z, s')
    /\ as_f64 s' = Finite (x + Reference.ndcg_value r k)
    /\ is_numpy s' = is_numpy s || negb (is_zero (Reference.ideal_dcg r k)).
Proof.
  intros Hs. unfold accumulate.
  destruct (ndcg_at_k_default r k) as [(Hi & -> & Hv) | (Hi & ->)]; cbn [bind].
  - destruct (add_finite s (PyFloat 0) x 0 Hs eq_refl) as [Hf Hn].
    eexists. split; [|split].
    + unfold ne_zero, truth. cbn [as_f64].
      rewrite Hv, (proj2 (is_zero_true 0) eq_refl). cbn [negb].
      rewrite Z.add_0_r. reflexivity.
    + now rewrite Hv.
    + rewrite Hn, Hi, (proj2 (is_zero_true 0) eq_refl). reflexivity.
  - destruct (add_finite s (NpFloat64 (Finite (Reference.ndcg_value r k))) x _
                Hs eq_refl) as [Hf Hn].
    exists (add s (NpFloat64 (Finite (Reference.ndcg_value r k)))).
    split; [|split].
    + unfold ne_zero, truth. cbn [as_f64].
      destruct (is_zero (Reference.ndcg_value r k)); cbn [negb];
        rewrite ?Z.add_0_r; reflexivity.
    + assumption.
    + rewrite Hn, (proj2 (is_zero_false _) Hi). reflexivity.
Qed.

Lemma inner_loop (k : Z) (ndcgs : list (list R)) :
  forall (c : Z) (s : number) (x : R),
    as_f64 s = Finite x ->
    exists s',
      for_each ndcgs (accumulate k) (c, s) =
        Ok ((c + Reference.nonzero_count ndcgs k)%Z, s')
      /\ as_f64 s' = Finite (x + Reference.ndcg_total ndcgs k)
      /\ is_numpy s' =
         is_numpy s
         || negb (forallb (fun r => is_zero (Reference.ideal_dcg r k)) ndcgs).
Proof.
  induction ndcgs as [|r rs IH]; intros c s x Hs.
  - exists s. cbn. rewrite Z.add_0_r, Rplus_0_r, orb_false_r. auto.
  - destruct (accumulate_step k r c s x Hs) as (s1 & Hacc & Hf1 & Hn1).
    destruct (IH (c + (if negb (is_zero (Reference.ndcg_value r k))
                       then 1 else 0))%Z s1 _ Hf1)
      as (s2 & Hloop & Hf2 & Hn2).
    exists s2. cbn [for_each]. rewrite Hacc. cbn [bind]. rewrite Hloop.
    split; [|split].
    + rewrite nonzero_count_cons. do 2 f_equal. lia.
    + rewrite Hf2. unfold Reference.ndcg_total. cbn [map fold_right].
      f_equal. lra.
    + rewrite Hn2, Hn1. cbn [forallb].
      destruct (is_numpy s), (is_zero (Reference.ideal_dcg r k)),
        (forallb (fun r0 => is_zero (Reference.ideal_dcg r0 k)) rs);
        reflexivity.
Qed.

Lemma ndcg_value_zero_ideal (r : list R) (k : Z) :
  Reference.ideal_dcg r k = 0 -> Reference.ndcg_value r k = 0.
Proof.
  intros Hi. destruct (ndcg_at_k_default r k) as [(_ & _ & Hv) | (Hn & _)];
    [assumption | contradiction].
Qed.

Lemma zero_count_total (ndcgs : list (list R)) (k : Z) :
  Reference.nonzero_count ndcgs k = 0%Z -> Reference.ndcg_total ndcgs k = 0.
Proof.
  induction ndcgs as [|r rs IH]; [reflexivity|].
  rewrite nonzero_count_cons. intros Hc.
  pose proof (nonzero_count_nonneg rs k) as Hnn.
  unfold Reference.ndcg_total. cbn [map fold_right].
  fold (Reference.ndcg_total rs k).
  destruct (is_zero (Reference.ndcg_value r k)) eqn:Hz; cbn [negb] in Hc; [|lia].
  apply is_zero_true in Hz. rewrite Hz, IH by lia. lra.
Qed.

Lemma positive_count_ideal (ndcgs : list (list R)) (k : Z) :
  Reference.nonzero_count ndcgs k <> 0%Z ->
  forallb (fun r => is_zero (Reference.ideal_dcg r k)) ndcgs = false.
Proof.
  induction ndcgs as [|r rs IH]; [now intros H|].
  rewrite nonzero_count_cons. cbn [forallb]. intros Hc.
  destruct (is_zero (Reference.ideal_dcg r k)) eqn:Hi; [|reflexivity].
  apply is_zero_true, ndcg_value_zero_ideal in Hi.
  rewrite Hi, (proj2 (is_zero_true 0) eq_refl) in Hc. cbn [negb] in Hc.
  now apply IH.
Qed.

Lemma mean_at_reference (ndcgs : list (list R)) (k : Z) :
  mean_at ndcgs k = Reference.mean ndcgs k.
Proof.
  unfold mean_at, Reference.mean.
  destruct (inner_loop k ndcgs 0%Z (PyInt 0) 0 eq_refl) as (s & -> & Hf & Hn).
  cbn [bind is_numpy orb] in *. rewrite Z.add_0_l.
  destruct (Z.eqb_spec (Reference.nonzero_count ndcgs k) 0) as [Hc | Hc].
  - rewrite Hc. rewrite (zero_count_total _ _ Hc), Rplus_0_r in Hf.
    destruct (forallb _ ndcgs); cbn [negb] in Hn.
    + rewrite (truediv_python s 0 Hn).
      now rewrite (proj2 (is_zero_true 0) eq_refl).
    + rewrite (truediv_numpy s 0 Hn), Hf. cbn [f64_div].
      now rewrite (proj2 (is_zero_true 0) eq_refl).
  - rewrite (positive_count_ideal _ _ Hc) in Hn. cbn [negb] in Hn.
    rewrite (truediv_numpy s _ Hn), Hf. cbn [f64_div].
    assert (Hnz : IZR (Reference.nonzero_count ndcgs k) <> 0).
    { intros H0. now apply eq_IZR_R0 in H0. }
    rewrite (proj2 (is_zero_false _) Hnz). do 3 f_equal. lra.
Qed.

Lemma outer_loop (ndcgs : list (list R)) (ks : list Z) :
  forall acc : list number,
    for_each ks
      (fun k results =>
         st <- for_each ndcgs (accumulate k) (0%Z, PyInt 0) ;;
         let '(count, ndcg_sum) := st in
         mean <- truediv ndcg_sum (PyInt count) ;;
         Ok (results ++ [mean]))
      acc =
    (ms <- collect (map (mean_at ndcgs) ks) ;; Ok (acc ++ ms)).
Proof.
  induction ks as [|k ks IH]; intros acc.
  - cbn. now rewrite app_nil_r.
  - cbn [for_each map collect]. unfold mean_at at 1.
    destruct (for_each ndcgs (accumulate k) (0%Z, PyInt 0)) as [[c s] | e];
      cbn [bind]; [|reflexivity].
    destruct (truediv s (PyInt c)) as [m | e]; cbn [bind]; [|reflexivity].
    rewrite IH.
    destruct (collect (map (mean_at ndcgs) ks)) as [ms | e]; cbn [bind];
      [|reflexivity].
    now rewrite <- app_assoc.
Qed.

Lemma get_range_ndcg_collect (ndcgs : list (list R)) (k_start k_end : Z) :
  get_range_ndcg ndcgs k_start k_end =
  collect (map (Reference.mean ndcgs) (range k_start k_end)).
Proof.
  unfold get_range_ndcg. rewrite outer_loop.
  rewrite (map_ext _ _ (mean_at_reference ndcgs)).
  now destruct (collect _).
Qed.

End RangeNdcg.

Section RangeNdcgTheorems.

Local Open Scope R_scope.

Lemma collect_all_ok {A B : Type} (f : A -> result B) (g : A -> B) (l : list A) :
  (forall a, In a l -> f a = Ok (g a)) -> collect (map f l) = Ok (map g l).
Proof.
  induction l as [|a l IH]; intros H; [reflexivity|].
  cbn [map collect]. rewrite (H a) by now left.
  cbn [bind]. rewrite IH; [reflexivity|].
  intros b Hb. apply H. now right.
Qed.

Lemma collect_app_raise {A B : Type} (f : A -> result B) (g : A -> B)
    (pre post : list A) (a0 : A) (e : exn) :
  (forall a, In a pre -> f a = Ok (g a)) -> f a0 = Raise e ->
  collect (map f (pre ++ a0 :: post)) = Raise e.
Proof.
  intros Hpre H0. induction pre as [|a pre IH]; cbn [app map collect].
  - now rewrite H0.
  - rewrite (Hpre a) by now left. cbn [bind].
    rewrite IH; [reflexivity|]. intros b Hb. apply Hpre. now right.
Qed.

Lemma collect_app {A : Type} (c1 c2 : list (result A)) :
  collect (c1 ++ c2) =
  (m1 <- collect c1 ;; m2 <- collect c2 ;; Ok (m1 ++ m2)).
Proof.
  induction c1 as [|c c1 IH]; cbn [app collect].
  - now destruct (collect c2).
  - destruct c as [a|e]; cbn [bind]; [|reflexivity].
    rewrite IH. destruct (collect c1); cbn [bind]; [|reflexivity].
    now destruct (collect c2).
Qed.

Lemma range_split (a b k : Z) :
  (a <= k < b)%Z -> range a b = range a k ++ k :: range (k + 1) b.
Proof.
  intros Hk. unfold range.
  replace (Z.to_nat (b - a)) with (Z.to_nat (k - a) + S (Z.to_nat (b - (k + 1))))%nat
    by lia.
  rewrite seq_app, map_app. f_equal.
  cbn [seq map]. f_equal; [lia|].
  rewrite <- seq_shift, (seq_from (0 + Z.to_nat (k - a))), !map_map.
  apply map_ext. intros i. lia.
Qed.

Lemma range_snoc (a k : Z) : (a <= k)%Z -> range a (k + 1) = range a k ++ [k].
Proof.
  intros Hk. rewrite (range_split a (k + 1) k) by lia.
  do 2 f_equal. unfold range. now rewrite Z.sub_diag.
Qed.

Lemma mean_counted (ndcgs : list (list R)) (k : Z) :
  Reference.nonzero_count ndcgs k <> 0%Z ->
  Reference.mean ndcgs k =
  Ok (NpFloat64
        (Finite (Reference.ndcg_total ndcgs k
                 / IZR (Reference.nonzero_count ndcgs k)))).
Proof.
  intros Hc. unfold Reference.mean.
  now destruct (Z.eqb_spec (Reference.nonzero_count ndcgs k) 0).
Qed.

Lemma forallb_ideal_zero (ndcgs : list (list R)) (k : Z) :
  forallb (fun r => is_zero (Reference.ideal_dcg r k)) ndcgs = true <->
  Forall (fun r => Reference.ideal_dcg r k = 0) ndcgs.
Proof.
  rewrite forallb_forall, Forall_forall.
  split; intros H r Hr; apply is_zero_true; auto.
Qed.

(** C4, as the code has it.  When at every cutoff of [k_start, k_end) some
    sequence has a non-zero NDCG, [get_range_ndcg] returns one value per
    cutoff, the sum of the NDCG values divided by the number of non-zero
    ones.  At the first cutoff [k0] where every NDCG is zero the division
    is by zero: it raises [ZeroDivisionError] when every sequence's ideal
    DCG at [k0] is zero (the sum is a Python number); when some sequence has
    a non-zero ideal DCG (and a zero DCG), the sum is a numpy scalar, no
    exception is raised there and the value for [k0] is nan. *)
Theorem get_range_ndcg_means :
  (forall (ndcgs : list (list R)) (k_start k_end : Z),
      (forall k, (k_start <= k < k_end)%Z ->
                 Reference.nonzero_count ndcgs k <> 0%Z) ->
      get_range_ndcg ndcgs k_start k_end =
      Ok (map (fun k =>
                 NpFloat64
                   (Finite (Reference.ndcg_total ndcgs k
                            / IZR (Reference.nonzero_count ndcgs k))))
              (range k_start k_end)))
  /\ (forall (ndcgs : list (list R)) (k_start k_end k0 : Z),
         (k_start <= k0 < k_end)%Z ->
         (forall k, (k_start <= k < k0)%Z ->
                    Reference.nonzero_count ndcgs k <> 0%Z) ->
         Reference.nonzero_count ndcgs k0 = 0%Z ->
         (Forall (fun r => Reference.ideal_dcg r k0 = 0) ndcgs ->
          get_range_ndcg ndcgs k_start k_end = Raise ZeroDivisionError)
         /\ (Exists (fun r => Reference.ideal_dcg r k0 <> 0) ndcgs ->
             get_range_ndcg ndcgs k_start (k0 + 1) =
             Ok (map (fun k =>
                        NpFloat64
                          (Finite (Reference.ndcg_total ndcgs k
                                   / IZR (Reference.nonzero_count ndcgs k))))
                     (range k_start k0)
                 ++ [NpFloat64 NaN]))).
Proof.
  split.
  - intros ndcgs k_start k_end Hall. rewrite get_range_ndcg_collect.
    apply collect_all_ok. intros k Hk. apply range_In in Hk.
    now apply mean_counted, Hall.
  - intros ndcgs k_start k_end k0 Hk0 Hbefore Hzero. split.
    + intros Hideal. rewrite get_range_ndcg_collect.
      rewrite (range_split k_start k_end k0) by assumption.
      apply collect_app_raise with
        (g := fun k => NpFloat64
                         (Finite (Reference.ndcg_total ndcgs k
                                  / IZR (Reference.nonzero_count ndcgs k)))).
      * intros k Hk. apply range_In in Hk. now apply mean_counted, Hbefore.
      * unfold Reference.mean. rewrite Hzero. cbn [Z.eqb].
        now rewrite (proj2 (forallb_ideal_zero ndcgs k0) Hideal).
    + intros Hsome. rewrite get_range_ndcg_collect.
      rewrite range_snoc by lia.
      rewrite map_app, collect_app.
      rewrite (collect_all_ok (Reference.mean ndcgs)
                 (fun k => NpFloat64
                             (Finite (Reference.ndcg_total ndcgs k
                                      / IZR (Reference.nonzero_count ndcgs k))))).
      * cbn [bind map collect].
        assert (Hk : Reference.mean ndcgs k0 = Ok (NpFloat64 NaN)).
        { unfold Reference.mean. rewrite Hzero. cbn [Z.eqb].
          destruct (forallb _ ndcgs) eqn:Hf; [|reflexivity].
          apply forallb_ideal_zero in Hf. apply Exists_exists in Hsome.
          destruct Hsome as (r & Hr & Hnz). rewrite Forall_forall in Hf.
          now specialize (Hf r Hr). }
        now rewrite Hk.
      * intros k Hk. apply range_In in Hk. now apply mean_counted, Hbefore.
Qed.

End RangeNdcgTheorems.

Section RangeNdcgExamples.

Local Open Scope R_scope.

Lemma ideal_dcg_0_1 : Reference.ideal_dcg [0; 1] 1 = 1.
Proof.
  unfold Reference.ideal_dcg.
  replace (sorted_reverse [0; 1]) with [1; 0] by (sort_eval; reflexivity).
  dcg_eval [1; 0] 1%Z [1]. lra.
Qed.

Lemma ndcg_value_0_1 : Reference.ndcg_value [0; 1] 1 = 0.
Proof.
  unfold Reference.ndcg_value.
  rewrite (ndcg_from_values [0; 1] 1 0 0 1); [lra | now left | | | lra].
  - dcg_eval [0; 1] 1%Z [0]. f_equal. lra.
  - replace (sorted_reverse [0; 1]) with [1; 0] by (sort_eval; reflexivity).
    dcg_eval [1; 0] 1%Z [1]. f_equal. lra.
Qed.

Lemma ndcg_value_1 : Reference.ndcg_value [1] 1 = 1.
Proof.
  unfold Reference.ndcg_value.
  rewrite (ndcg_from_values [1] 1 0 1 1); [lra | now left | | | lra].
  - dcg_eval [1] 1%Z [1]. f_equal. lra.
  - change (sorted_reverse [1]) with [1].
    dcg_eval [1] 1%Z [1]. f_equal. lra.
Qed.

Lemma ndcg_value_0 : Reference.ndcg_value [0] 1 = 0.
Proof.
  apply ndcg_value_zero_ideal. unfold Reference.ideal_dcg.
  change (sorted_reverse [0]) with [0].
  dcg_eval [0] 1%Z [0]. lra.
Qed.

Lemma nonzero_count_mixed : Reference.nonzero_count [[1]; [0]] 1 = 1%Z.
Proof.
  rewrite !nonzero_count_cons, ndcg_value_1, ndcg_value_0.
  rewrite (proj2 (is_zero_true 0) eq_refl).
  rewrite (proj2 (is_zero_false 1)) by lra. reflexivity.
Qed.

(** One sequence with gain and one without, at cutoff 1. *)
Lemma get_range_ndcg_means_witness :
  get_range_ndcg [[1]; [0]] 1 2 =
  Ok (map (fun k =>
             NpFloat64
               (Finite (Reference.ndcg_total [[1]; [0]] k
                        / IZR (Reference.nonzero_count [[1]; [0]] k))))
          (range 1 2)).
Proof.
  apply (proj1 get_range_ndcg_means [[1]; [0]] 1%Z 2%Z).
  intros k Hk. replace k with 1%Z by lia.
  rewrite nonzero_count_mixed. discriminate.
Defined.

(** The all-zero sequence does not enter the denominator: the mean of the
    NDCG values 1 and 0 comes out as 1. *)
Lemma get_range_ndcg_mixed :
  exists x : R,
    get_range_ndcg [[1]; [0]] 1 2 = Ok [NpFloat64 (Finite x)] /\ x = 1.
Proof.
  eexists. split.
  - rewrite get_range_ndcg_collect. change (range 1 2) with [1%Z].
    cbn [map collect]. rewrite mean_counted.
    + reflexivity.
    + rewrite nonzero_count_mixed. discriminate.
  - rewrite nonzero_count_mixed. unfold Reference.ndcg_total.
    cbn [map fold_right]. rewrite ndcg_value_1, ndcg_value_0. lra.
Qed.

(** C4 as stated fails: [[0, 1]] has NDCG 0 at cutoff 1 (its DCG is 0, its
    ideal DCG is 1), the sum is the numpy scalar 0.0 and the count is 0;
    the quotient is nan and no exception is raised. *)
Lemma get_range_ndcg_zero_not_raised :
  (forall r, In r [[0; 1]] -> Reference.ndcg_value r 1 = 0)
  /\ get_range_ndcg [[0; 1]] 1 2 = Ok [NpFloat64 NaN]
  /\ ~ (forall (ndcgs : list (list R)) (k_start k_end k : Z),
           (k_start <= k < k_end)%Z ->
           (forall r, In r ndcgs -> Reference.ndcg_value r k = 0) ->
           get_range_ndcg ndcgs k_start k_end = Raise ZeroDivisionError).
Proof.
  assert (Hzero : forall r, In r [[0; 1]] -> Reference.ndcg_value r 1 = 0).
  { intros r [<- | []]. apply ndcg_value_0_1. }
  assert (Hnan : get_range_ndcg [[0; 1]] 1 2 = Ok [NpFloat64 NaN]).
  { rewrite get_range_ndcg_collect. change (range 1 2) with [1%Z].
    cbn [map collect]. unfold Reference.mean.
    rewrite nonzero_count_cons, ndcg_value_0_1.
    rewrite (proj2 (is_zero_true 0) eq_refl).
    cbn [negb Reference.nonzero_count filter List.length Z.of_nat Z.add Z.eqb
         forallb].
    rewrite ideal_dcg_0_1, (proj2 (is_zero_false 1)) by lra.
    reflexivity. }
  repeat split; try assumption.
  intros H. specialize (H [[0; 1]] 1%Z 2%Z 1%Z ltac:(lia) Hzero).
  rewrite Hnan in H. discriminate.
Qed.

End RangeNdcgExamples.

(** ** Sorting *)

Section InsertionSort.

Context {A : Type} (before : Q -> Q -> bool) (key : A -> Q).

Hypothesis before_le : forall a b, before a b = true -> (a <= b)%Q.
Hypothesis before_ge : forall a b, before a b = false -> (b <= a)%Q.

Let le_key (x y : A) : Prop := (key x <= key y)%Q.

Lemma insert_by_perm (x : A) (l : list A) :
  Permutation (x :: l) (insert_by before key x l).
Proof.
  induction l as [|y l IH]; [reflexivity|].
  cbn [insert_by]. destruct (before (key x) (key y)); [reflexivity|].
  rewrite perm_swap. now apply perm_skip.
Qed.

Lemma sort_by_perm (l : list A) : Permutation l (sort_by before key l).
Proof.
  induction l as [|x l IH]; [reflexivity|].
  cbn [sort_by fold_right]. fold (sort_by before key l).
  rewrite <- insert_by_perm. now apply perm_skip.
Qed.

Lemma insert_by_sorted (x : A) (l : list A) :
  Sorted le_key l -> Sorted le_key (insert_by before key x l).
Proof.
  induction 1 as [|y l Hs IH Hhd]; cbn [insert_by].
  - repeat constructor.
  - destruct (before (key x) (key y)) eqn:Hle.
    + apply before_le in Hle.
      constructor; [now constructor|]. now constructor.
    + assert (Hyx : le_key y x) by now apply before_ge.
      constructor; [assumption|].
      destruct l as [|z l]; cbn [insert_by] in *.
      * now constructor.
      * destruct (before (key x) (key z)); constructor;
          [assumption | now inversion Hhd].
Qed.

Lemma sort_by_sorted (l : list A) : Sorted le_key (sort_by before key l).
Proof.
  induction l as [|x l IH]; [constructor|].
  cbn [sort_by fold_right]. now apply insert_by_sorted.
Qed.

End InsertionSort.

Lemma Sorted_map {A B : Type} (f : A -> B) (R : B -> B -> Prop) (l : list A) :
  Sorted (fun x y => R (f x) (f y)) l -> Sorted R (map f l).
Proof.
  induction 1 as [|x l Hs IH Hhd]; cbn [map]; constructor; [assumption|].
  destruct Hhd; cbn [map]; now constructor.
Qed.

Lemma map_fst_combine {A B : Type} (l : list A) (l' : list B) :
  List.length l = List.length l' -> map fst (combine l l') = l.
Proof.
  revert l'. induction l as [|x l IH]; intros [|y l'] H; try discriminate.
  - reflexivity.
  - cbn [combine map fst]. f_equal. apply IH. now injection H.
Qed.

Lemma combine_seq_nth (a : list Q) (k : nat) (p : nat * Q) :
  In p (combine (seq k (List.length a)) a) -> nth (fst p - k) a 0%Q = snd p.
Proof.
  revert k. induction a as [|x a IH]; intros k; [intros []|].
  cbn [List.length seq combine]. intros [<- | Hin].
  - cbn [fst snd]. now rewrite Nat.sub_diag.
  - assert (Hk : (S k <= fst p)%nat).
    { destruct p as [i q]. apply in_combine_l, in_seq in Hin. cbn [fst]. lia. }
    specialize (IH (S k) Hin).
    replace (fst p - k)%nat with (S (fst p - S k)) by lia. exact IH.
Qed.

Lemma insertion_with_sound (before : Q -> Q -> bool) :
  (forall a b, before a b = true -> (a <= b)%Q) ->
  (forall a b, before a b = false -> (b <= a)%Q) ->
  sound (insertion_with before).
Proof.
  intros Hle Hge.
  split; intros a; split; cbn [argsort sort_values insertion_with].
  - rewrite <- (sort_by_perm before snd).
    now rewrite map_fst_combine by apply length_seq.
  - rewrite map_map.
    rewrite (map_ext_in _ snd).
    + now apply Sorted_map, sort_by_sorted.
    + intros p Hp.
      apply (Permutation_in _ (Permutation_sym (sort_by_perm before snd _))) in Hp.
      apply combine_seq_nth in Hp. now rewrite Nat.sub_0_r in Hp.
  - apply sort_by_perm.
  - now apply (sort_by_sorted before (fun x => x)).
Qed.

Lemma insertion_sound : sound insertion.
Proof.
  apply insertion_with_sound; intros a b H.
  - now apply Qle_bool_iff.
  - apply Qlt_le_weak, Qnot_le_lt. intros Hle.
    apply Qle_bool_iff in Hle. congruence.
Qed.

Lemma insertion_ties_reversed_sound : sound insertion_ties_reversed.
Proof.
  apply insertion_with_sound; intros a b H.
  - apply Qlt_le_weak, Qnot_le_lt. intros Hle.
    apply Qle_bool_iff in Hle. now rewrite Hle in H.
  - apply Qle_bool_iff. now destruct (Qle_bool b a).
Qed.

(** ** Indexed writes *)

Section Scatter.

Context {A : Type}.

Lemma set_nth_length (i : nat) (v : A) (l : list A) :
  List.length (set_nth i v l) = List.length l.
Proof.
  revert i. induction l as [|x l IH]; intros [|i]; cbn; auto.
Qed.

Lemma nth_set_nth_same (i : nat) (v d : A) (l : list A) :
  (i < List.length l)%nat -> nth i (set_nth i v l) d = v.
Proof.
  revert i. induction l as [|x l IH]; intros [|i] Hi; cbn in *; try lia.
  - reflexivity.
  - apply IH. lia.
Qed.

Lemma nth_set_nth_other (i j : nat) (v d : A) (l : list A) :
  i <> j -> nth j (set_nth i v l) d = nth j l d.
Proof.
  revert i j. induction l as [|x l IH]; intros [|i] [|j] Hij; cbn;
    try reflexivity; try congruence.
  apply IH. congruence.
Qed.

Lemma scatter_length (arr : list A) (idxs : list nat) (vals : list A) :
  List.length (scatter arr idxs vals) = List.length arr.
Proof.
  revert arr vals. induction idxs as [|i idxs IH]; intros arr [|v vals];
    cbn [scatter]; try reflexivity.
  now rewrite IH, set_nth_length.
Qed.

Lemma nth_scatter_untouched (arr : list A) (idxs : list nat) (vals : list A)
    (j : nat) (d : A) :
  ~ In j idxs -> nth j (scatter arr idxs vals) d = nth j arr d.
Proof.
  revert arr vals. induction idxs as [|i idxs IH]; intros arr [|v vals] Hj;
    cbn [scatter]; try reflexivity.
  rewrite IH by (intros H; apply Hj; now right).
  apply nth_set_nth_other. intros ->. apply Hj. now left.
Qed.

(** Reading back at the positions written gives the values written. *)
Lemma scatter_read (arr : list A) (idxs : list nat) (vals : list A) (d : A) :
  NoDup idxs ->
  Forall (fun i => (i < List.length arr)%nat) idxs ->
  List.length vals = List.length idxs ->
  map (fun i => nth i (scatter arr idxs vals) d) idxs = vals.
Proof.
  revert arr vals. induction idxs as [|i idxs IH]; intros arr [|v vals] Hnd Hin Hlen;
    try discriminate; [reflexivity|].
  inversion Hnd as [|? ? Hni Hnd']; subst.
  inversion Hin as [|? ? Hi Hin']; subst.
  cbn [scatter map]. f_equal.
  - rewrite nth_scatter_untouched by assumption.
    now apply nth_set_nth_same.
  - apply IH; [assumption| |now injection Hlen].
    now rewrite set_nth_length.
Qed.

Lemma map_nth_seq (l : list A) (d : A) :
  map (fun i => nth i l d) (seq 0 (List.length l)) = l.
Proof.
  induction l as [|x l IH]; [reflexivity|].
  cbn [List.length seq map nth]. f_equal.
  rewrite <- seq_shift, map_map. exact IH.
Qed.

Lemma positions_facts (idxs : list nat) (n : nat) :
  Permutation idxs (seq 0 n) ->
  NoDup idxs /\ Forall (fun i => (i < n)%nat) idxs /\ List.length idxs = n.
Proof.
  intros Hp. repeat split.
  - apply (Permutation_NoDup (Permutation_sym Hp)), seq_NoDup.
  - apply Forall_forall. intros i Hi.
    apply (Permutation_in _ Hp), in_seq in Hi. lia.
  - now rewrite (Permutation_length Hp), length_seq.
Qed.

(** Writing at all positions, in any order, leaves the values written. *)
Lemma scatter_perm (arr : list A) (idxs : list nat) (vals : list A) :
  Permutation idxs (seq 0 (List.length arr)) ->
  List.length vals = List.length idxs ->
  Permutation (scatter arr idxs vals) vals.
Proof.
  intros Hp Hlen.
  destruct (positions_facts _ _ Hp) as (Hnd & Hin & Hn).
  destruct vals as [|d vals'] eqn:Hv.
  - destruct idxs; [|discriminate]. cbn [scatter].
    destruct arr; [reflexivity|]. cbn in Hn. discriminate.
  - rewrite <- Hv in *.
    pose proof (scatter_read arr idxs vals d Hnd Hin Hlen) as Hread.
    pose proof (scatter_length arr idxs vals) as Hsize.
    set (r := scatter arr idxs vals) in *.
    rewrite <- (map_nth_seq r d), Hsize, <- Hread.
    apply Permutation_map. now symmetry.
Qed.

(** Writing at the positions in their own order is a plain copy. *)
Lemma scatter_in_order (arr vals : list A) :
  List.length vals = List.length arr ->
  scatter arr (seq 0 (List.length arr)) vals = vals.
Proof.
  intros Hlen.
  destruct vals as [|d vals'] eqn:Hv.
  - destruct arr; [reflexivity | discriminate].
  - rewrite <- Hv in *.
    destruct (positions_facts (seq 0 (List.length arr)) _ (Permutation_refl _))
      as (Hnd & Hin & Hn).
    assert (Hlen' : List.length vals = List.length (seq 0 (List.length arr)))
      by now rewrite length_seq.
    pose proof (scatter_read arr _ vals d Hnd Hin Hlen') as Hread.
    pose proof (scatter_length arr (seq 0 (List.length arr)) vals) as Hsize.
    set (r := scatter arr (seq 0 (List.length arr)) vals) in *.
    now rewrite <- (map_nth_seq r d), Hsize.
Qed.

End Scatter.

(** ** The converter, query by query *)

Section ConverterShape.

Variable S : Sorter.
Variable junk : nat -> Z.
Hypothesis S_sound : sound S.

Lemma slice_window {A : Type} (l : list A) (e c : Z) :
  (0 <= e)%Z -> (0 <= c)%Z -> (e + c <= Z.of_nat (List.length l))%Z ->
  slice l (Some e) (Some (e + c)%Z) =
  firstn (Z.to_nat c) (skipn (Z.to_nat e) l).
Proof.
  intros He Hc Hlen. unfold slice.
  rewrite !norm_index_nonneg by lia.
  rewrite !Nat.min_l by lia. f_equal. lia.
Qed.

Lemma window_length {A : Type} (l : list A) (e c : Z) :
  (0 <= e)%Z -> (0 <= c)%Z -> (e + c <= Z.of_nat (List.length l))%Z ->
  List.length (firstn (Z.to_nat c) (skipn (Z.to_nat e) l)) = Z.to_nat c.
Proof.
  intros He Hc Hlen. rewrite length_firstn, length_skipn. lia.
Qed.

Lemma argsort_positions (a : list Q) :
  Permutation (argsort S a) (seq 0 (List.length a)).
Proof. apply S_sound. Qed.

Lemma argsort_length (a : list Q) :
  List.length (argsort S a) = List.length a.
Proof.
  now rewrite (Permutation_length (argsort_positions a)), length_seq.
Qed.

Lemma sort_values_perm (a : list Q) : Permutation a (sort_values S a).
Proof. apply S_sound. Qed.

Lemma sort_values_length (a : list Q) :
  List.length (sort_values S a) = List.length a.
Proof. symmetry. apply Permutation_length, sort_values_perm. Qed.

Lemma empty_like_length (idxs : list nat) :
  List.length (empty_like junk idxs) = List.length idxs.
Proof. unfold empty_like. now rewrite length_map, length_seq. Qed.

(** With as many labels as scores the assignment goes through. *)
Lemma judgments_of_ok (scores labels : list Q) :
  List.length labels = List.length scores ->
  judgments_of S junk scores labels = Ok (ranked_labels S junk scores labels).
Proof.
  intros Hlen. unfold judgments_of, ranked_labels, assign_at.
  rewrite empty_like_length, argsort_length.
  replace (forallb _ (argsort S scores)) with true.
  - cbn [negb]. rewrite sort_values_length, Hlen.
    now rewrite Nat.eqb_refl.
  - symmetry. apply forallb_forall. intros i Hi.
    apply (Permutation_in _ (argsort_positions scores)), in_seq in Hi.
    apply Nat.ltb_lt. lia.
Qed.

Lemma ranked_labels_length (scores labels : list Q) :
  List.length (ranked_labels S junk scores labels) = List.length scores.
Proof.
  unfold ranked_labels.
  now rewrite scatter_length, empty_like_length, argsort_length.
Qed.

Variables (predictions y_test search_score : list Q) (X_test : DataFrame).
Hypothesis X_column : column X_test "@search.score"%string = Ok search_score.

Let window {A : Type} (l : list A) (e c : Z) : list A :=
  firstn (Z.to_nat c) (skipn (Z.to_nat e) l).

Lemma query_step_ok (c e start : Z) (mj aj : list (list Z))
    (bl : list (list Q)) :
  (0 <= e)%Z -> (0 <= c)%Z ->
  (e + c <= Z.of_nat (List.length predictions))%Z ->
  (e + c <= Z.of_nat (List.length search_score))%Z ->
  (e + c <= Z.of_nat (List.length y_test))%Z ->
  query_step S junk predictions X_test y_test c (start, e, mj, aj, bl) =
  Ok (e, (e + c)%Z,
      mj ++ [ranked_labels S junk (window predictions e c) (window y_test e c)],
      aj ++ [ranked_labels S junk (window search_score e c) (window y_test e c)],
      bl ++ [window y_test e c]).
Proof.
  intros He Hc Hp Hs Hy. unfold query_step.
  pose proof (judgments_of_ok (window predictions e c) (window y_test e c))
    as Hmodel.
  pose proof (judgments_of_ok (window search_score e c) (window y_test e c))
    as Hazs.
  unfold judgments_of, window in Hmodel, Hazs.
  cbv zeta. rewrite !slice_window by assumption.
  rewrite Hmodel by now rewrite !window_length.
  cbn [bind]. rewrite X_column. cbn [bind].
  rewrite !slice_window by assumption.
  rewrite Hazs by now rewrite !window_length.
  reflexivity.
Qed.

Lemma total_nonneg (counts : list Z) :
  Forall (fun c => (0 <= c)%Z) counts -> (0 <= total counts)%Z.
Proof.
  induction 1 as [|c cs Hc _ IH]; cbn [total fold_right]; [lia|].
  fold (total cs). lia.
Qed.

Lemma query_loop (counts : list Z) :
  forall (e start : Z) (mj aj : list (list Z)) (bl : list (list Q)),
    (0 <= e)%Z ->
    Forall (fun c => (0 <= c)%Z) counts ->
    (e + total counts <= Z.of_nat (List.length predictions))%Z ->
    (e + total counts <= Z.of_nat (List.length search_score))%Z ->
    (e + total counts <= Z.of_nat (List.length y_test))%Z ->
    exists start',
      for_each counts (query_step S junk predictions X_test y_test)
        (start, e, mj, aj, bl) =
      Ok (start', (e + total counts)%Z,
          mj ++ ranked_queries S junk (skipn (Z.to_nat e) predictions)
                  (skipn (Z.to_nat e) y_test) counts,
          aj ++ ranked_queries S junk (skipn (Z.to_nat e) search_score)
                  (skipn (Z.to_nat e) y_test) counts,
          bl ++ query_slices (skipn (Z.to_nat e) y_test) counts).
Proof.
  induction counts as [|c cs IH]; intros e start mj aj bl He Hcs Hp Hs Hy.
  - exists start. cbn. now rewrite Z.add_0_r, !app_nil_r.
  - inversion Hcs as [|? ? Hc Hcs']; subst.
    cbn [total fold_right] in Hp, Hs, Hy. fold (total cs) in Hp, Hs, Hy.
    pose proof (total_nonneg cs Hcs') as Ht.
    cbn [for_each]. rewrite query_step_ok by lia. cbn [bind].
    destruct (IH (e + c)%Z e
                (mj ++ [ranked_labels S junk (window predictions e c)
                          (window y_test e c)])
                (aj ++ [ranked_labels S junk (window search_score e c)
                          (window y_test e c)])
                (bl ++ [window y_test e c]))
      as (start' & ->); try lia; try assumption.
    exists start'. unfold ranked_queries.
    cbn [total fold_right query_slices combine map fst snd].
    fold (total cs).
    replace (Z.to_nat (e + c)) with (Z.to_nat c + Z.to_nat e)%nat by lia.
    rewrite <- !skipn_skipn, <- !app_assoc. cbn [app].
    unfold window. now rewrite Z.add_assoc.
Qed.

Lemma converter_result (counts : list Z) :
  Forall (fun c => (0 <= c)%Z) counts ->
  (total counts <= Z.of_nat (List.length predictions))%Z ->
  (total counts <= Z.of_nat (List.length search_score))%Z ->
  (total counts <= Z.of_nat (List.length y_test))%Z ->
  compute_judgments_after_training S junk predictions counts X_test y_test =
  Ok (ranked_queries S junk predictions y_test counts,
      ranked_queries S junk search_score y_test counts,
      query_slices y_test counts).
Proof.
  intros Hcs Hp Hs Hy. unfold compute_judgments_after_training.
  destruct (query_loop counts 0 0 [] [] []) as (start' & ->);
    try assumption; try lia.
  reflexivity.
Qed.

End ConverterShape.

(** ** What the converter returns *)

Section Windows.

Context {A : Type}.

Lemma Forall_firstn (P : A -> Prop) (n : nat) (l : list A) :
  Forall P l -> Forall P (firstn n l).
Proof.
  intros H. revert n. induction H as [|x l Hx _ IH]; intros [|n]; cbn;
    constructor; auto.
Qed.

Lemma Forall_skipn (P : A -> Prop) (n : nat) (l : list A) :
  Forall P l -> Forall P (skipn n l).
Proof.
  intros H. revert n. induction H as [|x l Hx Hl IH]; intros [|n]; cbn;
    auto.
Qed.

Lemma query_slices_shape (counts : list Z) :
  forall l : list A,
    Forall (fun c => (0 <= c)%Z) counts ->
    (total counts <= Z.of_nat (List.length l))%Z ->
    map (fun q => Z.of_nat (List.length q)) (query_slices l counts) = counts.
Proof.
  induction counts as [|c cs IH]; intros l Hcs Hlen; [reflexivity|].
  inversion Hcs as [|? ? Hc Hcs']; subst.
  cbn [total fold_right] in Hlen. fold (total cs) in Hlen.
  pose proof (total_nonneg cs Hcs') as Ht.
  cbn [query_slices map]. f_equal.
  - rewrite length_firstn. lia.
  - apply IH; [assumption|]. rewrite length_skipn. lia.
Qed.

End Windows.

Lemma query_slices_map {A B : Type} (f : A -> B) (counts : list Z) :
  forall l : list A,
    query_slices (map f l) counts = map (map f) (query_slices l counts).
Proof.
  induction counts as [|c cs IH]; intros l; [reflexivity|].
  cbn [query_slices map]. now rewrite firstn_map, skipn_map, IH.
Qed.

Section Casts.

Lemma to_int64_inject_Z (z : Z) :
  in_int64 z = true -> to_int64 (inject_Z z) = z.
Proof.
  intros Hz. unfold to_int64. cbn [inject_Z Qnum Qden].
  now rewrite Z.quot_1_r, Hz.
Qed.

Lemma to_int64_integers (zs : list Z) :
  Forall (fun z => in_int64 z = true) zs ->
  map to_int64 (map inject_Z zs) = zs.
Proof.
  induction 1 as [|z zs Hz _ IH]; [reflexivity|].
  cbn [map]. now rewrite to_int64_inject_Z, IH.
Qed.

(** The cast is the integer part: it gives back the value only when the
    value is an integer. *)
Lemma to_int64_fraction (q : Q) :
  (forall z : Z, ~ q == inject_Z z) -> ~ inject_Z (to_int64 q) == q.
Proof. intros Hq H. now apply (Hq (to_int64 q)). Qed.

End Casts.

Section Ranking.

Variable S : Sorter.
Variable junk : nat -> Z.
Hypothesis S_sound : sound S.

(** One query: the judgments are the cast labels, rearranged. *)
Lemma ranked_labels_perm (scores labels : list Q) :
  List.length labels = List.length scores ->
  Permutation (ranked_labels S junk scores labels) (map to_int64 labels).
Proof.
  intros Hlen. unfold ranked_labels.
  rewrite scatter_perm.
  - apply Permutation_map. symmetry. now apply sort_values_perm.
  - rewrite empty_like_length, argsort_length by assumption.
    now apply argsort_positions.
  - rewrite length_map, sort_values_length, argsort_length by assumption.
    exact Hlen.
Qed.

Lemma Qlt_transitive : Relations_1.Transitive Qlt.
Proof. intros x y z. apply Qlt_trans. Qed.

Lemma Qle_transitive : Relations_1.Transitive Qle.
Proof. intros x y z. apply Qle_trans. Qed.

(** An increasing list has one ascending arrangement, itself. *)
Lemma ascending_of_increasing (l s : list Q) :
  Sorted Qlt l -> Permutation l s -> Sorted Qle s -> s = l.
Proof.
  intros Hl. apply Sorted_StronglySorted in Hl; [|apply Qlt_transitive].
  revert s. induction Hl as [|x l Hl IH Hx]; intros s Hp Hs.
  - now apply Permutation_nil in Hp.
  - destruct s as [|y s].
    { symmetry in Hp. now apply Permutation_nil in Hp. }
    apply Sorted_StronglySorted in Hs; [|apply Qle_transitive].
    inversion Hs as [|? ? Hs' Hy]; subst.
    rewrite Forall_forall in Hx, Hy.
    assert (Hxy : y = x).
    { assert (Hin : In y (x :: l)).
      { apply (Permutation_in _ (Permutation_sym Hp)). now left. }
      destruct Hin as [-> | Hin]; [reflexivity|].
      assert (Hin' : In x (y :: s)).
      { apply (Permutation_in _ Hp). now left. }
      destruct Hin' as [-> | Hin']; [reflexivity|].
      specialize (Hx _ Hin). specialize (Hy _ Hin').
      exfalso. now apply (Qlt_not_le _ _ Hx). }
    subst y. f_equal. apply IH.
    + now apply Permutation_cons_inv in Hp.
    + now apply StronglySorted_Sorted.
Qed.

Lemma increasing_NoDup (l : list Q) : Sorted Qlt l -> NoDup l.
Proof.
  intros Hl. apply Sorted_StronglySorted in Hl; [|apply Qlt_transitive].
  induction Hl as [|x l Hl IH Hx]; constructor; [|assumption].
  intros Hin. rewrite Forall_forall in Hx. specialize (Hx _ Hin).
  now apply Qlt_irrefl in Hx.
Qed.

Lemma map_injective_on {A B : Type} (f : A -> B) (l l' : list A) :
  (forall x y, In x l -> In y l' -> f x = f y -> x = y) ->
  map f l = map f l' -> l = l'.
Proof.
  revert l'. induction l as [|x l IH]; intros [|y l'] Hinj Heq;
    try discriminate; [reflexivity|].
  cbn [map] in Heq. injection Heq as Hxy Heq. f_equal.
  - apply Hinj; [now left | now left | assumption].
  - apply IH; [|assumption]. intros a b Ha Hb. apply Hinj; now right.
Qed.

(** On increasing scores every sound [argsort] answers the positions in
    order. *)
Lemma argsort_increasing (a : list Q) :
  Sorted Qlt a -> argsort S a = seq 0 (List.length a).
Proof.
  intros Ha. destruct S_sound as [Harg _]. destruct (Harg a) as [Hp Hs].
  assert (Hvals : map (fun i => nth i a 0%Q) (argsort S a) = a).
  { apply ascending_of_increasing; [assumption| |assumption].
    rewrite <- (map_nth_seq a 0%Q) at 1.
    apply Permutation_map. now symmetry. }
  apply (map_injective_on (fun i => nth i a 0%Q)).
  - intros i j Hi Hj Hij.
    apply (Permutation_in _ Hp), in_seq in Hi. apply in_seq in Hj.
    apply (proj1 (NoDup_nth a 0%Q) (increasing_NoDup a Ha)); [lia | lia | assumption].
  - now rewrite Hvals, map_nth_seq.
Qed.

Lemma sort_values_increasing (a : list Q) :
  Sorted Qlt a -> sort_values S a = a.
Proof.
  intros Ha. destruct S_sound as [_ Hsort]. destruct (Hsort a) as [Hp Hs].
  now apply ascending_of_increasing.
Qed.

(** One query whose scores and labels both increase: the judgments are the
    cast labels, in place. *)
Lemma ranked_labels_increasing (scores labels : list Q) :
  List.length labels = List.length scores ->
  Sorted Qlt scores -> Sorted Qlt labels ->
  ranked_labels S junk scores labels = map to_int64 labels.
Proof.
  intros Hlen Hs Hl. unfold ranked_labels.
  rewrite argsort_increasing, sort_values_increasing by assumption.
  pose proof (empty_like_length junk (seq 0 (List.length scores))) as Harr.
  rewrite length_seq in Harr.
  set (arr := empty_like junk (seq 0 (List.length scores))) in *.
  rewrite <- Harr. apply scatter_in_order.
  rewrite length_map. congruence.
Qed.

End Ranking.

Section RankedQueries.

Variable S : Sorter.
Variable junk : nat -> Z.
Hypothesis S_sound : sound S.

Lemma ranked_queries_cons (scores labels : list Q) (c : Z) (cs : list Z) :
  ranked_queries S junk scores labels (c :: cs) =
  ranked_labels S junk (firstn (Z.to_nat c) scores) (firstn (Z.to_nat c) labels)
  :: ranked_queries S junk (skipn (Z.to_nat c) scores)
       (skipn (Z.to_nat c) labels) cs.
Proof. reflexivity. Qed.

Lemma ranked_queries_shape (counts : list Z) :
  forall scores labels : list Q,
    Forall (fun c => (0 <= c)%Z) counts ->
    (total counts <= Z.of_nat (List.length scores))%Z ->
    map (fun q => Z.of_nat (List.length q))
        (ranked_queries S junk scores labels counts) = counts.
Proof.
  induction counts as [|c cs IH]; intros scores labels Hcs Hlen;
    [reflexivity|].
  inversion Hcs as [|? ? Hc Hcs']; subst.
  cbn [total fold_right] in Hlen. fold (total cs) in Hlen.
  pose proof (total_nonneg cs Hcs') as Ht.
  rewrite ranked_queries_cons. cbn [map]. f_equal.
  - rewrite ranked_labels_length by assumption. rewrite length_firstn. lia.
  - apply IH; [assumption|]. rewrite length_skipn. lia.
Qed.

Lemma ranked_queries_perm (counts : list Z) :
  forall scores labels : list Q,
    Forall (fun c => (0 <= c)%Z) counts ->
    (total counts <= Z.of_nat (List.length scores))%Z ->
    (total counts <= Z.of_nat (List.length labels))%Z ->
    Forall2 (fun j lb => Permutation j (map to_int64 lb))
      (ranked_queries S junk scores labels counts)
      (query_slices labels counts).
Proof.
  induction counts as [|c cs IH]; intros scores labels Hcs Hs Hl;
    [constructor|].
  inversion Hcs as [|? ? Hc Hcs']; subst.
  cbn [total fold_right] in Hs, Hl. fold (total cs) in Hs, Hl.
  pose proof (total_nonneg cs Hcs') as Ht.
  rewrite ranked_queries_cons. cbn [query_slices]. constructor.
  - apply ranked_labels_perm; [assumption|].
    rewrite !length_firstn. lia.
  - apply IH; [assumption| |]; rewrite length_skipn; lia.
Qed.

Lemma ranked_queries_increasing (counts : list Z) :
  forall scores labels : list Q,
    Forall (fun c => (0 <= c)%Z) counts ->
    (total counts <= Z.of_nat (List.length scores))%Z ->
    (total counts <= Z.of_nat (List.length labels))%Z ->
    Forall (Sorted Qlt) (query_slices scores counts) ->
    Forall (Sorted Qlt) (query_slices labels counts) ->
    ranked_queries S junk scores labels counts =
    map (map to_int64) (query_slices labels counts).
Proof.
  induction counts as [|c cs IH]; intros scores labels Hcs Hs Hl Hsi Hli;
    [reflexivity|].
  inversion Hcs as [|? ? Hc Hcs']; subst.
  cbn [total fold_right] in Hs, Hl. fold (total cs) in Hs, Hl.
  pose proof (total_nonneg cs Hcs') as Ht.
  cbn [query_slices] in Hsi, Hli.
  inversion Hsi as [|? ? Hs1 Hs2]; inversion Hli as [|? ? Hl1 Hl2]; subst.
  rewrite ranked_queries_cons. cbn [query_slices map]. f_equal.
  - apply ranked_labels_increasing; try assumption.
    rewrite !length_firstn. lia.
  - apply IH; try assumption; rewrite length_skipn; lia.
Qed.

Lemma integer_queries (zs : list Z) (counts : list Z) :
  Forall (fun z => in_int64 z = true) zs ->
  map (map to_int64) (query_slices (map inject_Z zs) counts) =
  query_slices zs counts.
Proof.
  revert zs. induction counts as [|c cs IH]; intros zs Hzs; [reflexivity|].
  cbn [query_slices map].
  rewrite firstn_map, skipn_map, to_int64_integers, IH;
    auto using Forall_firstn, Forall_skipn.
Qed.

Lemma Forall2_integer_queries (P : list Z -> list Z -> Prop)
    (js : list (list Z)) (zs : list Z) (counts : list Z) :
  Forall (fun z => in_int64 z = true) zs ->
  Forall2 (fun j lb => P j (map to_int64 lb)) js
    (query_slices (map inject_Z zs) counts) ->
  Forall2 P js (query_slices zs counts).
Proof.
  intros Hzs. rewrite <- (integer_queries zs counts Hzs).
  generalize (query_slices (map inject_Z zs) counts).
  intros ls H. induction H; cbn [map]; constructor; assumption.
Qed.

End RankedQueries.

(** C7.  When the boundary entries (non-negative counts) add up to the
    length of the score, secondary-score and label vectors, the converter
    returns three collections with one array per query, in the order of the
    boundary list, the i-th array as long as the i-th entry says. *)
Theorem judgments_shape (S : Sorter) (junk : nat -> Z)
    (predictions : list Q) (query_doc_counts : list Z) (X_test : DataFrame)
    (search_score y_test : list Q) :
  sound S ->
  column X_test "@search.score"%string = Ok search_score ->
  Forall (fun c => (0 <= c)%Z) query_doc_counts ->
  total query_doc_counts = Z.of_nat (List.length predictions) ->
  total query_doc_counts = Z.of_nat (List.length search_score) ->
  total query_doc_counts = Z.of_nat (List.length y_test) ->
  exists model_judgments azs_judgments baseline,
    compute_judgments_after_training S junk predictions query_doc_counts
      X_test y_test = Ok (model_judgments, azs_judgments, baseline)
    /\ map (fun q => Z.of_nat (List.length q)) model_judgments
       = query_doc_counts
    /\ map (fun q => Z.of_nat (List.length q)) azs_judgments
       = query_doc_counts
    /\ map (fun q => Z.of_nat (List.length q)) baseline = query_doc_counts.
Proof.
  intros HS HX Hcs Hp Hs Hy.
  rewrite (converter_result S junk HS predictions y_test search_score X_test HX)
    by (try assumption; lia).
  eexists _, _, _. split; [reflexivity|].
  repeat split.
  - apply ranked_queries_shape; [assumption | assumption | lia].
  - apply ranked_queries_shape; [assumption | assumption | lia].
  - apply query_slices_shape; [assumption | lia].
Qed.

Section ConverterExamples.

Local Open Scope Q_scope.

(** Two queries of two and one documents. *)
Lemma judgments_shape_witness :
  exists model_judgments azs_judgments baseline,
    compute_judgments_after_training insertion (fun _ => 0%Z)
      [3 # 10; -1; 2] [2%Z; 1%Z]
      [("@search.score"%string, [5; 4; 1])] [1; 0; 2]
    = Ok (model_judgments, azs_judgments, baseline)
    /\ map (fun q => Z.of_nat (List.length q)) model_judgments = [2%Z; 1%Z]
    /\ map (fun q => Z.of_nat (List.length q)) azs_judgments = [2%Z; 1%Z]
    /\ map (fun q => Z.of_nat (List.length q)) baseline = [2%Z; 1%Z].
Proof.
  apply (judgments_shape insertion (fun _ => 0%Z) [3 # 10; -1; 2]
           [2%Z; 1%Z] [("@search.score"%string, [5; 4; 1])] [5; 4; 1]
           [1; 0; 2]).
  - exact insertion_sound.
  - reflexivity.
  - repeat constructor; discriminate.
  - reflexivity.
  - reflexivity.
  - reflexivity.
Defined.

End ConverterExamples.

(** C6, as the code has it.  For every query slice, whatever the scores
    (all equal included) and whichever sound sort is used, the judgments
    returned for the slice are, as a multiset, the labels of the slice cast
    to int64; when the labels are integers of the int64 range this is the
    multiset of the labels themselves.  The positions are not determined:
    on tied scores two sound sorts place the labels differently. *)
Theorem judgments_multiset :
  (forall (S : Sorter) (junk : nat -> Z) (predictions : list Q)
          (query_doc_counts : list Z) (X_test : DataFrame)
          (search_score y_test : list Q),
      sound S ->
      column X_test "@search.score"%string = Ok search_score ->
      Forall (fun c => (0 <= c)%Z) query_doc_counts ->
      total query_doc_counts = Z.of_nat (List.length predictions) ->
      total query_doc_counts = Z.of_nat (List.length search_score) ->
      total query_doc_counts = Z.of_nat (List.length y_test) ->
      exists model_judgments azs_judgments baseline,
        compute_judgments_after_training S junk predictions query_doc_counts
          X_test y_test = Ok (model_judgments, azs_judgments, baseline)
        /\ Forall2 (fun j lb => Permutation j (map to_int64 lb))
             model_judgments (query_slices y_test query_doc_counts)
        /\ Forall2 (fun j lb => Permutation j (map to_int64 lb))
             azs_judgments (query_slices y_test query_doc_counts)
        /\ (forall zs : list Z,
               y_test = map inject_Z zs ->
               Forall (fun z => in_int64 z = true) zs ->
               Forall2 (@Permutation Z) model_judgments
                 (query_slices zs query_doc_counts)
               /\ Forall2 (@Permutation Z) azs_judgments
                    (query_slices zs query_doc_counts)))
  /\ (sound insertion /\ sound insertion_ties_reversed
      /\ forall junk : nat -> Z,
           compute_judgments_after_training insertion junk
             [1; 1]%Q [2%Z] [("@search.score"%string, [1; 1]%Q)] [1; 2]%Q
           = Ok ([[1%Z; 2%Z]], [[1%Z; 2%Z]], [[1; 2]%Q])
           /\ compute_judgments_after_training insertion_ties_reversed junk
                [1; 1]%Q [2%Z] [("@search.score"%string, [1; 1]%Q)] [1; 2]%Q
              = Ok ([[2%Z; 1%Z]], [[2%Z; 1%Z]], [[1; 2]%Q])).
Proof.
  split.
  - intros S junk predictions counts X_test search_score y_test
      HS HX Hcs Hp Hs Hy.
    rewrite (converter_result S junk HS predictions y_test search_score
               X_test HX) by (try assumption; lia).
    eexists _, _, _. split; [reflexivity|].
    assert (Hm : Forall2 (fun j lb => Permutation j (map to_int64 lb))
                   (ranked_queries S junk predictions y_test counts)
                   (query_slices y_test counts))
      by (apply ranked_queries_perm; try assumption; lia).
    assert (Ha : Forall2 (fun j lb => Permutation j (map to_int64 lb))
                   (ranked_queries S junk search_score y_test counts)
                   (query_slices y_test counts))
      by (apply ranked_queries_perm; try assumption; lia).
    repeat split; try assumption.
    + subst y_test. now apply Forall2_integer_queries.
    + subst y_test. now apply Forall2_integer_queries.
  - split; [exact insertion_sound|].
    split; [exact insertion_ties_reversed_sound|].
    intros junk. split; reflexivity.
Qed.

(** All scores of the one query equal, integer labels. *)
Lemma judgments_multiset_witness :
  exists model_judgments azs_judgments baseline,
    compute_judgments_after_training insertion (fun _ => 0%Z)
      [7; 7; 7]%Q [3%Z] [("@search.score"%string, [2; 2; 2]%Q)] [2; 0; 1]%Q
    = Ok (model_judgments, azs_judgments, baseline)
    /\ Forall2 (fun j lb => Permutation j (map to_int64 lb))
         model_judgments (query_slices [2; 0; 1]%Q [3%Z])
    /\ Forall2 (fun j lb => Permutation j (map to_int64 lb))
         azs_judgments (query_slices [2; 0; 1]%Q [3%Z])
    /\ (forall zs : list Z,
           [2; 0; 1]%Q = map inject_Z zs ->
           Forall (fun z => in_int64 z = true) zs ->
           Forall2 (@Permutation Z) model_judgments (query_slices zs [3%Z])
           /\ Forall2 (@Permutation Z) azs_judgments (query_slices zs [3%Z])).
Proof.
  apply (proj1 judgments_multiset insertion (fun _ => 0%Z) [7; 7; 7]%Q
           [3%Z] [("@search.score"%string, [2; 2; 2]%Q)] [2; 2; 2]%Q
           [2; 0; 1]%Q).
  - exact insertion_sound.
  - reflexivity.
  - repeat constructor; discriminate.
  - reflexivity.
  - reflexivity.
  - reflexivity.
Defined.

(** C6 as stated fails on labels that are not integers: with the labels
    1/2 and 3/2 (and equal scores) the judgments are 0 and 1, and 1/2 is
    not among them. *)
Lemma judgments_multiset_fractions :
  compute_judgments_after_training insertion (fun _ => 0%Z)
    [1; 1]%Q [2%Z] [("@search.score"%string, [1; 1]%Q)] [1 # 2; 3 # 2]%Q
  = Ok ([[0%Z; 1%Z]], [[0%Z; 1%Z]], [[1 # 2; 3 # 2]%Q])
  /\ forall z : Z, In z [0%Z; 1%Z] -> ~ (inject_Z z == 1 # 2)%Q.
Proof.
  split; [reflexivity|].
  intros z [<- | [<- | []]]; discriminate.
Qed.

(** C3, as the code has it.  When, within each query slice, the scores are
    strictly increasing and the labels are strictly increasing in the same
    document order, the model judgments of the slice are its labels cast to
    int64, position by position; they are the labels themselves when these
    are integers of the int64 range. *)
Theorem judgments_of_increasing (S : Sorter) (junk : nat -> Z)
    (predictions : list Q) (query_doc_counts : list Z) (X_test : DataFrame)
    (search_score y_test : list Q) :
  sound S ->
  column X_test "@search.score"%string = Ok search_score ->
  Forall (fun c => (0 <= c)%Z) query_doc_counts ->
  total query_doc_counts = Z.of_nat (List.length predictions) ->
  total query_doc_counts = Z.of_nat (List.length search_score) ->
  total query_doc_counts = Z.of_nat (List.length y_test) ->
  Forall (Sorted Qlt) (query_slices predictions query_doc_counts) ->
  Forall (Sorted Qlt) (query_slices y_test query_doc_counts) ->
  exists model_judgments azs_judgments baseline,
    compute_judgments_after_training S junk predictions query_doc_counts
      X_test y_test = Ok (model_judgments, azs_judgments, baseline)
    /\ model_judgments
       = map (map to_int64) (query_slices y_test query_doc_counts)
    /\ (forall zs : list Z,
           y_test = map inject_Z zs ->
           Forall (fun z => in_int64 z = true) zs ->
           model_judgments = query_slices zs query_doc_counts).
Proof.
  intros HS HX Hcs Hp Hs Hy Hpi Hyi.
  rewrite (converter_result S junk HS predictions y_test search_score
             X_test HX) by (try assumption; lia).
  eexists _, _, _. split; [reflexivity|].
  assert (Hm : ranked_queries S junk predictions y_test query_doc_counts =
               map (map to_int64) (query_slices y_test query_doc_counts))
    by (apply ranked_queries_increasing; try assumption; lia).
  split; [assumption|].
  intros zs -> Hzs. rewrite Hm. now apply integer_queries.
Qed.

(** Two queries with increasing scores and increasing integer labels. *)
Lemma judgments_of_increasing_witness :
  exists model_judgments azs_judgments baseline,
    compute_judgments_after_training insertion (fun _ => 0%Z)
      [-1; 1 # 2; 3; 0; 1 # 4]%Q [3%Z; 2%Z]
      [("@search.score"%string, [1; 1; 1; 1; 1]%Q)] [0; 1; 4; 2; 3]%Q
    = Ok (model_judgments, azs_judgments, baseline)
    /\ model_judgments
       = map (map to_int64) (query_slices [0; 1; 4; 2; 3]%Q [3%Z; 2%Z])
    /\ (forall zs : list Z,
           [0; 1; 4; 2; 3]%Q = map inject_Z zs ->
           Forall (fun z => in_int64 z = true) zs ->
           model_judgments = query_slices zs [3%Z; 2%Z]).
Proof.
  apply (judgments_of_increasing insertion (fun _ => 0%Z)
           [-1; 1 # 2; 3; 0; 1 # 4]%Q [3%Z; 2%Z]
           [("@search.score"%string, [1; 1; 1; 1; 1]%Q)] [1; 1; 1; 1; 1]%Q
           [0; 1; 4; 2; 3]%Q).
  - exact insertion_sound.
  - reflexivity.
  - repeat constructor; discriminate.
  - reflexivity.
  - reflexivity.
  - reflexivity.
  - repeat constructor.
  - repeat constructor.
Defined.

(** C3 as stated fails on labels that are not integers: scores 1, 2 and
    labels 1/2, 3/2, both strictly increasing, give the judgments 0, 1. *)
Lemma judgments_of_increasing_fractions :
  sound insertion
  /\ Sorted Qlt [1; 2]%Q
  /\ Sorted Qlt [1 # 2; 3 # 2]%Q
  /\ compute_judgments_after_training insertion (fun _ => 0%Z)
       [1; 2]%Q [2%Z] [("@search.score"%string, [1; 2]%Q)] [1 # 2; 3 # 2]%Q
     = Ok ([[0%Z; 1%Z]], [[0%Z; 1%Z]], [[1 # 2; 3 # 2]%Q])
  /\ ~ (inject_Z 0 == 1 # 2)%Q
  /\ ~ (inject_Z 1 == 3 # 2)%Q.
Proof.
  split; [exact insertion_sound|].
  repeat split; try (repeat constructor); discriminate.
Qed.

Section IntegerPart.

Lemma to_int64_integer_part (q : Q) :
  fits_int64 q -> integer_part q (to_int64 q).
Proof.
  unfold fits_int64, to_int64. intros ->. destruct q as [n d].
  cbn [Qnum Qden].
  pose proof (Z.quot_rem' n (Z.pos d)) as Hn.
  unfold integer_part, Qle, Qlt, Qplus, Qminus, Qopp, inject_Z.
  cbn [Qnum Qden Qplus Qopp].
  split; intros H0; rewrite ?Z.mul_1_r in *.
  - pose proof (Z.rem_bound_pos_pos n (Z.pos d) ltac:(lia) ltac:(lia)) as Hr.
    split; nia.
  - pose proof (Z.rem_bound_pos_neg n (Z.pos d) ltac:(lia) ltac:(lia)) as Hr.
    split; nia.
Qed.

Lemma integer_part_unique (q : Q) (z z' : Z) :
  integer_part q z -> integer_part q z' -> z = z'.
Proof.
  intros [Hp Hn] [Hp' Hn'].
  destruct (Qlt_le_dec q 0) as [Hneg | Hpos].
  - apply Qlt_le_weak in Hneg.
    destruct (Hn Hneg) as [H1 H2], (Hn' Hneg) as [H1' H2'].
    unfold Qle, Qlt, Qminus, Qplus, Qopp, inject_Z in *.
    cbn [Qnum Qden] in *. nia.
  - destruct (Hp Hpos) as [H1 H2], (Hp' Hpos) as [H1' H2'].
    unfold Qle, Qlt, Qminus, Qplus, Qopp, inject_Z in *.
    cbn [Qnum Qden] in *. nia.
Qed.

Lemma integer_parts_of (lb : list Q) (j : list Z) :
  Forall fits_int64 lb ->
  Permutation j (map to_int64 lb) ->
  exists lb', Permutation lb lb' /\ Forall2 integer_part lb' j.
Proof.
  intros Hfit Hperm.
  destruct (Permutation_map_inv _ _ Hperm) as (lb' & -> & Hlb).
  exists lb'. split; [assumption|].
  assert (Hfit' : Forall fits_int64 lb').
  { apply Forall_forall. intros q Hq. rewrite Forall_forall in Hfit.
    apply Hfit. now apply (Permutation_in _ (Permutation_sym Hlb)). }
  clear - Hfit'. induction Hfit' as [|q l Hq _ IH]; cbn [map]; constructor;
    [now apply to_int64_integer_part | assumption].
Qed.

Lemma Forall2_integer_parts (counts : list Z) :
  forall (y_test : list Q) (js : list (list Z)),
    Forall fits_int64 y_test ->
    Forall2 (fun j lb => Permutation j (map to_int64 lb)) js
      (query_slices y_test counts) ->
    Forall2 (fun j lb => exists lb', Permutation lb lb'
                                     /\ Forall2 integer_part lb' j)
      js (query_slices y_test counts).
Proof.
  induction counts as [|c cs IH]; intros y_test js Hfit H;
    cbn [query_slices] in *; inversion H; subst; constructor.
  - apply integer_parts_of; [now apply Forall_firstn | assumption].
  - apply IH; [now apply Forall_skipn | assumption].
Qed.

End IntegerPart.

(** C9.  The model and secondary judgment arrays hold int64 values: what is
    stored for a query is its labels cast to int64, rearranged, and the
    cast drops the fractional part (for labels whose integer part an int64
    holds, each stored value is the integer part of one label of the
    query); so an integer label comes back as it is and a label that is not
    an integer does not come back; the baseline is the label slices
    themselves. *)
Theorem judgments_are_int64 (S : Sorter) (junk : nat -> Z)
    (predictions : list Q) (query_doc_counts : list Z) (X_test : DataFrame)
    (search_score y_test : list Q) :
  sound S ->
  column X_test "@search.score"%string = Ok search_score ->
  Forall (fun c => (0 <= c)%Z) query_doc_counts ->
  total query_doc_counts = Z.of_nat (List.length predictions) ->
  total query_doc_counts = Z.of_nat (List.length search_score) ->
  total query_doc_counts = Z.of_nat (List.length y_test) ->
  exists (model_judgments azs_judgments : list (list Z))
         (baseline : list (list Q)),
    compute_judgments_after_training S junk predictions query_doc_counts
      X_test y_test = Ok (model_judgments, azs_judgments, baseline)
    /\ baseline = query_slices y_test query_doc_counts
    /\ Forall2 (fun j lb => Permutation j (map to_int64 lb))
         model_judgments baseline
    /\ Forall2 (fun j lb => Permutation j (map to_int64 lb))
         azs_judgments baseline
    /\ (Forall fits_int64 y_test ->
        Forall2 (fun j lb => exists lb', Permutation lb lb'
                                         /\ Forall2 integer_part lb' j)
          model_judgments baseline
        /\ Forall2 (fun j lb => exists lb', Permutation lb lb'
                                            /\ Forall2 integer_part lb' j)
             azs_judgments baseline)
    /\ (forall z : Z, in_int64 z = true -> to_int64 (inject_Z z) = z)
    /\ (forall q : Q,
           (forall z : Z, ~ (q == inject_Z z)%Q) ->
           ~ (inject_Z (to_int64 q) == q)%Q).
Proof.
  intros HS HX Hcs Hp Hs Hy.
  rewrite (converter_result S junk HS predictions y_test search_score
             X_test HX) by (try assumption; lia).
  eexists _, _, _. split; [reflexivity|].
  split; [reflexivity|].
  assert (Hmodel : Forall2 (fun j lb => Permutation j (map to_int64 lb))
                     (ranked_queries S junk predictions y_test query_doc_counts)
                     (query_slices y_test query_doc_counts))
    by (apply ranked_queries_perm; try assumption; lia).
  assert (Hazs : Forall2 (fun j lb => Permutation j (map to_int64 lb))
                   (ranked_queries S junk search_score y_test query_doc_counts)
                   (query_slices y_test query_doc_counts))
    by (apply ranked_queries_perm; try assumption; lia).
  split; [assumption|]. split; [assumption|]. split; [|split].
  - intros Hfit. split; now apply Forall2_integer_parts.
  - apply to_int64_inject_Z.
  - apply to_int64_fraction.
Qed.

(** Labels 5/2 and -1/2: the judgments hold 2 and 0, the baseline the
    labels. *)
Lemma judgments_are_int64_witness :
  exists (model_judgments azs_judgments : list (list Z))
         (baseline : list (list Q)),
    compute_judgments_after_training insertion (fun _ => 0%Z)
      [1; 2]%Q [2%Z] [("@search.score"%string, [2; 1]%Q)] [5 # 2; -1 # 2]%Q
    = Ok (model_judgments, azs_judgments, baseline)
    /\ baseline = query_slices [5 # 2; -1 # 2]%Q [2%Z]
    /\ Forall2 (fun j lb => Permutation j (map to_int64 lb))
         model_judgments baseline
    /\ Forall2 (fun j lb => Permutation j (map to_int64 lb))
         azs_judgments baseline
    /\ (Forall fits_int64 [5 # 2; -1 # 2]%Q ->
        Forall2 (fun j lb => exists lb', Permutation lb lb'
                                         /\ Forall2 integer_part lb' j)
          model_judgments baseline
        /\ Forall2 (fun j lb => exists lb', Permutation lb lb'
                                            /\ Forall2 integer_part lb' j)
             azs_judgments baseline)
    /\ (forall z : Z, in_int64 z = true -> to_int64 (inject_Z z) = z)
    /\ (forall q : Q,
           (forall z : Z, ~ (q == inject_Z z)%Q) ->
           ~ (inject_Z (to_int64 q) == q)%Q).
Proof.
  apply (judgments_are_int64 insertion (fun _ => 0%Z) [1; 2]%Q [2%Z]
           [("@search.score"%string, [2; 1]%Q)] [2; 1]%Q [5 # 2; -1 # 2]%Q).
  - exact insertion_sound.
  - reflexivity.
  - repeat constructor; discriminate.
  - reflexivity.
  - reflexivity.
  - reflexivity.
Defined.

(** The values stored in that example. *)
Lemma judgments_of_fractions :
  compute_judgments_after_training insertion (fun _ => 0%Z)
    [1; 2]%Q [2%Z] [("@search.score"%string, [2; 1]%Q)] [5 # 2; -1 # 2]%Q
  = Ok ([[0%Z; 2%Z]], [[2%Z; 0%Z]], [[5 # 2; -1 # 2]%Q]).
Proof. reflexivity. Qed.

(** ** Query escaping *)

Section Escaping.

Local Open Scope char_scope.

Lemma among_app (cs : list ascii) (d c : ascii) :
  among (cs ++ [d]) c = among cs c || Ascii.eqb c d.
Proof.
  unfold among. rewrite existsb_app. cbn [existsb].
  now rewrite orb_false_r.
Qed.

Lemma among_In (cs : list ascii) (c : ascii) :
  among cs c = true <-> In c cs.
Proof.
  unfold among. rewrite existsb_exists. split.
  - intros (x & Hx & Heq). apply Ascii.eqb_eq in Heq. now subst.
  - intros Hc. exists c. split; [assumption | apply Ascii.eqb_refl].
Qed.

(** One more character handled: the characters handled so far keep their
    single backslash, provided the new one is none of them and is not the
    backslash once backslashes have been put in. *)
Lemma replace_prefixed (cs : list ascii) (d : ascii) (s : string) :
  ~ In d cs -> (cs = [] \/ d <> "\") ->
  replace (prefixed cs s) d (escaped_char d) = prefixed (cs ++ [d]) s.
Proof.
  intros Hd Hback. induction s as [|c s IH]; [reflexivity|].
  cbn [prefixed]. rewrite among_app.
  destruct (among cs c) eqn:Hc; cbn [orb replace].
  - assert (Hcs : cs <> []) by (intros ->; discriminate).
    destruct Hback as [-> | Hback]; [contradiction|].
    assert (Hcd : c <> d).
    { intros ->. apply among_In in Hc. contradiction. }
    rewrite (proj2 (Ascii.eqb_neq "\" d)) by congruence.
    rewrite (proj2 (Ascii.eqb_neq c d)) by assumption.
    now rewrite IH.
  - destruct (Ascii.eqb c d) eqn:Hcd.
    + apply Ascii.eqb_eq in Hcd. subst c.
      cbn [escaped_char String.append]. now rewrite IH.
    + now rewrite IH.
Qed.

Lemma prefixed_nil (s : string) : prefixed [] s = s.
Proof. induction s as [|c s IH]; [reflexivity|]. cbn. now rewrite IH. Qed.

Lemma escape_with_prefixed (cs done : list ascii) (s : string) :
  NoDup (done ++ cs) -> ~ In "\" cs ->
  escape_with cs (prefixed done s) = prefixed (done ++ cs) s.
Proof.
  revert done. induction cs as [|d cs IH]; intros done Hnd Hback.
  - now rewrite app_nil_r.
  - cbn [escape_with fold_left].
    fold (escape_with cs (replace (prefixed done s) d (escaped_char d))).
    rewrite replace_prefixed.
    + replace (done ++ d :: cs) with ((done ++ [d]) ++ cs)
        by now rewrite <- app_assoc.
      apply IH; [now rewrite <- app_assoc|].
      intros Hin. apply Hback. now right.
    + intros Hin. apply NoDup_remove_2 in Hnd. apply Hnd.
      apply in_or_app. now left.
    + right. intros ->. apply Hback. now left.
Qed.

(** Handled in any order without repetition, the backslash first if at
    all, the characters each get one backslash. *)
Lemma escape_with_spec (d : ascii) (cs : list ascii) (s : string) :
  NoDup (d :: cs) -> ~ In "\" cs ->
  escape_with (d :: cs) s = prefixed (d :: cs) s.
Proof.
  intros Hnd Hback. cbn [escape_with fold_left].
  fold (escape_with cs (replace s d (escaped_char d))).
  rewrite <- (prefixed_nil s) at 1.
  rewrite (replace_prefixed [] d s); [|intros [] | now left].
  now apply (escape_with_prefixed cs [d]).
Qed.

Lemma characters_distinct : NoDup characters.
Proof.
  unfold characters.
  repeat (constructor; [cbn [In]; intuition discriminate|]).
  constructor.
Qed.

Lemma prefixed_none (cs : list ascii) (s : string) :
  (forall c, In c (list_ascii_of_string s) -> among cs c = false) ->
  prefixed cs s = s.
Proof.
  induction s as [|c s IH]; intros H; [reflexivity|].
  cbn [prefixed]. rewrite (H c) by now left.
  f_equal. apply IH. intros c' Hc'. apply H. now right.
Qed.

(** C8.  [escape_query] returns its argument with one backslash in front
    of every occurrence of a reserved character and every other character
    as it is; the backslashes it puts in are not escaped again, and a string
    without reserved characters comes back unchanged. *)
Theorem escape_query_prefixes_reserved :
  (forall query : string, escape_query query = escaped query)
  /\ (forall query : string,
         (forall c, In c (list_ascii_of_string query) -> reserved c = false) ->
         escape_query query = query)
  /\ escape_query "a\b" = "a\\b"%string
  /\ escape_query "(1+1):2" = "\(1\+1\)\:2"%string.
Proof.
  assert (Hspec : forall query, escape_query query = escaped query).
  { intros query. unfold escaped.
    apply (escape_with_spec "\" (tl characters) query).
    - exact characters_distinct.
    - cbn [In tl characters]. intuition discriminate. }
  split; [exact Hspec|].
  split; [|split; reflexivity].
  intros query Hnone. rewrite Hspec. now apply prefixed_none.
Qed.

(** A query without reserved characters. *)
Lemma escape_query_prefixes_reserved_witness :
  escape_query "learning to rank" = "learning to rank"%string.
Proof.
  apply (proj1 (proj2 escape_query_prefixes_reserved)).
  intros c Hc. cbn in Hc.
  repeat (destruct Hc as [<- | Hc]; [reflexivity|]).
  contradiction.
Defined.

End Escaping.

(** * Further properties of the code *)

(** ** Query escaping *)

Section EscapingMore.

Local Open Scope char_scope.

Lemma escape_query_escaped (query : string) : escape_query query = escaped query.
Proof.
  unfold escaped.
  apply (escape_with_spec "\" (tl characters) query).
  - exact characters_distinct.
  - cbn [In tl characters]. intuition discriminate.
Qed.

Lemma prefixed_append (cs : list ascii) (s1 s2 : string) :
  prefixed cs (s1 ++ s2) = (prefixed cs s1 ++ prefixed cs s2)%string.
Proof.
  induction s1 as [|c s1 IH]; [reflexivity|].
  cbn [String.append prefixed]. rewrite IH.
  now destruct (among cs c).
Qed.

(** Escaping goes piece by piece: a query put together from two parts may
    be escaped before or after they are joined. *)
Theorem escape_query_append (q1 q2 : string) :
  escape_query (q1 ++ q2) = (escape_query q1 ++ escape_query q2)%string.
Proof. rewrite !escape_query_escaped. apply prefixed_append. Qed.

Lemma escaped_length (query : string) :
  String.length (escaped query) =
  (String.length query
   + List.length (filter reserved (list_ascii_of_string query)))%nat.
Proof.
  unfold escaped.
  induction query as [|c q IH]; [reflexivity|].
  cbn [prefixed list_ascii_of_string filter String.length].
  unfold reserved at 1. destruct (among characters c);
    cbn [String.length List.length]; rewrite IH; lia.
Qed.

(** The result is longer by one character for each reserved character of
    the query. *)
Theorem escape_query_length (query : string) :
  String.length (escape_query query) =
  (String.length query
   + List.length (filter reserved (list_ascii_of_string query)))%nat.
Proof. rewrite escape_query_escaped. apply escaped_length. Qed.

(** Distinct queries have distinct escapings: nothing is lost. *)
Theorem escape_query_injective (q1 q2 : string) :
  escape_query q1 = escape_query q2 -> q1 = q2.
Proof.
  rewrite !escape_query_escaped. unfold escaped.
  assert (Hback : among characters "\" = true) by reflexivity.
  revert q2. induction q1 as [|c1 q1 IH]; intros [|c2 q2]; cbn [prefixed].
  - reflexivity.
  - destruct (among characters c2); discriminate.
  - destruct (among characters c1); discriminate.
  - destruct (among characters c1) eqn:H1, (among characters c2) eqn:H2;
      intros H.
    + assert (Hc : c1 = c2) by congruence.
      assert (Hq : prefixed characters q1 = prefixed characters q2)
        by congruence.
      subst c2. f_equal. now apply IH.
    + assert (Hc : c2 = "\") by congruence. congruence.
    + assert (Hc : c1 = "\") by congruence. congruence.
    + assert (Hc : c1 = c2) by congruence.
      assert (Hq : prefixed characters q1 = prefixed characters q2)
        by congruence.
      subst c2. f_equal. now apply IH.
Qed.

Lemma escape_query_injective_witness : "a+b"%string = "a+b"%string.
Proof. apply (escape_query_injective "a+b" "a+b"). reflexivity. Defined.

(** The query comes back as it was exactly when it has no reserved
    character. *)
Theorem escape_query_unchanged_iff (query : string) :
  escape_query query = query <->
  (forall c, In c (list_ascii_of_string query) -> reserved c = false).
Proof.
  split.
  - intros Heq c Hc.
    pose proof (escaped_length query) as Hlen.
    rewrite <- escape_query_escaped, Heq in Hlen.
    destruct (reserved c) eqn:Hr; [|reflexivity].
    assert (Hin : In c (filter reserved (list_ascii_of_string query)))
      by (apply filter_In; auto).
    destruct (filter reserved (list_ascii_of_string query));
      [contradiction | cbn in Hlen; lia].
  - intros Hnone. rewrite escape_query_escaped. now apply prefixed_none.
Qed.

End EscapingMore.

(** ** Cutoffs beyond the ends of the sequence *)

Section Cutoffs.

Local Open Scope R_scope.

Lemma slice_to (A : Type) (l : list A) (k : Z) :
  slice l None (Some k) = firstn (norm_index (List.length l) k) l.
Proof. unfold slice. now rewrite Nat.sub_0_r. Qed.

(** A cutoff at or past the length of the sequence is the same as the
    length itself, and a negative cutoff [-j] is the cutoff [len - j]: it
    counts from the end, as Python slices do. *)
Theorem dcg_at_k_cutoff_ends (r : list R) (method : Z) :
  (forall k : Z,
      (Z.of_nat (List.length r) <= k)%Z ->
      dcg_at_k r k method = dcg_at_k r (Z.of_nat (List.length r)) method)
  /\ (forall j : Z,
         (0 < j <= Z.of_nat (List.length r))%Z ->
         dcg_at_k r (- j) method =
         dcg_at_k r (Z.of_nat (List.length r) - j) method).
Proof.
  split.
  - intros k Hk. rewrite !dcg_at_k_unfold, !slice_to.
    rewrite !norm_index_nonneg by lia. do 2 f_equal. lia.
  - intros j Hj. rewrite !dcg_at_k_unfold, !slice_to.
    rewrite (norm_index_nonneg _ (Z.of_nat (List.length r) - j)) by lia.
    do 2 f_equal. unfold norm_index.
    destruct (Z.ltb_spec (- j) 0); lia.
Qed.

Lemma dcg_at_k_cutoff_ends_witness :
  dcg_at_k [3; 2; 1] (- (1)) 0 = dcg_at_k [3; 2; 1] (Z.of_nat 3 - 1) 0.
Proof.
  apply (proj2 (dcg_at_k_cutoff_ends [3; 2; 1] 0%Z) 1%Z). cbn. lia.
Defined.

End Cutoffs.

(** ** More on the averages over cutoffs *)

Section RangeMore.

Local Open Scope R_scope.

Lemma ideal_dcg_cutoff_zero (r : list R) : Reference.ideal_dcg r 0 = 0.
Proof.
  unfold Reference.ideal_dcg. rewrite dcg_at_k_unfold, slice_to.
  unfold norm_index. cbn [Z.ltb Z.compare Z.min].
  destruct (Z.min_spec 0 (Z.of_nat (List.length (sorted_reverse r))))
    as [[_ ->] | [H ->]].
  - reflexivity.
  - replace (Z.of_nat (List.length (sorted_reverse r))) with 0%Z by lia.
    reflexivity.
Qed.

Lemma mean_cutoff_zero (ndcgs : list (list R)) :
  Reference.mean ndcgs 0 = Raise ZeroDivisionError.
Proof.
  unfold Reference.mean.
  assert (Hideal : Forall (fun r => Reference.ideal_dcg r 0 = 0) ndcgs).
  { apply Forall_forall. intros r _. apply ideal_dcg_cutoff_zero. }
  rewrite (proj2 (forallb_ideal_zero ndcgs 0) Hideal).
  destruct (Z.eqb_spec (Reference.nonzero_count ndcgs 0) 0) as [_ | Hc];
    [reflexivity|].
  apply positive_count_ideal in Hc.
  rewrite (proj2 (forallb_ideal_zero ndcgs 0) Hideal) in Hc. discriminate.
Qed.

Lemma mean_raises_only (ndcgs : list (list R)) (k : Z) (e : exn) :
  Reference.mean ndcgs k = Raise e -> e = ZeroDivisionError.
Proof.
  unfold Reference.mean.
  destruct (_ =? _)%Z; [destruct (forallb _ _)|]; congruence.
Qed.

Lemma collect_some_raise {A B : Type} (f : A -> result B) (e : exn)
    (l : list A) :
  (forall a e', f a = Raise e' -> e' = e) ->
  (exists a, In a l /\ f a = Raise e) ->
  collect (map f l) = Raise e.
Proof.
  intros Honly (a & Hin & Ha).
  induction l as [|b l IH]; [contradiction|].
  cbn [map collect].
  destruct (f b) as [v | e'] eqn:Hb; cbn [bind].
  - destruct Hin as [-> | Hin]; [congruence|].
    now rewrite (IH Hin).
  - f_equal. now apply (Honly b).
Qed.

Lemma mean_no_sequences (k : Z) : Reference.mean [] k = Raise ZeroDivisionError.
Proof. reflexivity. Qed.

(** Where [get_range_ndcg] cannot give a value: a range that holds the
    cutoff 0 (nothing is kept of any sequence there), and any non-empty
    range when there are no sequences, end in [ZeroDivisionError]; and it
    raises nothing else. *)
Theorem get_range_ndcg_division_by_zero (ndcgs : list (list R))
    (k_start k_end : Z) :
  ((k_start <= 0 < k_end)%Z ->
   get_range_ndcg ndcgs k_start k_end = Raise ZeroDivisionError)
  /\ ((k_start < k_end)%Z ->
      get_range_ndcg [] k_start k_end = Raise ZeroDivisionError)
  /\ (forall e, get_range_ndcg ndcgs k_start k_end = Raise e ->
                e = ZeroDivisionError).
Proof.
  repeat split.
  - intros Hk. rewrite get_range_ndcg_collect.
    apply collect_some_raise.
    + intros k e. apply mean_raises_only.
    + exists 0%Z. split; [now apply range_In | apply mean_cutoff_zero].
  - intros Hk. rewrite get_range_ndcg_collect.
    apply collect_some_raise.
    + intros k e. apply mean_raises_only.
    + exists k_start. split; [apply range_In; lia | reflexivity].
  - intros e. rewrite get_range_ndcg_collect.
    generalize (range k_start k_end). intros ks.
    induction ks as [|k ks IH]; cbn [map collect]; [discriminate|].
    destruct (Reference.mean ndcgs k) eqn:Hk; cbn [bind].
    + destruct (collect (map (Reference.mean ndcgs) ks)); cbn [bind];
        [discriminate|].
      intros H. apply IH. congruence.
    + intros H. injection H as <-. now apply mean_raises_only in Hk.
Qed.

Lemma get_range_ndcg_division_by_zero_witness :
  get_range_ndcg [[3; 2]; [1]] (-1) 3 = Raise ZeroDivisionError.
Proof.
  apply (proj1 (get_range_ndcg_division_by_zero [[3; 2]; [1]] (-1) 3)). lia.
Defined.

End RangeMore.

(** ** The table of NDCG values *)

Section EvaluateNdcg.

Local Open Scope R_scope.

Lemma dict_set_fresh {V : Type} (key : string) (v : V) (d : list (string * V)) :
  ~ In key (map fst d) -> dict_set key v d = d ++ [(key, v)].
Proof.
  induction d as [|[key' v'] d IH]; intros Hfresh; [reflexivity|].
  cbn [dict_set map fst In] in *.
  destruct (String.eqb_spec key' key) as [-> | _];
    [exfalso; auto|].
  cbn [app]. f_equal. apply IH. auto.
Qed.

Lemma collect_length {A B : Type} (f : A -> result B) (l : list A)
    (bs : list B) :
  collect (map f l) = Ok bs -> List.length bs = List.length l.
Proof.
  revert bs. induction l as [|a l IH]; intros bs; cbn [map collect].
  - intros H. now injection H as <-.
  - destruct (f a); cbn [bind]; [|discriminate].
    destruct (collect (map f l)); cbn [bind]; [|discriminate].
    intros H. injection H as <-. cbn [List.length]. f_equal. now apply IH.
Qed.

Lemma get_range_ndcg_length (ndcgs : list (list R)) (k_start k_end : Z)
    (results : list number) :
  get_range_ndcg ndcgs k_start k_end = Ok results ->
  List.length results = Z.to_nat (k_end - k_start).
Proof.
  rewrite get_range_ndcg_collect. intros H.
  apply collect_length in H. now rewrite H, range_length.
Qed.

(** The loop that fills the dictionary, from a dictionary [d0]. *)
Lemma fill_loop (k_start k_end : Z)
    (ranking_results : list (string * list (list R))) :
  forall d0 : list (string * list number),
    NoDup (map fst d0 ++ map fst ranking_results) ->
    for_each ranking_results
      (fun item d =>
         let '(key, value) := item in
         ndcgs <- get_range_ndcg value k_start (k_end + 1) ;;
         Ok (dict_set key ndcgs d))
      d0 =
    (cols <- collect (map (fun item => get_range_ndcg (snd item) k_start
                                         (k_end + 1)) ranking_results) ;;
     Ok (d0 ++ combine (map fst ranking_results) cols)).
Proof.
  induction ranking_results as [|[key value] rr IH]; intros d0 Hnd.
  - cbn. now rewrite app_nil_r.
  - cbn [for_each map collect fst snd].
    destruct (get_range_ndcg value k_start (k_end + 1)) as [col | e];
      cbn [bind]; [|reflexivity].
    rewrite dict_set_fresh.
    + rewrite IH.
      * destruct (collect _) as [cols | e]; cbn [bind]; [|reflexivity].
        cbn [combine]. now rewrite <- app_assoc.
      * rewrite map_app. cbn [map fst]. now rewrite <- app_assoc.
    + cbn [map fst] in Hnd. apply NoDup_remove_2 in Hnd.
      intros Hin. apply Hnd. apply in_or_app. now left.
Qed.

Lemma pd_DataFrame_uniform (data : list (string * list number)) (n : nat) :
  data <> [] ->
  Forall (fun kc => List.length (snd kc) = n) data ->
  pd_DataFrame data =
  Ok {| index := range 0 (Z.of_nat n); columns := data |}.
Proof.
  intros Hne Hall. destruct data as [|[key c] rest]; [congruence|].
  inversion Hall as [|? ? Hc Hrest]; subst. cbn [snd] in *.
  cbn [pd_DataFrame].
  replace (forallb _ rest) with true; [reflexivity|].
  symmetry. apply forallb_forall. intros kc Hin.
  rewrite Forall_forall in Hrest. apply Nat.eqb_eq. now apply Hrest.
Qed.

Lemma Forall_combine_snd {A B : Type} (P : B -> Prop) (l : list A)
    (l' : list B) :
  Forall P l' -> Forall (fun ab => P (snd ab)) (combine l l').
Proof.
  intros H. revert l. induction H as [|b l' Hb _ IH]; intros [|a l];
    cbn [combine]; constructor; auto.
Qed.

(** What [evaluate_ndcg] computes, in one formula: the columns are what
    [get_range_ndcg] returns for each series over the cutoffs [k_start] to
    [k_end], the last included, and the rows are labelled with these
    cutoffs. *)
Lemma evaluate_ndcg_unfold (k_start k_end : Z) (plot show_lift : bool)
    (ranking_results : list (string * list (list R))) :
  NoDup (map fst ranking_results) ->
  evaluate_ndcg k_start k_end plot show_lift ranking_results =
  (cols <- collect (map (fun item => get_range_ndcg (snd item) k_start
                                       (k_end + 1)) ranking_results) ;;
   Ok {| index := range k_start (k_end + 1);
         columns := combine (map fst ranking_results) cols |}).
Proof.
  intros Hnd. unfold evaluate_ndcg.
  rewrite (fill_loop k_start k_end ranking_results []) by assumption.
  destruct (collect _) as [cols | e] eqn:Hcols; cbn [bind app];
    [|reflexivity].
  destruct ranking_results as [|item rr].
  - cbn in Hcols. injection Hcols as <-. reflexivity.
  - assert (Hlen : Forall (fun c => List.length c = Z.to_nat (k_end + 1 - k_start))
                     cols).
    { clear Hnd. revert cols Hcols.
      generalize (item :: rr). intros l.
      induction l as [|it l IH]; intros cols; cbn [map collect].
      - intros H. injection H as <-. constructor.
      - destruct (get_range_ndcg (snd it) k_start (k_end + 1)) eqn:Hg;
          cbn [bind]; [|discriminate].
        destruct (collect _); cbn [bind]; [|discriminate].
        intros H. injection H as <-. constructor; [|now apply IH].
        now apply get_range_ndcg_length in Hg. }
    pose proof (collect_length _ _ _ Hcols) as Hn. cbn [List.length] in Hn.
    destruct cols as [|c cols]; [discriminate|].
    rewrite (pd_DataFrame_uniform _ (Z.to_nat (k_end + 1 - k_start))).
    + cbn [bind]. unfold set_axis. cbn [index columns].
      destruct item as [key value]. cbn [map fst combine].
      rewrite !range_length.
      replace (Z.to_nat (Z.of_nat (Z.to_nat (k_end + 1 - k_start)) - 0))
        with (Z.to_nat (k_end + 1 - k_start)) by lia.
      now rewrite Nat.eqb_refl.
    + cbn. destruct item. discriminate.
    + now apply (Forall_combine_snd
                   (fun c => List.length c = Z.to_nat (k_end + 1 - k_start))).
Qed.



Lemma get_range_ndcg_counted (ndcgs : list (list R)) (k_start k_end : Z) :
  (forall k, (k_start <= k < k_end)%Z ->
             Reference.nonzero_count ndcgs k <> 0%Z) ->
  get_range_ndcg ndcgs k_start k_end =
  Ok (map (fun k =>
             NpFloat64
               (Finite (Reference.ndcg_total ndcgs k
                        / IZR (Reference.nonzero_count ndcgs k))))
          (range k_start k_end)).
Proof.
  intros Hall. rewrite get_range_ndcg_collect.
  apply collect_all_ok. intros k Hk. apply range_In in Hk.
  now apply mean_counted, Hall.
Qed.

Lemma evaluate_ndcg_table_aux (k_start k_end : Z) (plot show_lift : bool)
    (ranking_results : list (string * list (list R))) :
  NoDup (map fst ranking_results) ->
  ranking_results <> [] ->
  (forall item k,
      In item ranking_results -> (k_start <= k <= k_end)%Z ->
      Reference.nonzero_count (snd item) k <> 0%Z) ->
  evaluate_ndcg k_start k_end plot show_lift ranking_results =
  Ok {| index := range k_start (k_end + 1);
        columns := map (mean_column k_start k_end) ranking_results |}.
Proof.
  intros Hnd Hne Hall. rewrite evaluate_ndcg_unfold by assumption.
  rewrite (collect_all_ok _ (fun item => snd (mean_column k_start k_end item))).
  - cbn [bind]. do 2 f_equal. clear.
    induction ranking_results as [|it l IH]; [reflexivity|].
    cbn [map combine]. now rewrite IH.
  - intros item Hin. cbn [mean_column snd].
    apply get_range_ndcg_counted. intros k Hk. apply (Hall item k Hin). lia.
Qed.

(** [evaluate_ndcg] takes its range with both ends: with at least one
    series, and at every cutoff from [k_start] to [k_end] a non-zero NDCG
    in each series, it returns the table whose rows are the cutoffs
    [k_start .. k_end] and whose columns, in the order the series were
    given, hold the mean NDCG of each series at each cutoff. *)
Theorem evaluate_ndcg_table (k_start k_end : Z) (plot show_lift : bool)
    (ranking_results : list (string * list (list R))) :
  NoDup (map fst ranking_results) ->
  ranking_results <> [] ->
  (forall item k,
      In item ranking_results -> (k_start <= k <= k_end)%Z ->
      Reference.nonzero_count (snd item) k <> 0%Z) ->
  evaluate_ndcg k_start k_end plot show_lift ranking_results =
  Ok {| index := range k_start (k_end + 1);
        columns := map (mean_column k_start k_end) ranking_results |}.
Proof. exact (evaluate_ndcg_table_aux k_start k_end plot show_lift _). Qed.

(** One series, of a sequence with gain and one without, at cutoff 1. *)
Lemma evaluate_ndcg_table_witness :
  evaluate_ndcg 1 1 false false [("model"%string, [[1]; [0]])] =
  Ok {| index := range 1 (1 + 1);
        columns := map (mean_column 1 1) [("model"%string, [[1]; [0]])] |}.
Proof.
  apply (evaluate_ndcg_table 1 1 false false [("model"%string, [[1]; [0]])]).
  - repeat constructor. intros [].
  - discriminate.
  - intros item k [<- | []] Hk. replace k with 1%Z by lia.
    cbn [snd]. rewrite nonzero_count_mixed. discriminate.
Defined.

Lemma evaluate_ndcg_example :
  evaluate_ndcg 1 1 false false [("model"%string, [[1]; [0]])] =
  Ok {| index := range 1 (1 + 1);
        columns := map (mean_column 1 1) [("model"%string, [[1]; [0]])] |}.
Proof.
  apply evaluate_ndcg_table_aux.
  - repeat constructor. intros [].
  - discriminate.
  - intros item k [<- | []] Hk. replace k with 1%Z by lia.
    cbn [snd]. rewrite nonzero_count_mixed. discriminate.
Qed.


(** Whatever table [evaluate_ndcg] returns has the cutoffs
    [k_start .. k_end] as row labels and, for each series in turn, a column
    under its name holding what [get_range_ndcg] returns for it over these
    cutoffs, one value per row. *)
Theorem evaluate_ndcg_returns (k_start k_end : Z) (plot show_lift : bool)
    (ranking_results : list (string * list (list R))) (df : frame) :
  NoDup (map fst ranking_results) ->
  evaluate_ndcg k_start k_end plot show_lift ranking_results = Ok df ->
  index df = range k_start (k_end + 1)
  /\ Forall2 (fun item col =>
                fst col = fst item
                /\ get_range_ndcg (snd item) k_start (k_end + 1)
                   = Ok (snd col)
                /\ List.length (snd col) = List.length (index df))
       ranking_results (columns df).
Proof.
  intros Hnd. rewrite evaluate_ndcg_unfold by assumption.
  destruct (collect _) as [cols | e] eqn:Hcols; cbn [bind]; [|discriminate].
  assert (Hcolumns :
            Forall2 (fun item col =>
                       fst col = fst item
                       /\ get_range_ndcg (snd item) k_start (k_end + 1)
                          = Ok (snd col)
                       /\ List.length (snd col)
                          = List.length (range k_start (k_end + 1)))
              ranking_results (combine (map fst ranking_results) cols)).
  { clear Hnd. revert cols Hcols.
    induction ranking_results as [|it l IH]; intros cols; cbn [map collect].
    - intros _. constructor.
    - destruct (get_range_ndcg (snd it) k_start (k_end + 1)) as [c | e]
        eqn:Hg; cbn [bind]; [|discriminate].
      destruct (collect _) as [cs | e]; cbn [bind]; [|discriminate].
      intros H. injection H as <-. cbn [combine]. constructor.
      + cbn [fst snd]. split; [reflexivity | split; [exact Hg|]].
        rewrite range_length. now apply get_range_ndcg_length in Hg.
      + now apply IH. }
  intros Heq. injection Heq as <-. cbn [index columns]. now split.
Qed.

Lemma evaluate_ndcg_returns_witness :
  index {| index := range 1 (1 + 1);
           columns := map (mean_column 1 1) [("model"%string, [[1]; [0]])] |}
  = range 1 (1 + 1)
  /\ Forall2 (fun item col =>
                fst col = fst item
                /\ get_range_ndcg (snd item) 1 (1 + 1) = Ok (snd col)
                /\ List.length (snd col)
                   = List.length
                       (index {| index := range 1 (1 + 1);
                                 columns := map (mean_column 1 1)
                                              [("model"%string, [[1]; [0]])] |}))
       [("model"%string, [[1]; [0]])]
       (columns {| index := range 1 (1 + 1);
                   columns := map (mean_column 1 1)
                                [("model"%string, [[1]; [0]])] |}).
Proof.
  apply (evaluate_ndcg_returns 1 1 false false).
  - repeat constructor. intros [].
  - exact evaluate_ndcg_example.
Defined.



End EvaluateNdcg.

(** ** More on the converter *)

Section ConverterMore.

Variable S : Sorter.
Hypothesis S_sound : sound S.

Lemma map_eq_pointwise {A B : Type} (f g : A -> B) (l : list A) :
  map f l = map g l -> forall a, In a l -> f a = g a.
Proof.
  induction l as [|x l IH]; intros Heq a Ha; [contradiction|].
  cbn [map] in Heq. injection Heq as Hx Hl.
  destruct Ha as [<- | Ha]; auto.
Qed.

(** Writing at every position leaves nothing of what the array held. *)
Lemma scatter_covers {A : Type} (arr1 arr2 : list A) (idxs : list nat)
    (vals : list A) :
  Permutation idxs (seq 0 (List.length idxs)) ->
  List.length arr1 = List.length idxs ->
  List.length arr2 = List.length idxs ->
  List.length vals = List.length idxs ->
  scatter arr1 idxs vals = scatter arr2 idxs vals.
Proof.
  intros Hp H1 H2 Hv.
  destruct vals as [|d vals'] eqn:Hvals.
  { destruct idxs; [|discriminate].
    destruct arr1, arr2; try discriminate. reflexivity. }
  rewrite <- Hvals in *. clear Hvals vals'.
  destruct (positions_facts _ _ Hp) as (Hnd & Hin & _).
  assert (Hr1 := scatter_read arr1 idxs vals d Hnd).
  assert (Hr2 := scatter_read arr2 idxs vals d Hnd).
  rewrite H1 in Hr1. rewrite H2 in Hr2.
  specialize (Hr1 Hin Hv). specialize (Hr2 Hin Hv).
  apply (nth_ext _ _ d d).
  - now rewrite !scatter_length, H1, H2.
  - intros i Hi. rewrite scatter_length, H1 in Hi.
    assert (Hi' : In i idxs).
    { apply (Permutation_in _ (Permutation_sym Hp)), in_seq. lia. }
    pose proof (eq_trans Hr1 (eq_sym Hr2)) as Heq.
    exact (map_eq_pointwise _ _ _ Heq i Hi').
Qed.

Lemma argsort_self_positions (a : list Q) :
  Permutation (argsort S a) (seq 0 (List.length (argsort S a))).
Proof.
  rewrite (argsort_length S S_sound). now apply argsort_positions.
Qed.

Lemma argsort_in_range (junk : nat -> Z) (a : list Q) :
  forallb (fun i => (i <? List.length (empty_like junk (argsort S a)))%nat)
    (argsort S a) = true.
Proof.
  apply forallb_forall. intros i Hi. rewrite empty_like_length.
  apply (Permutation_in _ (argsort_self_positions a)), in_seq in Hi.
  apply Nat.ltb_lt. lia.
Qed.

Lemma assign_at_junk (junk1 junk2 : nat -> Z) (a vals : list Q) :
  assign_at (empty_like junk1 (argsort S a)) (argsort S a) vals =
  assign_at (empty_like junk2 (argsort S a)) (argsort S a) vals.
Proof.
  unfold assign_at. rewrite !argsort_in_range. cbn [negb].
  destruct (Nat.eqb_spec (List.length vals) (List.length (argsort S a)))
    as [Hlen | _].
  - f_equal. apply scatter_covers.
    + apply argsort_self_positions.
    + apply empty_like_length.
    + apply empty_like_length.
    + now rewrite length_map.
  - destruct vals as [|v [|? ?]]; try reflexivity.
    f_equal. apply scatter_covers.
    + apply argsort_self_positions.
    + apply empty_like_length.
    + apply empty_like_length.
    + apply repeat_length.
Qed.

Lemma query_step_junk (junk1 junk2 : nat -> Z) (predictions : list Q)
    (X_test : DataFrame) (y_test : list Q) (c : Z) (st : state) :
  query_step S junk1 predictions X_test y_test c st =
  query_step S junk2 predictions X_test y_test c st.
Proof.
  destruct st as [[[[start e] mj] aj] bl]. unfold query_step. cbv zeta.
  rewrite (assign_at_junk junk1 junk2).
  match goal with
  | |- bind ?c _ = _ => destruct c as [j | err]
  end; cbn [bind]; [|reflexivity].
  destruct (column X_test "@search.score") as [col | err]; cbn [bind];
    [|reflexivity].
  now rewrite (assign_at_junk junk1 junk2).
Qed.

Lemma for_each_ext {A St : Type} (f g : A -> St -> result St) (l : list A) :
  (forall a s, f a s = g a s) ->
  forall s, for_each l f s = for_each l g s.
Proof.
  intros H. induction l as [|a l IH]; intros s; [reflexivity|].
  cbn [for_each]. rewrite H. destruct (g a s); cbn [bind]; auto.
Qed.

(** Nothing of the uninitialised arrays [np.empty_like] allocates gets out:
    whatever they hold, the converter returns the same, on every input. *)
Theorem judgments_initialised (junk1 junk2 : nat -> Z) (predictions : list Q)
    (query_doc_counts : list Z) (X_test : DataFrame) (y_test : list Q) :
  compute_judgments_after_training S junk1 predictions query_doc_counts
    X_test y_test =
  compute_judgments_after_training S junk2 predictions query_doc_counts
    X_test y_test.
Proof.
  unfold compute_judgments_after_training.
  now rewrite (for_each_ext _ _ query_doc_counts
                 (query_step_junk junk1 junk2 predictions X_test y_test)).
Qed.

Lemma assign_at_raises (junk : nat -> Z) (a vals : list Q) (e : exn) :
  assign_at (empty_like junk (argsort S a)) (argsort S a) vals = Raise e ->
  e = ValueError.
Proof.
  unfold assign_at. rewrite argsort_in_range. cbn [negb].
  destruct (_ =? _)%nat; [discriminate|].
  destruct vals as [|v [|? ?]]; congruence.
Qed.

Lemma column_raises (X_test : DataFrame) (name : string) (e : exn) :
  column X_test name = Raise e -> e = KeyError.
Proof.
  induction X_test as [|[n c] df IH]; cbn [column]; [congruence|].
  destruct (String.eqb n name); [discriminate | assumption].
Qed.

Lemma query_step_raises (junk : nat -> Z) (predictions : list Q)
    (X_test : DataFrame) (y_test : list Q) (c : Z) (st : state) (e : exn) :
  query_step S junk predictions X_test y_test c st = Raise e ->
  e = ValueError \/ e = KeyError.
Proof.
  destruct st as [[[[start e0] mj] aj] bl]. unfold query_step. cbv zeta.
  match goal with
  | |- bind ?c _ = _ -> _ => destruct c as [j | err] eqn:H1
  end; cbn [bind].
  - destruct (column X_test "@search.score") as [col | err] eqn:H2;
      cbn [bind].
    + match goal with
      | |- bind ?c _ = _ -> _ => destruct c as [j' | err] eqn:H3
      end; cbn [bind].
      * intros H. discriminate H.
      * intros H. injection H as <-. left. now apply assign_at_raises in H3.
    + intros H. injection H as <-. right. now apply column_raises in H2.
  - intros H. injection H as <-. left. now apply assign_at_raises in H1.
Qed.

(** The converter raises no index error, whatever the lengths of its
    inputs: slices are cut to what is there.  It fails only on an
    assignment of the wrong shape ([ValueError]) or a missing score
    column ([KeyError]). *)
Theorem judgments_exceptions (junk : nat -> Z) (predictions : list Q)
    (query_doc_counts : list Z) (X_test : DataFrame) (y_test : list Q)
    (e : exn) :
  compute_judgments_after_training S junk predictions query_doc_counts
    X_test y_test = Raise e ->
  e = ValueError \/ e = KeyError.
Proof.
  unfold compute_judgments_after_training.
  generalize (0%Z, 0%Z, @nil (list Z), @nil (list Z), @nil (list Q)).
  induction query_doc_counts as [|c cs IH]; intros st; cbn [for_each bind].
  - destruct st as [[[[? ?] ?] ?] ?]. cbn. intros H. discriminate H.
  - destruct (query_step S junk predictions X_test y_test c st) as [st' | err]
      eqn:Hstep; cbn [bind].
    + apply IH.
    + intros H. injection H as <-. now apply query_step_raises in Hstep.
Qed.

End ConverterMore.

Lemma judgments_initialised_witness :
  compute_judgments_after_training insertion (fun _ => 0%Z)
    [3 # 10; -1; 2]%Q [2%Z; 1%Z] [("@search.score"%string, [5; 4; 1]%Q)]
    [1; 0; 2]%Q =
  compute_judgments_after_training insertion (fun i => (Z.of_nat i + 7)%Z)
    [3 # 10; -1; 2]%Q [2%Z; 1%Z] [("@search.score"%string, [5; 4; 1]%Q)]
    [1; 0; 2]%Q.
Proof. apply (judgments_initialised insertion insertion_sound). Defined.

(** No score column. *)
Lemma judgments_exceptions_witness :
  KeyError = ValueError \/ KeyError = KeyError.
Proof.
  apply (judgments_exceptions insertion insertion_sound (fun _ => 0%Z)
           [1; 2]%Q [2%Z] [] [1; 2]%Q).
  reflexivity.
Defined.

(** ** Judgments follow the scores *)

Section Monotone.

Lemma quot_num_den (q q' : Q) :
  Z.quot (Qnum q) (Z.pos (Qden q)) =
  Z.quot (Qnum q * Z.pos (Qden q')) (Z.pos (Qden q) * Z.pos (Qden q')).
Proof. symmetry. apply Z.quot_mul_cancel_r; discriminate. Qed.

(** The integer part does not decrease with the label. *)
Lemma integer_part_monotone (q1 q2 : Q) :
  (q1 <= q2)%Q ->
  (Z.quot (Qnum q1) (Z.pos (Qden q1)) <= Z.quot (Qnum q2) (Z.pos (Qden q2)))%Z.
Proof.
  unfold Qle. intros Hle.
  rewrite (quot_num_den q1 q2), (quot_num_den q2 q1).
  rewrite (Z.mul_comm (Z.pos (Qden q2)) (Z.pos (Qden q1))).
  apply Z.quot_le_mono; [lia | assumption].
Qed.

Lemma to_int64_monotone (q1 q2 : Q) :
  fits_int64 q1 -> fits_int64 q2 -> (q1 <= q2)%Q ->
  (to_int64 q1 <= to_int64 q2)%Z.
Proof.
  unfold fits_int64, to_int64. intros -> -> Hle.
  now apply integer_part_monotone.
Qed.

Lemma StronglySorted_nth {A : Type} (R : A -> A -> Prop) (l : list A) (d : A) :
  StronglySorted R l ->
  forall i j, (i < j)%nat -> (j < List.length l)%nat ->
              R (nth i l d) (nth j l d).
Proof.
  induction 1 as [|x l Hs IH Hx]; intros i j Hij Hj; [cbn in Hj; lia|].
  destruct j as [|j]; [lia|]. cbn [List.length] in Hj.
  destruct i as [|i]; cbn [nth].
  - rewrite Forall_forall in Hx. apply Hx, nth_In. lia.
  - apply IH; lia.
Qed.

Lemma map_eq_nth {A B C : Type} (f : A -> C) (g : B -> C) (l : list A)
    (l' : list B) (da : A) (db : B) :
  map f l = map g l' ->
  forall j, (j < List.length l)%nat -> f (nth j l da) = g (nth j l' db).
Proof.
  revert l'. induction l as [|a l IH]; intros [|b l'] Heq j Hj;
    try discriminate; [cbn in Hj; lia|].
  cbn [map] in Heq. cbn [List.length] in Hj.
  destruct j as [|j]; cbn [nth]; [congruence|].
  apply IH; [congruence | lia].
Qed.

Variable S : Sorter.
Variable junk : nat -> Z.
Hypothesis S_sound : sound S.

(** One query: a document scored below another is not judged above it. *)
Lemma ranked_labels_follow (scores labels : list Q) :
  List.length labels = List.length scores ->
  Forall fits_int64 labels ->
  follows_scores (ranked_labels S junk scores labels) scores.
Proof.
  intros Hlen Hfit a b Ha Hb Hab.
  destruct S_sound as [Harg Hsort].
  destruct (Harg scores) as [Hp Hps]. destruct (Hsort labels) as [Hl Hls].
  apply Sorted_StronglySorted in Hps; [|apply Qle_transitive].
  apply Sorted_StronglySorted in Hls; [|apply Qle_transitive].
  set (p := argsort S scores) in *. set (s := sort_values S labels) in *.
  destruct (positions_facts _ _ Hp) as (Hnd & Hin & Hn).
  assert (Hs : List.length s = List.length scores)
    by now rewrite <- (Permutation_length Hl).
  assert (Hread : map (fun i => nth i (ranked_labels S junk scores labels) 0%Z) p
                  = map to_int64 s).
  { unfold ranked_labels. fold p s. apply scatter_read; try assumption.
    - now rewrite empty_like_length, Hn.
    - rewrite length_map. lia. }
  assert (Hpos : forall i, (i < List.length scores)%nat ->
                   exists j, (j < List.length scores)%nat /\ nth j p 0%nat = i).
  { intros i Hi.
    assert (Hi' : In i p)
      by (apply (Permutation_in _ (Permutation_sym Hp)), in_seq; lia).
    destruct (In_nth _ _ 0%nat Hi') as (j & Hj & Hnth).
    exists j. split; [lia | assumption]. }
  destruct (Hpos a Ha) as (ja & Hja & Hpa).
  destruct (Hpos b Hb) as (jb & Hjb & Hpb).
  assert (Hat : forall j, (j < List.length scores)%nat ->
                  nth (nth j p 0%nat) (ranked_labels S junk scores labels) 0%Z
                  = to_int64 (nth j s 0%Q)).
  { intros j Hj. apply (map_eq_nth _ _ _ _ 0%nat 0%Q Hread). lia. }
  rewrite <- Hpa, <- Hpb, !Hat by assumption.
  assert (Hjab : (ja < jb)%nat).
  { destruct (Nat.lt_trichotomy ja jb) as [Hlt | [-> | Hgt]]; [assumption| |].
    - rewrite Hpa in Hpb. subst b. now apply Qlt_irrefl in Hab.
    - exfalso.
      pose proof (StronglySorted_nth Qle _ 0%Q Hps jb ja Hgt) as Hle.
      rewrite length_map in Hle. specialize (Hle ltac:(lia)).
      rewrite (nth_indep _ 0%Q ((fun i => nth i scores 0%Q) 0%nat)) in Hle
        by (rewrite length_map; lia).
      rewrite (nth_indep (map _ p) 0%Q ((fun i => nth i scores 0%Q) 0%nat))
        in Hle by (rewrite length_map; lia).
      rewrite !(map_nth (fun i => nth i scores 0%Q)) in Hle.
      rewrite Hpa, Hpb in Hle.
      now apply (Qlt_not_le _ _ Hab). }
  assert (Hfits : Forall fits_int64 s).
  { apply Forall_forall. intros q Hq. rewrite Forall_forall in Hfit.
    apply Hfit. now apply (Permutation_in _ (Permutation_sym Hl)). }
  rewrite Forall_forall in Hfits.
  apply to_int64_monotone.
  - apply Hfits, nth_In. lia.
  - apply Hfits, nth_In. lia.
  - apply (StronglySorted_nth Qle s 0%Q Hls); lia.
Qed.

Lemma ranked_queries_follow (counts : list Z) :
  forall scores labels : list Q,
    Forall (fun c => (0 <= c)%Z) counts ->
    (total counts <= Z.of_nat (List.length scores))%Z ->
    (total counts <= Z.of_nat (List.length labels))%Z ->
    Forall fits_int64 labels ->
    Forall2 follows_scores (ranked_queries S junk scores labels counts)
      (query_slices scores counts).
Proof.
  induction counts as [|c cs IH]; intros scores labels Hcs Hs Hl Hfit;
    [constructor|].
  inversion Hcs as [|? ? Hc Hcs']; subst.
  cbn [total fold_right] in Hs, Hl. fold (total cs) in Hs, Hl.
  pose proof (total_nonneg cs Hcs') as Ht.
  rewrite ranked_queries_cons. cbn [query_slices]. constructor.
  - apply ranked_labels_follow.
    + rewrite !length_firstn. lia.
    + now apply Forall_firstn.
  - apply IH; try assumption; try (rewrite length_skipn; lia).
    now apply Forall_skipn.
Qed.

End Monotone.

(** The converter keeps the order of the scores: within each query, a
    document with a lower model score never gets a higher model judgment
    than one with a higher score, and likewise for the secondary scores,
    for labels whose integer part an int64 holds. *)
Theorem judgments_follow_scores (S : Sorter) (junk : nat -> Z)
    (predictions : list Q) (query_doc_counts : list Z) (X_test : DataFrame)
    (search_score y_test : list Q) :
  sound S ->
  column X_test "@search.score"%string = Ok search_score ->
  Forall (fun c => (0 <= c)%Z) query_doc_counts ->
  total query_doc_counts = Z.of_nat (List.length predictions) ->
  total query_doc_counts = Z.of_nat (List.length search_score) ->
  total query_doc_counts = Z.of_nat (List.length y_test) ->
  Forall fits_int64 y_test ->
  exists model_judgments azs_judgments baseline,
    compute_judgments_after_training S junk predictions query_doc_counts
      X_test y_test = Ok (model_judgments, azs_judgments, baseline)
    /\ Forall2 follows_scores model_judgments
         (query_slices predictions query_doc_counts)
    /\ Forall2 follows_scores azs_judgments
         (query_slices search_score query_doc_counts).
Proof.
  intros HS HX Hcs Hp Hs Hy Hfit.
  rewrite (converter_result S junk HS predictions y_test search_score
             X_test HX) by (try assumption; lia).
  eexists _, _, _. split; [reflexivity|].
  split; apply ranked_queries_follow; try assumption; lia.
Qed.

Lemma judgments_follow_scores_witness :
  exists model_judgments azs_judgments baseline,
    compute_judgments_after_training insertion (fun _ => 0%Z)
      [3 # 10; -1; 2]%Q [2%Z; 1%Z] [("@search.score"%string, [5; 4; 1]%Q)]
      [1; 0; 5 # 2]%Q = Ok (model_judgments, azs_judgments, baseline)
    /\ Forall2 follows_scores model_judgments
         (query_slices [3 # 10; -1; 2]%Q [2%Z; 1%Z])
    /\ Forall2 follows_scores azs_judgments
         (query_slices [5; 4; 1]%Q [2%Z; 1%Z]).
Proof.
  apply (judgments_follow_scores insertion (fun _ => 0%Z) [3 # 10; -1; 2]%Q
           [2%Z; 1%Z] [("@search.score"%string, [5; 4; 1]%Q)] [5; 4; 1]%Q
           [1; 0; 5 # 2]%Q).
  - exact insertion_sound.
  - reflexivity.
  - repeat constructor; discriminate.
  - reflexivity.
  - reflexivity.
  - reflexivity.
  - repeat constructor.
Defined.

(** ** Counts, labels and columns that do not fit *)

Section ConverterEdges.

Variable S : Sorter.
Variable junk : nat -> Z.
Hypothesis S_sound : sound S.

(** A slice past the end is cut at the end. *)
Lemma slice_window_any {A : Type} (l : list A) (e c : Z) :
  (0 <= e)%Z -> (0 <= c)%Z ->
  slice l (Some e) (Some (e + c)%Z) =
  firstn (Z.to_nat c) (skipn (Z.to_nat e) l).
Proof.
  intros He Hc. unfold slice. rewrite !norm_index_nonneg by lia.
  destruct (Nat.le_gt_cases (List.length l) (Z.to_nat e)) as [Hout | Hin].
  - rewrite Nat.min_r by lia. rewrite !skipn_all2 by lia.
    now rewrite !firstn_nil.
  - rewrite (Nat.min_l (Z.to_nat e)) by lia.
    destruct (Nat.le_gt_cases (Z.to_nat (e + c)) (List.length l)) as [Hfit | Hpast].
    + rewrite Nat.min_l by lia. f_equal. lia.
    + rewrite Nat.min_r by lia.
      rewrite !firstn_all2; try reflexivity; rewrite length_skipn; lia.
Qed.

Lemma for_each_app {A St : Type} (body : A -> St -> result St) (xs ys : list A) :
  forall s,
    for_each (xs ++ ys) body s =
    (s' <- for_each xs body s ;; for_each ys body s').
Proof.
  induction xs as [|x xs IH]; intros s; [reflexivity|].
  cbn [app for_each]. destruct (body x s) as [s1|e]; cbn [bind]; auto.
Qed.

Lemma query_slices_app {A : Type} (l : list A) (cs1 cs2 : list Z) :
  Forall (fun c => (0 <= c)%Z) cs1 ->
  query_slices l (cs1 ++ cs2) =
  query_slices l cs1 ++ query_slices (skipn (Z.to_nat (total cs1)) l) cs2.
Proof.
  intros Hcs. revert l. induction Hcs as [|c cs Hc Hcs IH]; intros l;
    [reflexivity|].
  pose proof (total_nonneg cs Hcs) as Ht.
  cbn [app query_slices total fold_right]. fold (total cs). f_equal.
  rewrite IH, skipn_skipn.
  now replace (Z.to_nat (c + total cs))
    with (Z.to_nat (total cs) + Z.to_nat c)%nat by lia.
Qed.

Lemma query_slices_concat {A : Type} (counts : list Z) :
  forall l : list A,
    Forall (fun c => (0 <= c)%Z) counts ->
    (Z.of_nat (List.length l) <= total counts)%Z ->
    List.concat (query_slices l counts) = l.
Proof.
  induction counts as [|c cs IH]; intros l Hcs Hlen.
  - destruct l; [reflexivity|].
    cbn [total fold_right List.length] in Hlen. lia.
  - inversion Hcs as [|? ? Hc Hcs']; subst.
    cbn [total fold_right] in Hlen. fold (total cs) in Hlen.
    pose proof (total_nonneg cs Hcs') as Ht.
    cbn [query_slices List.concat]. rewrite IH; [apply firstn_skipn | assumption |].
    rewrite length_skipn. lia.
Qed.

Lemma query_slices_prefix {A : Type} (counts : list Z) :
  forall l t : list A,
    Forall (fun c => (0 <= c)%Z) counts ->
    (total counts <= Z.of_nat (List.length l))%Z ->
    query_slices (l ++ t) counts = query_slices l counts.
Proof.
  induction counts as [|c cs IH]; intros l t Hcs Hlen; [reflexivity|].
  inversion Hcs as [|? ? Hc Hcs']; subst.
  cbn [total fold_right] in Hlen. fold (total cs) in Hlen.
  pose proof (total_nonneg cs Hcs') as Ht.
  cbn [query_slices]. rewrite firstn_app, skipn_app.
  replace (Z.to_nat c - List.length l)%nat with 0%nat by lia.
  cbn [firstn skipn]. rewrite app_nil_r. f_equal.
  apply IH; [assumption|]. rewrite length_skipn. lia.
Qed.

(** Writing one value at every position fills the array with it. *)
Lemma scatter_repeat {A : Type} (arr : list A) (idxs : list nat) (x : A) :
  Permutation idxs (seq 0 (List.length arr)) ->
  scatter arr idxs (repeat x (List.length idxs)) = repeat x (List.length arr).
Proof.
  intros Hp. destruct (positions_facts _ _ Hp) as (Hnd & Hin & Hn).
  pose proof (scatter_read arr idxs (repeat x (List.length idxs)) x Hnd Hin
                (repeat_length _ _)) as Hread.
  pose proof (scatter_length arr idxs (repeat x (List.length idxs))) as Hsize.
  set (r := scatter arr idxs (repeat x (List.length idxs))) in *.
  rewrite <- (map_nth_seq r x), Hsize.
  assert (Hall : forall i, In i (seq 0 (List.length arr)) -> nth i r x = x).
  { intros i Hi. apply (Permutation_in _ (Permutation_sym Hp)) in Hi.
    apply (repeat_spec (List.length idxs) x). rewrite <- Hread.
    now apply (in_map (fun i => nth i r x)). }
  replace (repeat x (List.length arr))
    with (repeat x (List.length (seq 0 (List.length arr))))
    by now rewrite length_seq.
  clear - Hall. revert Hall. generalize (seq 0 (List.length arr)) as js.
  induction js as [|j js IH]; intros Hall; [reflexivity|].
  cbn [map List.length repeat]. f_equal.
  - apply Hall. now left.
  - apply IH. intros i Hi. apply Hall. now right.
Qed.

Lemma argsort_covers (a : list Q) :
  forallb (fun i => (i <? List.length (empty_like junk (argsort S a)))%nat)
    (argsort S a) = true.
Proof.
  apply forallb_forall. intros i Hi.
  rewrite (empty_like_length junk), (argsort_length S S_sound).
  apply (Permutation_in _ (argsort_positions S S_sound a)), in_seq in Hi.
  apply Nat.ltb_lt. lia.
Qed.

(** Fewer labels than scores, and not exactly one: the assignment fails. *)
Lemma judgments_of_shortage (scores labels : list Q) :
  List.length labels <> List.length scores ->
  List.length labels <> 1%nat ->
  judgments_of S junk scores labels = Raise ValueError.
Proof.
  intros Hlen Hone. unfold judgments_of, assign_at.
  rewrite argsort_covers. cbn [negb].
  rewrite (argsort_length S S_sound), (sort_values_length S S_sound).
  destruct (Nat.eqb_spec (List.length labels) (List.length scores));
    [contradiction|].
  pose proof (sort_values_length S S_sound labels) as Hs.
  destruct (sort_values S labels) as [|v [|w vs]]; try reflexivity.
  cbn in Hs. congruence.
Qed.

(** A single label is written at every position. *)
Lemma judgments_of_single (scores : list Q) (v : Q) :
  judgments_of S junk scores [v] =
  Ok (repeat (to_int64 v) (List.length scores)).
Proof.
  unfold judgments_of, assign_at. rewrite argsort_covers. cbn [negb].
  assert (Hs : sort_values S [v] = [v]).
  { apply Permutation_length_1_inv, (sort_values_perm S S_sound). }
  rewrite Hs.
  pose proof (argsort_length S S_sound scores) as Hn.
  pose proof (argsort_positions S S_sound scores) as Hp.
  assert (Hp' : Permutation (argsort S scores)
                  (seq 0 (List.length (empty_like junk (argsort S scores)))))
    by now rewrite (empty_like_length junk), Hn.
  pose proof (scatter_repeat _ _ (to_int64 v) Hp') as Hfill.
  rewrite (empty_like_length junk), Hn in Hfill.
  destruct (Nat.eqb_spec (List.length [v]) (List.length (argsort S scores)))
    as [Hone | Hmany].
  - rewrite Hn in Hone. rewrite <- Hone in Hfill. cbn [List.length] in Hfill.
    rewrite <- Hone. cbn [map List.length]. now f_equal.
  - rewrite Hn. now f_equal.
Qed.

Variables (predictions y_test : list Q) (X_test : DataFrame).

Lemma query_step_unfold (c e start : Z) (mj aj : list (list Z))
    (bl : list (list Q)) :
  (0 <= e)%Z -> (0 <= c)%Z ->
  query_step S junk predictions X_test y_test c (start, e, mj, aj, bl) =
  (judgments <-
     judgments_of S junk
       (firstn (Z.to_nat c) (skipn (Z.to_nat e) predictions))
       (firstn (Z.to_nat c) (skipn (Z.to_nat e) y_test)) ;;
   search_score <- column X_test "@search.score"%string ;;
   azs_judgments_for_query <-
     judgments_of S junk
       (firstn (Z.to_nat c) (skipn (Z.to_nat e) search_score))
       (firstn (Z.to_nat c) (skipn (Z.to_nat e) y_test)) ;;
   Ok (e, (e + c)%Z, mj ++ [judgments], aj ++ [azs_judgments_for_query],
       bl ++ [firstn (Z.to_nat c) (skipn (Z.to_nat e) y_test)])).
Proof.
  intros He Hc. unfold query_step, judgments_of. cbv zeta.
  rewrite !slice_window_any by assumption.
  destruct (assign_at _ _ _) as [j|ex]; cbn [bind]; [|reflexivity].
  destruct (column X_test "@search.score"%string) as [ss|ex]; cbn [bind];
    [|reflexivity].
  now rewrite !slice_window_any by assumption.
Qed.

Section WithColumn.

Variable search_score : list Q.
Hypothesis X_column : column X_test "@search.score"%string = Ok search_score.
Hypothesis predictions_length : List.length predictions = List.length y_test.
Hypothesis search_score_length : List.length search_score = List.length y_test.

Lemma query_loop_any (counts : list Z) :
  forall (e start : Z) (mj aj : list (list Z)) (bl : list (list Q)),
    (0 <= e)%Z ->
    Forall (fun c => (0 <= c)%Z) counts ->
    exists start',
      for_each counts (query_step S junk predictions X_test y_test)
        (start, e, mj, aj, bl) =
      Ok (start', (e + total counts)%Z,
          mj ++ ranked_queries S junk (skipn (Z.to_nat e) predictions)
                  (skipn (Z.to_nat e) y_test) counts,
          aj ++ ranked_queries S junk (skipn (Z.to_nat e) search_score)
                  (skipn (Z.to_nat e) y_test) counts,
          bl ++ query_slices (skipn (Z.to_nat e) y_test) counts).
Proof.
  induction counts as [|c cs IH]; intros e start mj aj bl He Hcs.
  - exists start. cbn. now rewrite Z.add_0_r, !app_nil_r.
  - inversion Hcs as [|? ? Hc Hcs']; subst.
    cbn [for_each]. rewrite query_step_unfold by assumption.
    rewrite (judgments_of_ok S junk S_sound)
      by (rewrite !length_firstn, !length_skipn; lia).
    cbn [bind]. rewrite X_column. cbn [bind].
    rewrite (judgments_of_ok S junk S_sound)
      by (rewrite !length_firstn, !length_skipn; lia).
    cbn [bind].
    match goal with
    | |- exists _, for_each _ _ (_, _, ?m, ?a, ?b) = _ =>
        destruct (IH (e + c)%Z e m a b ltac:(lia) Hcs') as (start' & ->)
    end.
    exists start'. unfold ranked_queries.
    cbn [total fold_right query_slices combine map fst snd].
    fold (total cs).
    replace (Z.to_nat (e + c)) with (Z.to_nat c + Z.to_nat e)%nat by lia.
    rewrite <- !skipn_skipn, <- !app_assoc. cbn [app].
    now rewrite Z.add_assoc.
Qed.

Lemma converter_result_any (counts : list Z) :
  Forall (fun c => (0 <= c)%Z) counts ->
  compute_judgments_after_training S junk predictions counts X_test y_test =
  Ok (ranked_queries S junk predictions y_test counts,
      ranked_queries S junk search_score y_test counts,
      query_slices y_test counts).
Proof.
  intros Hcs. unfold compute_judgments_after_training.
  destruct (query_loop_any counts 0 0 [] [] [] ltac:(lia) Hcs)
    as (start' & ->).
  reflexivity.
Qed.

End WithColumn.

End ConverterEdges.

(** The converter does not check the counts against the number of
    documents.  With as many predictions and secondary scores as labels and
    counts that are not negative it returns, whatever the counts add up to;
    when they add up to the number of documents or more, the baseline
    groups together are all of [y_test], the groups past the end being
    short or empty. *)
Theorem judgments_counts_unchecked (S : Sorter) (junk : nat -> Z)
    (predictions : list Q) (query_doc_counts : list Z) (X_test : DataFrame)
    (search_score y_test : list Q) :
  sound S ->
  column X_test "@search.score"%string = Ok search_score ->
  List.length predictions = List.length y_test ->
  List.length search_score = List.length y_test ->
  Forall (fun c => (0 <= c)%Z) query_doc_counts ->
  compute_judgments_after_training S junk predictions query_doc_counts
    X_test y_test =
  Ok (ranked_queries S junk predictions y_test query_doc_counts,
      ranked_queries S junk search_score y_test query_doc_counts,
      query_slices y_test query_doc_counts)
  /\ ((Z.of_nat (List.length y_test) <= total query_doc_counts)%Z ->
      List.concat (query_slices y_test query_doc_counts) = y_test).
Proof.
  intros HS HX Hp Hs Hcs. split.
  - now apply (converter_result_any S junk HS predictions y_test X_test
                 search_score).
  - intros Hlen. now apply query_slices_concat.
Qed.

(** Five documents are announced, three exist. *)
Lemma judgments_counts_unchecked_witness :
  compute_judgments_after_training insertion (fun _ => 0%Z)
    [3 # 10; -1; 2]%Q [2%Z; 3%Z; 0%Z; 4%Z]
    [("@search.score"%string, [5; 4; 1]%Q)] [1; 0; 2]%Q =
  Ok (ranked_queries insertion (fun _ => 0%Z) [3 # 10; -1; 2]%Q [1; 0; 2]%Q
        [2%Z; 3%Z; 0%Z; 4%Z],
      ranked_queries insertion (fun _ => 0%Z) [5; 4; 1]%Q [1; 0; 2]%Q
        [2%Z; 3%Z; 0%Z; 4%Z],
      query_slices [1; 0; 2]%Q [2%Z; 3%Z; 0%Z; 4%Z])
  /\ ((Z.of_nat (List.length [1; 0; 2]%Q) <= total [2%Z; 3%Z; 0%Z; 4%Z])%Z ->
      List.concat (query_slices [1; 0; 2]%Q [2%Z; 3%Z; 0%Z; 4%Z]) = [1; 0; 2]%Q).
Proof.
  apply (judgments_counts_unchecked insertion (fun _ => 0%Z) [3 # 10; -1; 2]%Q
           [2%Z; 3%Z; 0%Z; 4%Z] [("@search.score"%string, [5; 4; 1]%Q)]
           [5; 4; 1]%Q [1; 0; 2]%Q).
  - exact insertion_sound.
  - reflexivity.
  - reflexivity.
  - reflexivity.
  - repeat constructor; discriminate.
Defined.

(** The first query whose documents run past the labels stops the
    converter with a ValueError, unless exactly one label is left for it. *)
Theorem judgments_label_shortage (S : Sorter) (junk : nat -> Z)
    (predictions : list Q) (done : list Z) (query_doc_count : Z)
    (rest : list Z) (X_test : DataFrame) (search_score y_test : list Q) :
  sound S ->
  column X_test "@search.score"%string = Ok search_score ->
  Forall (fun c => (0 <= c)%Z) done ->
  (total done <= Z.of_nat (List.length y_test))%Z ->
  (total done + query_doc_count <= Z.of_nat (List.length predictions))%Z ->
  (total done <= Z.of_nat (List.length search_score))%Z ->
  (Z.of_nat (List.length y_test) < total done + query_doc_count)%Z ->
  (Z.of_nat (List.length y_test) <> total done + 1)%Z ->
  compute_judgments_after_training S junk predictions
    (done ++ query_doc_count :: rest) X_test y_test = Raise ValueError.
Proof.
  intros HS HX Hdone Hy Hp Hs Hshort Hone.
  pose proof (total_nonneg done Hdone) as Ht.
  unfold compute_judgments_after_training. rewrite for_each_app.
  destruct (query_loop S junk HS predictions y_test search_score X_test HX
              done 0 0 [] [] [] ltac:(lia) Hdone ltac:(lia) ltac:(lia)
              ltac:(lia)) as (start' & ->).
  cbn [bind for_each]. rewrite (query_step_unfold S junk) by lia.
  rewrite (judgments_of_shortage S junk HS); [reflexivity | |];
    rewrite !length_firstn, !length_skipn; lia.
Qed.

Lemma judgments_label_shortage_witness :
  compute_judgments_after_training insertion (fun _ => 0%Z)
    [3 # 10; -1; 2; 4; 0]%Q ([1%Z] ++ 3%Z :: [1%Z])
    [("@search.score"%string, [5; 4; 1; 0; 2]%Q)] [1; 0; 2]%Q =
  Raise ValueError.
Proof.
  apply (judgments_label_shortage insertion (fun _ => 0%Z)
           [3 # 10; -1; 2; 4; 0]%Q [1%Z] 3%Z [1%Z]
           [("@search.score"%string, [5; 4; 1; 0; 2]%Q)] [5; 4; 1; 0; 2]%Q
           [1; 0; 2]%Q).
  - exact insertion_sound.
  - reflexivity.
  - repeat constructor; discriminate.
  - cbn; lia.
  - cbn; lia.
  - cbn; lia.
  - cbn; lia.
  - cbn; lia.
Defined.

(** When exactly one label is left for the last query, no error is raised:
    every document of that query gets that label, under both scorers. *)
Theorem judgments_single_label_broadcast (S : Sorter) (junk : nat -> Z)
    (predictions : list Q) (done : list Z) (query_doc_count : Z)
    (X_test : DataFrame) (search_score labels : list Q) (label : Q) :
  sound S ->
  column X_test "@search.score"%string = Ok search_score ->
  Forall (fun c => (0 <= c)%Z) done ->
  total done = Z.of_nat (List.length labels) ->
  (0 <= query_doc_count)%Z ->
  (total done + query_doc_count <= Z.of_nat (List.length predictions))%Z ->
  (total done + query_doc_count <= Z.of_nat (List.length search_score))%Z ->
  compute_judgments_after_training S junk predictions
    (done ++ [query_doc_count]) X_test (labels ++ [label]) =
  Ok (ranked_queries S junk predictions labels done
        ++ [repeat (to_int64 label) (Z.to_nat query_doc_count)],
      ranked_queries S junk search_score labels done
        ++ [repeat (to_int64 label) (Z.to_nat query_doc_count)],
      query_slices labels done ++ [firstn (Z.to_nat query_doc_count) [label]]).
Proof.
  intros HS HX Hdone Hy Hc Hp Hs.
  pose proof (total_nonneg done Hdone) as Ht.
  unfold compute_judgments_after_training. rewrite for_each_app.
  destruct (query_loop S junk HS predictions (labels ++ [label]) search_score
              X_test HX done 0 0 [] [] [] ltac:(lia) Hdone ltac:(lia)
              ltac:(lia) ltac:(rewrite length_app; cbn; lia)) as (start' & ->).
  cbn [bind for_each]. rewrite (query_step_unfold S junk) by lia.
  cbn [Z.add Z.to_nat skipn app].
  assert (Hwin : skipn (Z.to_nat (total done)) (labels ++ [label]) = [label]).
  { rewrite skipn_app, skipn_all2 by lia.
    replace (Z.to_nat (total done) - List.length labels)%nat with 0%nat by lia.
    reflexivity. }
  rewrite Hwin. unfold ranked_queries.
  rewrite (query_slices_prefix done labels [label]) by (assumption || lia).
  destruct (Z.to_nat query_doc_count) as [|n] eqn:Hn.
  - cbn [firstn]. rewrite !(judgments_of_ok S junk HS)
      by (rewrite ?length_firstn; cbn; lia).
    cbn [bind]. rewrite HX. cbn [bind].
    rewrite ?(judgments_of_ok S junk HS) by reflexivity. cbn [bind repeat].
    assert (Hnil : ranked_labels S junk [] [] = []).
    { apply length_zero_iff_nil.
      now rewrite (ranked_labels_length S junk HS). }
    now rewrite !Hnil.
  - replace (firstn (Datatypes.S n) [label]) with [label]
      by (cbn [firstn]; now rewrite firstn_nil).
    rewrite !(judgments_of_single S junk HS). cbn [bind].
    rewrite HX. cbn [bind]. rewrite !(judgments_of_single S junk HS).
    cbn [bind]. rewrite !length_firstn, !length_skipn.
    rewrite !Nat.min_l by lia. reflexivity.
Qed.

Lemma judgments_single_label_broadcast_witness :
  compute_judgments_after_training insertion (fun _ => 0%Z)
    [3 # 10; -1; 2; 4; 0]%Q ([2%Z] ++ [3%Z])
    [("@search.score"%string, [5; 4; 1; 0; 2]%Q)] ([1; 0] ++ [5 # 2])%Q =
  Ok (ranked_queries insertion (fun _ => 0%Z) [3 # 10; -1; 2; 4; 0]%Q
        [1; 0]%Q [2%Z] ++ [repeat (to_int64 (5 # 2)) (Z.to_nat 3)],
      ranked_queries insertion (fun _ => 0%Z) [5; 4; 1; 0; 2]%Q
        [1; 0]%Q [2%Z] ++ [repeat (to_int64 (5 # 2)) (Z.to_nat 3)],
      query_slices [1; 0]%Q [2%Z] ++ [firstn (Z.to_nat 3) [5 # 2]%Q]).
Proof.
  apply (judgments_single_label_broadcast insertion (fun _ => 0%Z)
           [3 # 10; -1; 2; 4; 0]%Q [2%Z] 3%Z
           [("@search.score"%string, [5; 4; 1; 0; 2]%Q)] [5; 4; 1; 0; 2]%Q
           [1; 0]%Q (5 # 2)%Q).
  - exact insertion_sound.
  - reflexivity.
  - repeat constructor; discriminate.
  - reflexivity.
  - lia.
  - cbn; lia.
  - cbn; lia.
Defined.

(** The secondary scores are looked up inside the loop, after the model
    judgments of the query: a table without the column fails with a
    KeyError at the first query, and is not looked at when there is no
    query. *)
Theorem judgments_missing_column (S : Sorter) (junk : nat -> Z)
    (predictions : list Q) (query_doc_count : Z) (rest : list Z)
    (X_test : DataFrame) (y_test : list Q) :
  sound S ->
  column X_test "@search.score"%string = Raise KeyError ->
  (0 <= query_doc_count)%Z ->
  List.length predictions = List.length y_test ->
  compute_judgments_after_training S junk predictions
    (query_doc_count :: rest) X_test y_test = Raise KeyError
  /\ compute_judgments_after_training S junk predictions [] X_test y_test =
     Ok ([], [], []).
Proof.
  intros HS HX Hc Hlen. split; [|reflexivity].
  unfold compute_judgments_after_training. cbn [for_each].
  rewrite (query_step_unfold S junk) by lia.
  rewrite (judgments_of_ok S junk HS)
    by (rewrite !length_firstn, !length_skipn; lia).
  cbn [bind]. now rewrite HX.
Qed.

Lemma judgments_missing_column_witness :
  compute_judgments_after_training insertion (fun _ => 0%Z)
    [3 # 10; -1; 2]%Q [2%Z; 1%Z] [("score"%string, [5; 4; 1]%Q)]
    [1; 0; 2]%Q = Raise KeyError
  /\ compute_judgments_after_training insertion (fun _ => 0%Z)
       [3 # 10; -1; 2]%Q [] [("score"%string, [5; 4; 1]%Q)]
       [1; 0; 2]%Q = Ok ([], [], []).
Proof.
  apply (judgments_missing_column insertion (fun _ => 0%Z)).
  - exact insertion_sound.
  - reflexivity.
  - lia.
  - reflexivity.
Defined.

(** ** Flattening nested dictionaries *)

Section Dictionaries.

Context {V : Type}.

Let build (d0 items : list (string * V)) : list (string * V) :=
  fold_left (fun d kv => dict_set (fst kv) (snd kv) d) items d0.

Lemma dict_set_keys (key : string) (v : V) (d : list (string * V)) (k : string) :
  In k (map fst (dict_set key v d)) <-> k = key \/ In k (map fst d).
Proof.
  induction d as [|[key' v'] d IH]; cbn [dict_set map fst In].
  - intuition.
  - destruct (String.eqb_spec key' key) as [-> | Hne]; cbn [map fst In].
    + intuition.
    + rewrite IH. intuition.
Qed.

Lemma dict_set_NoDup (key : string) (v : V) (d : list (string * V)) :
  NoDup (map fst d) -> NoDup (map fst (dict_set key v d)).
Proof.
  induction d as [|[key' v'] d IH]; cbn [dict_set map fst]; intros Hnd.
  - constructor; [intros [] | constructor].
  - inversion Hnd as [|? ? Hni Hnd']; subst.
    destruct (String.eqb_spec key' key) as [-> | Hne]; cbn [map fst].
    + now constructor.
    + constructor; [|now apply IH].
      rewrite dict_set_keys. intros [-> | Hin]; auto.
Qed.

Lemma dict_set_comm (k1 k2 : string) (v1 v2 : V) (d : list (string * V)) :
  k1 <> k2 -> In k1 (map fst d) ->
  dict_set k2 v2 (dict_set k1 v1 d) = dict_set k1 v1 (dict_set k2 v2 d).
Proof.
  intros Hne. induction d as [|[k v] d IH]; cbn [map fst In]; [intros []|].
  intros Hin. cbn [dict_set].
  destruct (String.eqb k k1) eqn:E1, (String.eqb k k2) eqn:E2;
    cbn [dict_set]; rewrite ?E1, ?E2; try reflexivity.
  - apply String.eqb_eq in E1, E2. congruence.
  - f_equal. apply IH. destruct Hin as [-> | Hin]; [|assumption].
    now rewrite String.eqb_refl in E1.
Qed.

Lemma dict_set_twice (key : string) (v v0 : V) (d : list (string * V)) :
  dict_set key v (dict_set key v0 d) = dict_set key v d.
Proof.
  induction d as [|[k w] d IH]; cbn [dict_set].
  - now rewrite String.eqb_refl.
  - destruct (String.eqb_spec k key) as [-> | Hne]; cbn [dict_set].
    + now rewrite String.eqb_refl.
    + destruct (String.eqb_spec k key); [congruence|]. now rewrite IH.
Qed.

Lemma build_app (d0 l1 l2 : list (string * V)) :
  build d0 (l1 ++ l2) = build (build d0 l1) l2.
Proof. apply fold_left_app. Qed.

Lemma build_NoDup (items d0 : list (string * V)) :
  NoDup (map fst d0) -> NoDup (map fst (build d0 items)).
Proof.
  revert d0. induction items as [|[k v] items IH]; intros d0 Hnd; [assumption|].
  apply IH. now apply dict_set_NoDup.
Qed.

Lemma build_keys (items d0 : list (string * V)) (k : string) :
  In k (map fst (build d0 items)) <->
  In k (map fst d0) \/ In k (map fst items).
Proof.
  revert d0. induction items as [|[key v] items IH]; intros d0;
    cbn [map fst In].
  - cbn. intuition.
  - change (build d0 ((key, v) :: items))
      with (build (dict_set key v d0) items).
    rewrite IH, dict_set_keys. intuition.
Qed.

(** A key that stays untouched afterwards may be set before or after. *)
Lemma build_set_comm (items : list (string * V)) :
  forall (d : list (string * V)) (key : string) (v : V),
    ~ In key (map fst items) -> In key (map fst d) ->
    build (dict_set key v d) items = dict_set key v (build d items).
Proof.
  induction items as [|[k w] items IH]; intros d key v Hni Hin; [reflexivity|].
  cbn [map fst In] in Hni.
  change (build (dict_set key v d) ((k, w) :: items))
    with (build (dict_set k w (dict_set key v d)) items).
  change (build d ((k, w) :: items)) with (build (dict_set k w d) items).
  rewrite dict_set_comm by auto.
  apply IH; [auto|]. apply dict_set_keys. auto.
Qed.

Lemma build_dict_set (D : list (string * V)) :
  forall (d0 : list (string * V)) (key : string) (v : V),
    NoDup (map fst D) ->
    build d0 (dict_set key v D) = dict_set key v (build d0 D).
Proof.
  induction D as [|[k w] D IH]; intros d0 key v Hnd; [reflexivity|].
  cbn [map fst] in Hnd. inversion Hnd as [|? ? Hni Hnd']; subst.
  cbn [dict_set]. destruct (String.eqb_spec k key) as [-> | Hne].
  - change (build d0 ((key, v) :: D)) with (build (dict_set key v d0) D).
    change (build d0 ((key, w) :: D)) with (build (dict_set key w d0) D).
    rewrite <- (build_set_comm D (dict_set key w d0) key v Hni)
      by (apply dict_set_keys; auto).
    now rewrite dict_set_twice.
  - change (build d0 ((k, w) :: dict_set key v D))
      with (build (dict_set k w d0) (dict_set key v D)).
    now rewrite IH.
Qed.

(** Setting the items of a dictionary built from some pairs is setting the
    pairs. *)
Lemma build_build (items : list (string * V)) :
  forall d0 D : list (string * V),
    NoDup (map fst D) ->
    build d0 (build D items) = build (build d0 D) items.
Proof.
  induction items as [|[k v] items IH]; intros d0 D Hnd; [reflexivity|].
  change (build D ((k, v) :: items)) with (build (dict_set k v D) items).
  rewrite IH by now apply dict_set_NoDup.
  now rewrite build_dict_set.
Qed.

Lemma build_dict (d0 items : list (string * V)) :
  build d0 (dict items) = build d0 items.
Proof. apply (build_build items d0 []). constructor. Qed.

Lemma build_fresh (items : list (string * V)) :
  forall d0 : list (string * V),
    NoDup (map fst (d0 ++ items)) -> build d0 items = d0 ++ items.
Proof.
  induction items as [|[k v] items IH]; intros d0 Hnd.
  - cbn. now rewrite app_nil_r.
  - change (build d0 ((k, v) :: items)) with (build (dict_set k v d0) items).
    rewrite map_app in Hnd. cbn [map fst] in Hnd.
    pose proof (NoDup_remove_2 _ _ _ Hnd) as Hni.
    rewrite dict_set_fresh by (intros Hin; apply Hni, in_or_app; auto).
    rewrite IH; rewrite <- app_assoc; [reflexivity|].
    now rewrite map_app.
Qed.

Lemma dict_keys (items : list (string * V)) (k : string) :
  In k (map fst (dict items)) <-> In k (map fst items).
Proof.
  pose proof (build_keys items [] k) as H. unfold build in H.
  cbn [map In] in H. unfold dict. tauto.
Qed.

Lemma dict_distinct (items : list (string * V)) :
  NoDup (map fst items) -> dict items = items.
Proof. intros Hnd. now apply (build_fresh items []). Qed.

End Dictionaries.

Section Flattening.

Context {A : Type}.

Section Induction.

Variable P : nested A -> Prop.
Hypothesis P_Leaf : forall a, P (Leaf a).
Hypothesis P_Mapping :
  forall d, Forall (fun kv => P (snd kv)) d -> P (Mapping d).

Fixpoint nested_ind' (v : nested A) : P v :=
  match v with
  | Leaf a => P_Leaf a
  | Mapping d =>
      P_Mapping d
        ((fix entries (d : list (string * nested A))
            : Forall (fun kv => P (snd kv)) d :=
            match d with
            | [] => Forall_nil _
            | (k, v') :: d' =>
                Forall_cons (k, v') (nested_ind' v') (entries d')
            end) d)
  end.

End Induction.

Lemma extend_items_leaves (sep : string) (v : nested A) :
  forall (key : string) (d0 : list (string * A)),
    fold_left (fun d kv => dict_set (fst kv) (snd kv) d)
      (extend_items v key sep) d0 =
    fold_left (fun d kv => dict_set (fst kv) (snd kv) d)
      (leaves v key sep) d0.
Proof.
  induction v as [a | d IH] using nested_ind'; intros key d0;
    [reflexivity|].
  cbn [extend_items leaves]. rewrite build_dict. revert d0.
  induction IH as [|[k v'] d' Hv _ IHd]; intros d0; [reflexivity|].
  cbn [flat_map]. rewrite !fold_left_app. cbn [snd] in Hv.
  now rewrite Hv, IHd.
Qed.

Lemma flatten_leaves (d : list (string * nested A)) (parent_key sep : string) :
  flatten d parent_key sep = dict (leaves (Mapping d) parent_key sep).
Proof.
  change (flatten d parent_key sep)
    with (extend_items (Mapping d) parent_key sep).
  pose proof (extend_items_leaves sep (Mapping d) parent_key []) as H.
  cbn [extend_items] in H. rewrite build_dict in H. exact H.
Qed.

Lemma string_append_assoc (s1 s2 s3 : string) :
  ((s1 ++ s2) ++ s3 = s1 ++ s2 ++ s3)%string.
Proof.
  induction s1 as [|c s1 IH]; [reflexivity|].
  cbn [String.append]. now rewrite IH.
Qed.

Lemma string_append_nil (s : string) : (s ++ EmptyString)%string = s.
Proof.
  induction s as [|c s IH]; [reflexivity|].
  cbn [String.append]. now rewrite IH.
Qed.

Lemma new_key_prefix (parent_key sep k : string) :
  parent_key <> EmptyString ->
  new_key parent_key sep k = (parent_key ++ sep ++ k)%string
  /\ new_key parent_key sep k <> EmptyString.
Proof.
  intros Hne. destruct parent_key as [|c p]; [contradiction|].
  cbn [new_key]. rewrite string_append_assoc. split; [reflexivity|].
  cbn [String.append]. discriminate.
Qed.

Lemma leaves_keys (sep : string) (v : nested A) :
  forall key k a,
    key <> EmptyString -> In (k, a) (leaves v key sep) ->
    exists rest, k = (key ++ rest)%string.
Proof.
  induction v as [a | d IH] using nested_ind'; intros key k x Hne Hin.
  - destruct Hin as [[= <- <-] | []]. exists EmptyString.
    now rewrite string_append_nil.
  - cbn [leaves] in Hin. apply in_flat_map in Hin.
    destruct Hin as ([k' v'] & Hd & Hin).
    rewrite Forall_forall in IH. specialize (IH _ Hd). cbn [snd] in IH.
    destruct (new_key_prefix key sep k' Hne) as [Heq Hne'].
    destruct (IH _ _ _ Hne' Hin) as (rest & ->).
    exists (sep ++ k' ++ rest)%string.
    now rewrite Heq, !string_append_assoc.
Qed.

End Flattening.

(** Flattening level by level is flattening in one pass: the result is the
    dictionary of the leaves with their joined keys, set in the order of
    the traversal, so that of two leaves with one joined key the first
    fixes the place and the last the value. *)
Theorem flatten_one_pass (A : Type) (d : list (string * nested A))
    (parent_key sep : string) :
  flatten d parent_key sep = dict (leaves (Mapping d) parent_key sep).
Proof. apply flatten_leaves. Qed.

(** When the joined keys of the leaves are all different nothing is lost:
    the result lists every leaf under its joined key, in the order of the
    traversal. *)
Theorem flatten_distinct_keys (A : Type) (d : list (string * nested A))
    (parent_key sep : string) :
  NoDup (map fst (leaves (Mapping d) parent_key sep)) ->
  flatten d parent_key sep = leaves (Mapping d) parent_key sep.
Proof. intros Hnd. rewrite flatten_leaves. now apply dict_distinct. Qed.

Lemma flatten_distinct_keys_witness :
  flatten [("a"%string, Mapping [("b"%string, Leaf 1%Z);
                                 ("c"%string, Mapping [("d"%string, Leaf 2%Z)])]);
           ("e"%string, Leaf 3%Z)] EmptyString "_"%string =
  leaves (Mapping
            [("a"%string, Mapping [("b"%string, Leaf 1%Z);
                                   ("c"%string, Mapping [("d"%string, Leaf 2%Z)])]);
             ("e"%string, Leaf 3%Z)]) EmptyString "_"%string.
Proof.
  apply (flatten_distinct_keys Z). cbn.
  repeat constructor; cbn; intuition discriminate.
Defined.

(** A dictionary without nested mappings comes back as it is, whatever the
    separator. *)
Theorem flatten_flat (A : Type) (d : list (string * A)) (sep : string) :
  NoDup (map fst d) -> flatten (flat d) EmptyString sep = d.
Proof.
  intros Hnd. rewrite flatten_leaves.
  assert (Hl : leaves (Mapping (flat d)) EmptyString sep = d).
  { clear Hnd. cbn [leaves]. unfold flat.
    induction d as [|[k a] d IH]; [reflexivity|].
    cbn [map flat_map fst snd leaves new_key app]. f_equal. exact IH. }
  rewrite Hl. now apply dict_distinct.
Qed.

Lemma flatten_flat_witness :
  flatten (flat [("a"%string, 1%Z); ("b"%string, 2%Z)]) EmptyString
    "_"%string = [("a"%string, 1%Z); ("b"%string, 2%Z)].
Proof.
  apply (flatten_flat Z). repeat constructor; cbn; intuition discriminate.
Defined.

(** Under a parent key that is not empty every key of the result starts
    with the parent key and the separator. *)
Theorem flatten_keys_prefixed (A : Type) (d : list (string * nested A))
    (parent_key sep k : string) :
  parent_key <> EmptyString ->
  In k (map fst (flatten d parent_key sep)) ->
  exists rest, k = (parent_key ++ sep ++ rest)%string.
Proof.
  intros Hne Hin. rewrite flatten_leaves in Hin.
  apply (proj1 (dict_keys _ k)) in Hin.
  apply in_map_iff in Hin. destruct Hin as ([k' a] & Hk & Hin).
  cbn [fst] in Hk. subst k'. cbn [leaves] in Hin.
  apply in_flat_map in Hin. destruct Hin as ([k0 v] & _ & Hin).
  destruct (new_key_prefix parent_key sep k0 Hne) as [Heq Hne'].
  destruct (leaves_keys sep v _ _ _ Hne' Hin) as (rest & ->).
  exists (k0 ++ rest)%string. now rewrite Heq, !string_append_assoc.
Qed.

Lemma flatten_keys_prefixed_witness :
  exists rest, "p_a_b"%string = ("p" ++ "_" ++ rest)%string.
Proof.
  apply (flatten_keys_prefixed Z [("a"%string, Mapping [("b"%string, Leaf 1%Z)])]
           "p" "_" "p_a_b").
  - discriminate.
  - cbn. now left.
Defined.

(** Keys are joined as plain text, so a nested key and a later top-level
    key can come out the same; no error is raised, the place is the
    first's and the value the last's, and one entry is gone. *)
Theorem flatten_collision (A : Type) (a b sep : string) (x y : A) :
  a <> EmptyString ->
  flatten [(a, Mapping [(b, Leaf x)]); ((a ++ sep) ++ b, Leaf y)]%string
    EmptyString sep = [(((a ++ sep) ++ b)%string, y)].
Proof.
  intros Hne. destruct a as [|c a]; [contradiction|].
  unfold flatten, dict.
  cbn [flat_map extend_items new_key dict fold_left dict_set app fst snd].
  unfold dict. cbn [fold_left dict_set fst snd app].
  now rewrite String.eqb_refl.
Qed.

Lemma flatten_collision_witness :
  flatten [("a"%string, Mapping [("b"%string, Leaf 1%Z)]);
           ((("a" ++ "_") ++ "b")%string, Leaf 2%Z)] EmptyString "_"%string =
  [((("a" ++ "_") ++ "b")%string, 2%Z)].
Proof. apply (flatten_collision Z "a" "b" "_" 1%Z 2%Z). discriminate. Defined.

(** ** Grouping into fixed-length chunks *)

Section GrouperRounds.

Context {A : Type}.
Variable fillvalue : A.

Lemma round_shared (xs : list A) :
  forall (its : list iterator) (rest : list A) (na : Z),
    round fillvalue (repeat Shared (List.length xs) ++ its) (xs ++ rest) na =
    match round fillvalue its rest na with
    | Some (its', r, na', values) =>
        Some (repeat Shared (List.length xs) ++ its', r, na', xs ++ values)
    | None => None
    end.
Proof.
  induction xs as [|x xs IH]; intros its rest na.
  - cbn [List.length repeat app].
    now destruct (round fillvalue its rest na) as [[[[? ?] ?] ?]|].
  - cbn [List.length repeat app round]. rewrite IH.
    now destruct (round fillvalue its rest na) as [[[[? ?] ?] ?]|].
Qed.

(** Exhausted positions before the last active one are filled. *)
Lemma round_exhausted (k : nat) :
  forall (its : list iterator) (na : Z),
    (Z.of_nat k < na)%Z ->
    round fillvalue (repeat Shared k ++ its) [] na =
    match round fillvalue its [] (na - Z.of_nat k) with
    | Some (its', r, na', values) =>
        Some (repeat Fill k ++ its', r, na', repeat fillvalue k ++ values)
    | None => None
    end.
Proof.
  induction k as [|k IH]; intros its na Hk.
  - cbn [repeat app Z.of_nat]. rewrite Z.sub_0_r.
    now destruct (round fillvalue its [] na) as [[[[? ?] ?] ?]|].
  - cbn [repeat app round]. cbv zeta.
    destruct (Z.eqb_spec (na - 1) 0) as [H0 | _]; [lia|].
    rewrite IH by lia.
    replace (na - 1 - Z.of_nat k)%Z with (na - Z.of_nat (S k))%Z by lia.
    now destruct (round fillvalue its [] (na - Z.of_nat (S k)))
      as [[[[? ?] ?] ?]|].
Qed.

(** The last active iterator found exhausted ends the generator. *)
Lemma round_returns (k : nat) :
  forall (its : list iterator) (na : Z),
    (1 <= na <= Z.of_nat k)%Z ->
    round fillvalue (repeat Shared k ++ its) [] na = None.
Proof.
  induction k as [|k IH]; intros its na Hk; [lia|].
  cbn [repeat app round]. cbv zeta.
  destruct (Z.eqb_spec (na - 1) 0) as [H0 | Hne]; [reflexivity|].
  rewrite IH by lia. reflexivity.
Qed.

Lemma round_fill (k : nat) (rest : list A) (na : Z) :
  round fillvalue (repeat Fill k) rest na =
  Some (repeat Fill k, rest, na, repeat fillvalue k).
Proof.
  induction k as [|k IH]; [reflexivity|].
  cbn [repeat round]. now rewrite IH.
Qed.

Lemma padding_step (len n : nat) : padding (n + len) n = padding len n.
Proof.
  unfold padding. destruct n as [|n]; [reflexivity|].
  replace (S n + len)%nat with (len + 1 * S n)%nat by lia.
  now rewrite Nat.Div0.mod_add.
Qed.

Lemma padding_short (len n : nat) :
  (0 < len < n)%nat -> padding len n = (n - len)%nat.
Proof.
  intros H. unfold padding. rewrite (Nat.mod_small len n) by lia.
  apply Nat.mod_small. lia.
Qed.

Lemma padding_none (n : nat) : padding 0 n = 0%nat.
Proof.
  unfold padding. destruct n as [|n]; [reflexivity|].
  rewrite Nat.Div0.mod_0_l, Nat.sub_0_r. apply Nat.Div0.mod_same.
Qed.

(** The rounds from the start: whole groups while the elements last, one
    filled group for a remainder, then the end. *)
Lemma rounds_groups (n : nat) :
  (0 < n)%nat ->
  forall (m : nat) (iterable : list A) (fuel : nat),
    (List.length iterable <= m)%nat ->
    (2 + List.length iterable <= fuel)%nat ->
    exists tuples,
      rounds fillvalue fuel (repeat Shared n) iterable (Z.of_nat n) =
        Some tuples
      /\ Forall (fun t => List.length t = n) tuples
      /\ List.concat tuples =
         iterable ++ repeat fillvalue (padding (List.length iterable) n).
Proof.
  intros Hn.
  assert (Hend : round fillvalue (repeat Shared n) [] (Z.of_nat n) = None).
  { rewrite <- (app_nil_r (repeat Shared n)). apply round_returns. lia. }
  induction m as [|m IH]; intros iterable fuel Hm Hfuel.
  - destruct iterable; [|cbn in Hm; lia].
    destruct fuel as [|fuel]; [cbn in Hfuel; lia|].
    cbn [rounds]. rewrite Hend.
    exists []. rewrite padding_none. repeat split; constructor.
  - destruct fuel as [|fuel]; [lia|]. cbn [rounds].
    destruct (Nat.le_gt_cases n (List.length iterable)) as [Hfull | Hshort].
    + (* a whole group *)
      assert (Hx : List.length (firstn n iterable) = n)
        by (rewrite length_firstn; lia).
      pose proof (round_shared (firstn n iterable) [] (skipn n iterable)
                    (Z.of_nat n)) as Hround.
      rewrite Hx, firstn_skipn, !app_nil_r in Hround. cbn [round] in Hround.
      rewrite !app_nil_r in Hround. rewrite Hround.
      destruct (IH (skipn n iterable) fuel) as (tuples & -> & Hall & Hcat);
        try (rewrite length_skipn; lia).
      exists (firstn n iterable :: tuples). repeat split.
      * now constructor.
      * cbn [List.concat]. rewrite Hcat, app_assoc, firstn_skipn.
        f_equal. f_equal. rewrite length_skipn.
        rewrite <- (padding_step (List.length iterable - n) n).
        f_equal. lia.
    + destruct (List.length iterable) as [|r] eqn:Hr.
      * (* nothing left *)
        apply length_zero_iff_nil in Hr. subst iterable. rewrite Hend.
        exists []. rewrite padding_none. repeat split; constructor.
      * (* a remainder *)
        pose proof (round_shared iterable (repeat Shared (n - S r)) []
                      (Z.of_nat n)) as Hround.
        pose proof (round_exhausted (n - S r) [] (Z.of_nat n) ltac:(lia))
          as Hfill.
        cbn [round] in Hfill. rewrite !app_nil_r in Hfill.
        rewrite Hfill, Hr, <- repeat_app, !app_nil_r in Hround.
        replace (S r + (n - S r))%nat with n in Hround by lia.
        rewrite Hround.
        destruct fuel as [|fuel]; [lia|]. cbn [rounds].
        rewrite round_returns by lia.
        exists [iterable ++ repeat fillvalue (n - S r)].
        repeat split.
        -- constructor; [|constructor].
           rewrite length_app, repeat_length. lia.
        -- cbn [List.concat]. rewrite app_nil_r, padding_short by lia.
           reflexivity.
Qed.

End GrouperRounds.

(** The groups are the elements in order, [n] to a group, the last one
    filled up with [fillvalue]; the rounds allowed are enough. *)
Theorem grouper_groups (A : Type) (iterable : list A) (n : Z) (fillvalue : A) :
  (0 < n)%Z ->
  exists tuples,
    grouper iterable n fillvalue = Some tuples
    /\ Forall (fun t => List.length t = Z.to_nat n) tuples
    /\ List.concat tuples =
       iterable
       ++ repeat fillvalue (padding (List.length iterable) (Z.to_nat n)).
Proof.
  intros Hn. unfold grouper, zip_longest. cbv zeta.
  rewrite repeat_length.
  destruct (Z.eqb_spec (Z.of_nat (Z.to_nat n)) 0) as [H0 | _]; [lia|].
  apply (rounds_groups fillvalue (Z.to_nat n) ltac:(lia)
           (List.length iterable)); lia.
Qed.

Lemma grouper_groups_witness :
  exists tuples,
    grouper [1; 2; 3; 4; 5; 6; 7]%Z 3 0%Z = Some tuples
    /\ Forall (fun t => List.length t = Z.to_nat 3) tuples
    /\ List.concat tuples =
       [1; 2; 3; 4; 5; 6; 7]%Z
       ++ repeat 0%Z (padding (List.length [1; 2; 3; 4; 5; 6; 7]%Z) (Z.to_nat 3)).
Proof. apply (grouper_groups Z [1; 2; 3; 4; 5; 6; 7]%Z 3 0%Z). lia. Defined.

(** With a group length that is not positive no group comes out and the
    elements are dropped without an error. *)
Theorem grouper_no_length (A : Type) (iterable : list A) (n : Z)
    (fillvalue : A) :
  (n <= 0)%Z -> grouper iterable n fillvalue = Some [].
Proof.
  intros Hn. unfold grouper.
  replace (Z.to_nat n) with 0%nat by lia. reflexivity.
Qed.

Lemma grouper_no_length_witness : grouper [1; 2; 3]%Z (-2) 0%Z = Some [].
Proof. apply (grouper_no_length Z [1; 2; 3]%Z (-2) 0%Z). lia. Defined.
